(** * A vantage-point tree: construction and k-nearest-neighbour search

    Shallow embedding of [vptree.hpp] (namespace [vpt]) together with the
    properties of its builder ([VpTree::makeTree] and helpers), of its
    searcher ([Searcher::search], [Searcher::searchInNode]) and of its
    default metric ([EuclideanMetric]).

    Modelling conventions.
    - C++ [int] values are integers of [Z], and index arithmetic is exact: it
      is the arithmetic of the code as long as no [int] overflows, that is
      for up to 2^30 items.  A vector index is valid when it is non-negative
      and below the vector's size; reading or writing a vector outside its
      bounds, like popping an empty priority queue, is undefined behaviour,
      recorded as the outcome [Undefined].
    - A [double] is the rational number it denotes (no NaN, no infinity);
      [DBL_MAX] is the largest finite double.  The two sums [dist - tau_] and
      [dist + tau_] of the pruning tests are computed exactly; rounding is
      monotone, so the code never prunes a subtree that these tests keep.
    - The comparison [heap_.size() == neighborsCount_] is between a [size_t]
      and an [int]: the [int] is converted to [size_t] (64 bits) first.
    - Recursion on node indices ([makeTree], [searchInNode]) and the loop
      that empties the heap take a [fuel] argument; the entry points give
      them enough of it, and the theorems show that it never runs out.
    - [std::nth_element], [std::uniform_int_distribution] over [std::mt19937],
      [std::priority_queue] and [std::sqrt] belong to the C++ standard
      library: they are interfaces (type classes) here, with the guarantees
      the standard gives, and the results hold for every implementation of
      them.  The sums and products of [EuclideanMetric] are exact. *)

From Stdlib Require Import ZArith QArith Qround Lia Lqa.
From stdpp Require Import base option list sorting.

#[local] Open Scope Z_scope.
#[local] Set Default Proof Using "Type".

(** ** Outcomes of a run *)

Inductive fault : Set :=
  | OutOfBounds     (* operator[] on a vector, outside its bounds *)
  | PopEmptyHeap.   (* priority_queue::pop on an empty queue *)

Inductive outcome (A : Type) : Type :=
  | Ok (a : A)
  | Undefined (f : fault)
  | OutOfFuel.
Arguments Ok {A} a.
Arguments Undefined {A} f.
Arguments OutOfFuel {A}.

Definition outcome_bind {A B} (f : A → outcome B) (m : outcome A) : outcome B :=
  match m with
  | Ok a => f a
  | Undefined e => Undefined e
  | OutOfFuel => OutOfFuel
  end.

#[global] Instance outcome_mbind : MBind outcome := @outcome_bind.
#[global] Instance outcome_mret : MRet outcome := @Ok.

(** [v[i]] for a [std::vector] and an [int] index. *)
Definition vec_at {A} (v : list A) (i : Z) : outcome A :=
  if decide (0 ≤ i) then
    match v !! Z.to_nat i with
    | Some x => Ok x
    | None => Undefined OutOfBounds
    end
  else Undefined OutOfBounds.

(** [v[i] = x]. *)
Definition vec_set {A} (v : list A) (i : Z) (x : A) : outcome (list A) :=
  _ ← vec_at v i; Ok (<[Z.to_nat i := x]> v).

(** ** Numbers *)

Definition Qltb (x y : Q) : bool := negb (Qle_bool y x).
Definition Qleb (x y : Q) : bool := Qle_bool x y.

(** [std::numeric_limits<double>::max()] *)
Definition DBL_MAX : Q := inject_Z (2 ^ 1024 - 2 ^ 971).

Definition INT_MIN : Z := - 2 ^ 31.
Definition INT_MAX : Z := 2 ^ 31 - 1.

(** Conversion of an [int] to [size_t]. *)
Definition size_t_of_int (k : Z) : Z := k mod 2 ^ 64.

(** ** Data *)

Module Node.
Definition Leaf : Z := -1.

Record t : Type := mk {
  item : Z;
  threshold : Q;
  left : Z;
  right : Z
}.

(** [Node(int item, double threshold = 0., int left = Leaf, int right = Leaf)] *)
Definition new (item : Z) : t := mk item 0%Q Leaf Leaf.

Definition with_threshold (x : Q) (n : t) : t := mk (item n) x (left n) (right n).
Definition with_left (l : Z) (n : t) : t := mk (item n) (threshold n) l (right n).
Definition with_right (r : Z) (n : t) : t := mk (item n) (threshold n) (left n) r.
End Node.

Module HeapItem.
Record t : Type := mk { item : Z; dist : Q }.
End HeapItem.

Module Result.
(** [item] is a pointer into the tree's item sequence: the position it
    points at. *)
Record t : Type := mk { item : Z; index : Z; dist : Q }.
End Result.

(** ** The standard library's interfaces *)

(** [std::nth_element(first, nth, last, comp)] on the range holding [l],
    with [nth = first + n], for a comparison that orders by a key: the
    range is permuted, no element before [nth] is greater than the element
    at [nth], and no element from [nth] on is smaller. *)
Class NthElement (A : Type) := {
  nth_element : (A → A → bool) → list A → nat → list A;
  nth_element_perm (key : A → Q) l n :
    (n < length l)%nat →
    nth_element (λ a b, Qltb (key a) (key b)) l n ≡ₚ l;
  nth_element_before (key : A → Q) l n i x p :
    (i < n)%nat →
    nth_element (λ a b, Qltb (key a) (key b)) l n !! i = Some x →
    nth_element (λ a b, Qltb (key a) (key b)) l n !! n = Some p →
    (key x <= key p)%Q;
  nth_element_after (key : A → Q) l n j y p :
    (n ≤ j)%nat →
    nth_element (λ a b, Qltb (key a) (key b)) l n !! j = Some y →
    nth_element (λ a b, Qltb (key a) (key b)) l n !! n = Some p →
    (key p <= key y)%Q
}.

(** [std::uniform_int_distribution<int> uni(lo, hi); uni(rng)] *)
Class UniformRng := {
  rng : Type;
  uniform_int : rng → Z → Z → Z * rng;
  uniform_int_range g lo hi :
    lo ≤ hi → lo ≤ (uniform_int g lo hi).1 ≤ hi
}.

(** [std::priority_queue<HeapItem>], a max-heap on [dist]. *)
Class PriorityQueue := {
  pq : Type;
  pq_new : pq;
  pq_items : pq → list HeapItem.t;   (* what the queue holds, in no order *)
  pq_size : pq → nat;
  pq_push : HeapItem.t → pq → pq;
  pq_top : pq → option HeapItem.t;
  pq_pop : pq → option pq;
  pq_items_new : pq_items pq_new = [];
  pq_size_items h : pq_size h = length (pq_items h);
  pq_items_push x h : pq_items (pq_push x h) ≡ₚ x :: pq_items h;
  pq_top_None h : pq_top h = None ↔ pq_items h = [];
  pq_pop_None h : pq_pop h = None ↔ pq_items h = [];
  pq_top_max h x :
    pq_top h = Some x →
    Forall (λ y, (HeapItem.dist y <= HeapItem.dist x)%Q) (pq_items h);
  pq_top_pop h x h' :
    pq_top h = Some x → pq_pop h = Some h' →
    pq_items h ≡ₚ x :: pq_items h'
}.

(** ** The tree *)

Section VpTree.
Context {T : Type}.
(** The [Metric] template argument, held in the member [getDistance]. *)
Variable getDistance : T → T → Q.
Context `{!NthElement (T * Z), !UniformRng, !PriorityQueue}.

(** [typedef std::pair<T, int> ItemType] *)
#[local] Abbreviation ItemType := (T * Z)%type.

Record VpTree : Type := mkVpTree {
  items_ : list ItemType;
  nodes_ : list Node.t;
  rng_ : rng
}.

Definition with_items (v : list ItemType) (t : VpTree) : VpTree :=
  mkVpTree v (nodes_ t) (rng_ t).
Definition with_nodes (v : list Node.t) (t : VpTree) : VpTree :=
  mkVpTree (items_ t) v (rng_ t).
Definition with_rng (g : rng) (t : VpTree) : VpTree :=
  mkVpTree (items_ t) (nodes_ t) g.

(** *** Builder *)

Fixpoint makeItems_from (i : Z) (input : list T) : list ItemType :=
  match input with
  | [] => []
  | x :: rest => (x, i) :: makeItems_from (i + 1) rest
  end.

Definition makeItems (input : list T) : list ItemType :=
  makeItems_from 0 input.

Definition makeNode (t : VpTree) (item : Z) : Z * VpTree :=
  let nodes := nodes_ t ++ [Node.new item] in
  (Z.of_nat (length nodes) - 1, with_nodes nodes t).

Definition selectRoot (t : VpTree) (lower upper : Z) : outcome VpTree :=
  let '(root, g) := uniform_int (rng_ t) lower (upper - 1) in
  a ← vec_at (items_ t) lower;
  b ← vec_at (items_ t) root;
  v ← vec_set (items_ t) lower b;
  v ← vec_set v root a;
  Ok (with_items v (with_rng g t)).

(** The comparison handed to [std::nth_element]. *)
Definition closer (vp : ItemType) (i1 i2 : ItemType) : bool :=
  Qltb (getDistance vp.1 i1.1) (getDistance vp.1 i2.1).

Definition partitionByDistance (t : VpTree) (lower pos upper : Z)
  : outcome VpTree :=
  if decide (0 ≤ lower ∧ lower + 1 ≤ pos ∧ pos ≤ upper
             ∧ upper ≤ Z.of_nat (length (items_ t))) then
    vp ← vec_at (items_ t) lower;
    let first := Z.to_nat (lower + 1) in
    let last := Z.to_nat upper in
    let range := take (last - first) (drop first (items_ t)) in
    let range' := nth_element (closer vp) range (Z.to_nat pos - first) in
    Ok (with_items (take first (items_ t) ++ range' ++ drop last (items_ t)) t)
  else Undefined OutOfBounds.

Definition update_node (t : VpTree) (node : Z) (f : Node.t → Node.t)
  : outcome VpTree :=
  nd ← vec_at (nodes_ t) node;
  v ← vec_set (nodes_ t) node (f nd);
  Ok (with_nodes v t).

Fixpoint makeTree (fuel : nat) (t : VpTree) (lower upper : Z)
  : outcome (Z * VpTree) :=
  match fuel with
  | O => OutOfFuel
  | S fuel =>
    if decide (upper ≤ lower) then Ok (Node.Leaf, t)
    else if decide (lower + 1 = upper) then Ok (makeNode t lower)
    else
      t ← selectRoot t lower upper;
      let median := (upper + lower) ÷ 2 in
      t ← partitionByDistance t lower median upper;
      let '(node, t) := makeNode t lower in
      vp ← vec_at (items_ t) lower;
      m ← vec_at (items_ t) median;
      t ← update_node t node (Node.with_threshold (getDistance vp.1 m.1));
      '(l, t) ← makeTree fuel t (lower + 1) median;
      t ← update_node t node (Node.with_left l);
      '(r, t) ← makeTree fuel t median upper;
      t ← update_node t node (Node.with_right r);
      Ok (node, t)
  end.

(** The constructor; [seed] is the generator after [rng_.seed(rd())]. *)
Definition VpTree_new (input : list T) (seed : rng) : outcome VpTree :=
  let t := mkVpTree (makeItems input) [] seed in
  '(_, t) ← makeTree (S (length (items_ t))) t 0 (Z.of_nat (length (items_ t)));
  Ok t.

Definition root (t : VpTree) : outcome Node.t := vec_at (nodes_ t) 0.

(** *** Searcher *)

Record Searcher : Type := mkSearcher {
  tree_ : VpTree;
  target_ : T;
  neighborsCount_ : Z;
  tau_ : Q;
  heap_ : pq
}.

Definition with_tau (x : Q) (s : Searcher) : Searcher :=
  mkSearcher (tree_ s) (target_ s) (neighborsCount_ s) x (heap_ s).
Definition with_heap (h : pq) (s : Searcher) : Searcher :=
  mkSearcher (tree_ s) (target_ s) (neighborsCount_ s) (tau_ s) h.

Definition Searcher_new (tree : VpTree) (target : T) (neighborsCount : Z)
  : Searcher :=
  mkSearcher tree target neighborsCount DBL_MAX pq_new.

(** [heap_.size() == neighborsCount_] *)
Definition heap_full (s : Searcher) : bool :=
  bool_decide (Z.of_nat (pq_size (heap_ s)) = size_t_of_int (neighborsCount_ s)).

Definition heap_pop (s : Searcher) : outcome Searcher :=
  match pq_pop (heap_ s) with
  | Some h => Ok (with_heap h s)
  | None => Undefined PopEmptyHeap
  end.

Definition heap_top (s : Searcher) : outcome HeapItem.t :=
  match pq_top (heap_ s) with
  | Some x => Ok x
  | None => Undefined OutOfBounds
  end.

(** The admission of the node's own item. *)
Definition offer (s : Searcher) (item : Z) (dist : Q) : outcome Searcher :=
  if Qltb dist (tau_ s) then
    s ← (if heap_full s then heap_pop s else Ok s);
    let s := with_heap (pq_push (HeapItem.mk item dist) (heap_ s)) s in
    if heap_full s then
      top ← heap_top s; Ok (with_tau (HeapItem.dist top) s)
    else Ok s
  else Ok s.

(** One of the four guarded recursive calls of [searchInNode]:
    [if (child != Node::Leaf && in_reach) searchInNode(nodes_[child])]. *)
Definition descend (searchIn : Searcher → Node.t → outcome Searcher)
    (child : Z) (in_reach : Searcher → bool) (s : Searcher)
  : outcome Searcher :=
  if bool_decide (child ≠ Node.Leaf) && in_reach s then
    nd ← vec_at (nodes_ (tree_ s)) child;
    searchIn s nd
  else Ok s.

(** [dist - tau_ <= node.threshold] and [dist + tau_ >= node.threshold] *)
Definition inner_in_reach (dist : Q) (node : Node.t) (s : Searcher) : bool :=
  Qleb (dist - tau_ s) (Node.threshold node).
Definition outer_in_reach (dist : Q) (node : Node.t) (s : Searcher) : bool :=
  Qleb (Node.threshold node) (dist + tau_ s).

Fixpoint searchInNode (fuel : nat) (s : Searcher) (node : Node.t)
  : outcome Searcher :=
  match fuel with
  | O => OutOfFuel
  | S fuel =>
    it ← vec_at (items_ (tree_ s)) (Node.item node);
    let dist := getDistance it.1 (target_ s) in
    s ← offer s (Node.item node) dist;
    let go_left := descend (searchInNode fuel) (Node.left node)
                     (inner_in_reach dist node) in
    let go_right := descend (searchInNode fuel) (Node.right node)
                      (outer_in_reach dist node) in
    if Qltb dist (Node.threshold node) then
      s ← go_left s; go_right s
    else
      s ← go_right s; go_left s
  end.

(** The loop of [search] that empties the heap into [results]; one unit
    of [fuel] per iteration. *)
Fixpoint drain (fuel : nat) (s : Searcher) (results : list Result.t)
  : outcome (list Result.t) :=
  if bool_decide (pq_size (heap_ s) = 0%nat) then Ok results
  else
    match fuel with
    | O => OutOfFuel
    | S fuel =>
      top ← heap_top s;
      let item := HeapItem.item top in
      it ← vec_at (items_ (tree_ s)) item;
      let result := Result.mk item it.2 (HeapItem.dist top) in
      s ← heap_pop s;
      drain fuel s (results ++ [result])
    end.

Definition search (s : Searcher) : outcome (list Result.t) :=
  r ← root (tree_ s);
  s ← searchInNode (length (nodes_ (tree_ s))) s r;
  results ← drain (pq_size (heap_ s)) s [];
  Ok (reverse results).

Definition getNearestNeighbors (t : VpTree) (target : T) (neighborsCount : Z)
  : outcome (list Result.t) :=
  search (Searcher_new t target neighborsCount).

(** [*result]: the item the result points at. *)
Definition deref (t : VpTree) (r : Result.t) : outcome T :=
  it ← vec_at (items_ t) (Result.item r); Ok it.1.

(** *** Successive calls

    The tree lives on between the calls of [getNearestNeighbors]; a
    searcher lives for one call and reaches the tree through its pointer
    [tree_].  The definitions below are the loop, [search] and
    [getNearestNeighbors] once more, together with the state they end in:
    the searcher after the call, and the tree its pointer leads to. *)

Fixpoint drain_state (fuel : nat) (s : Searcher) (results : list Result.t)
  : outcome (list Result.t * Searcher) :=
  if bool_decide (pq_size (heap_ s) = 0%nat) then Ok (results, s)
  else
    match fuel with
    | O => OutOfFuel
    | S fuel =>
      top ← heap_top s;
      let item := HeapItem.item top in
      it ← vec_at (items_ (tree_ s)) item;
      let result := Result.mk item it.2 (HeapItem.dist top) in
      s ← heap_pop s;
      drain_state fuel s (results ++ [result])
    end.

Definition search_state (s : Searcher) : outcome (list Result.t * Searcher) :=
  r ← root (tree_ s);
  s ← searchInNode (length (nodes_ (tree_ s))) s r;
  '(results, s) ← drain_state (pq_size (heap_ s)) s [];
  Ok (reverse results, s).

Definition getNearestNeighbors_state (t : VpTree) (target : T)
    (neighborsCount : Z) : outcome (list Result.t * VpTree) :=
  '(results, s) ← search_state (Searcher_new t target neighborsCount);
  Ok (results, tree_ s).

(** Two successive calls with the same target and count: the second call
    works on the tree as the first call leaves it. *)
Definition successive_queries (t : VpTree) (target : T) (neighborsCount : Z)
  : outcome (list Result.t * list Result.t) :=
  '(first, t1) ← getNearestNeighbors_state t target neighborsCount;
  '(second, _) ← getNearestNeighbors_state t1 target neighborsCount;
  Ok (first, second).

End VpTree.

Arguments VpTree T {_}.
Arguments Searcher T {_ _}.

(** ** The default metric *)

(** [std::sqrt] on [double]: an interface, with three guarantees of the
    correctly rounded square root: it maps zero to zero, its values are
    non-negative, and it is monotone. *)
Class Sqrt := {
  std_sqrt : Q → Q;
  std_sqrt_0 : std_sqrt 0 == 0;
  std_sqrt_nonneg x : (0 <= std_sqrt x)%Q;
  std_sqrt_mono x y : (x <= y)%Q → (std_sqrt x <= std_sqrt y)%Q
}.

Module vpt.
(** [vpt::sum(begin, end)] *)
Definition sum (range : list Q) : Q := fold_left Qplus range 0%Q.
End vpt.

(** [std::transform(first1, last1, first2, d_first, op)]: [op] applied to
    each element of the first range and to the element read at the same
    offset from [first2]; reading past the end of the second vector is
    undefined behaviour. *)
Fixpoint transform (op : Q → Q → Q) (v1 v2 : list Q) : outcome (list Q) :=
  match v1 with
  | [] => Ok []
  | x :: v1 =>
    match v2 with
    | [] => Undefined OutOfBounds
    | y :: v2 => r ← transform op v1 v2; Ok (op x y :: r)
    end
  end.

(** [EuclideanMetric<T>::operator()] for [T = std::vector<double>] *)
Definition EuclideanMetric `{!Sqrt} (v1 v2 : list Q) : outcome Q :=
  diffSquares ← transform (λ lhs rhs, (lhs - rhs) * (lhs - rhs))%Q v1 v2;
  Ok (std_sqrt (vpt.sum diffSquares)).

(** ** Equality of results *)

Section ResultEquality.
Context {T : Type} `{!UniformRng}.
(** [operator==] of [T] *)
Variable T_eq : T → T → bool.

(** [Result::operator==]: the items the two results point at, then the
    indices and the distances. *)
Definition Result_eq (t : VpTree T) (r other : Result.t) : outcome bool :=
  x ← deref t r;
  y ← deref t other;
  Ok (T_eq x y
      && bool_decide (Result.index r = Result.index other)
      && Qeq_bool (Result.dist r) (Result.dist other)).
End ResultEquality.

(** ** Reference implementations of the standard library's interfaces

    Simple executable implementations, used to run the model on concrete
    inputs. *)

Module Reference.

(** [std::nth_element] by a full insertion sort. *)
Fixpoint insert_by {A} (cmp : A → A → bool) (x : A) (l : list A) : list A :=
  match l with
  | [] => [x]
  | y :: l' => if cmp y x then y :: insert_by cmp x l' else x :: l
  end.

Definition sort_by {A} (cmp : A → A → bool) (l : list A) : list A :=
  foldr (insert_by cmp) [] l.

Definition sort_nth_element {A} (cmp : A → A → bool) (l : list A) (n : nat)
  : list A := sort_by cmp l.

(** A linear congruential generator; the draw is reduced into the range. *)
Definition lcg_next (g : Z) : Z := (g * 1103515245 + 12345) mod 2 ^ 31.

Definition lcg_uniform_int (g lo hi : Z) : Z * Z :=
  (lo + g mod (Z.max 1 (hi - lo + 1)), lcg_next g).

(** A priority queue as an unordered list: [top] and [pop] look for a
    largest element. *)
Fixpoint extract_max (l : list HeapItem.t)
  : option (HeapItem.t * list HeapItem.t) :=
  match l with
  | [] => None
  | x :: l' =>
    match extract_max l' with
    | None => Some (x, [])
    | Some (m, r) =>
      if Qleb (HeapItem.dist m) (HeapItem.dist x) then Some (x, l')
      else Some (m, x :: r)
    end
  end.

Definition list_top (l : list HeapItem.t) : option HeapItem.t :=
  fst <$> extract_max l.
Definition list_pop (l : list HeapItem.t) : option (list HeapItem.t) :=
  snd <$> extract_max l.

(** The metric on integers used in the examples. *)
Definition absdiff (x y : Z) : Q := inject_Z (Z.abs (x - y)).

(** A metric whose only distances are [0] and [DBL_MAX]. *)
Definition far_apart (x y : Z) : Q := if decide (x = y) then 0%Q else DBL_MAX.

End Reference.

(** A square root and a distance function for the examples. *)

Module ReferenceMetric.
(** A square root that is exact on the squares of integers: the integer
    square root of the integer part. *)
Definition isqrt (x : Q) : Q := inject_Z (Z.sqrt (Qfloor x)).
End ReferenceMetric.

Module ReferenceDistances.
(** A distance function that is no metric: neither symmetric nor
    non-negative. *)
Definition lopsided (x y : Z) : Q := inject_Z (x * x - 3 * y).
End ReferenceDistances.

(** ** Vocabulary of the specification *)

(** [v'] holds the elements of [v], moved only within positions [lo, hi). *)
Definition rearranged {A} (lo hi : Z) (v v' : list A) : Prop :=
  v' ≡ₚ v ∧ ∀ p : nat, ¬ (lo ≤ Z.of_nat p < hi) → v' !! p = v !! p.

(** What [makeTree] returns for the range [lo, hi) when [base] nodes exist
    already: the index of the node it creates first, or [Leaf]. *)
Definition child_index (base lo hi : Z) : Z :=
  if decide (lo < hi) then base else Node.Leaf.

(** The child link for the range [lo, hi) in a tree built from no nodes: the
    builder then numbers a node by the position of its vantage point. *)
Definition link (lo hi : Z) : Z := child_index lo lo hi.

(** The median position chosen for the range [lo, hi); a range of one item
    has no right part. *)
Definition split_at (lo hi : Z) : Z :=
  if decide (lo + 1 = hi) then hi else (hi + lo) ÷ 2.

Section Vocabulary.
Context {T : Type}.
Variable getDistance : T → T → Q.

(** The nodes at positions [lo, hi) form the subtree built for the item
    range [lo, hi): the node of a range sits at the range's first position,
    its children are the subtrees of [lo + 1, m) and [m, hi), and its
    threshold separates the items of the two parts. *)
Inductive covers (items : list (T * Z)) (nodes : list Node.t)
  : Z → Z → Prop :=
  | covers_leaf lo hi :
      hi ≤ lo → covers items nodes lo hi
  | covers_node lo hi nd vp :
      0 ≤ lo < hi →
      nodes !! Z.to_nat lo = Some nd →
      items !! Z.to_nat lo = Some vp →
      Node.item nd = lo →
      Node.left nd = link (lo + 1) (split_at lo hi) →
      Node.right nd = link (split_at lo hi) hi →
      (∀ p x, lo + 1 ≤ Z.of_nat p < split_at lo hi → items !! p = Some x →
              (getDistance vp.1 x.1 <= Node.threshold nd)%Q) →
      (∀ p x, split_at lo hi ≤ Z.of_nat p < hi → items !! p = Some x →
              (Node.threshold nd <= getDistance vp.1 x.1)%Q) →
      covers items nodes (lo + 1) (split_at lo hi) →
      covers items nodes (split_at lo hi) hi →
      covers items nodes lo hi.

(** [in_subtree nodes i nd]: the node [nd] is in the subtree whose root has
    index [i], following the [left] and [right] links. *)
Inductive in_subtree (nodes : list Node.t) : Z → Node.t → Prop :=
  | in_subtree_root i nd :
      vec_at nodes i = Ok nd → in_subtree nodes i nd
  | in_subtree_left i nd nd' :
      vec_at nodes i = Ok nd → in_subtree nodes (Node.left nd) nd' →
      in_subtree nodes i nd'
  | in_subtree_right i nd nd' :
      vec_at nodes i = Ok nd → in_subtree nodes (Node.right nd) nd' →
      in_subtree nodes i nd'.

(** The metric contract. *)
Definition metric_contract : Prop :=
  (∀ x y, (0 <= getDistance x y)%Q)
  ∧ (∀ x y, getDistance x y == getDistance y x)
  ∧ (∀ x y z, (getDistance x z <= getDistance x y + getDistance y z)%Q).

(** The distances met while building a tree over [input] and searching it
    for [target] are non-negative and below [DBL_MAX]. *)
Definition below_DBL_MAX (input : list T) (target : T) : Prop :=
  ∀ x y, x ∈ input → y ∈ target :: input →
         (0 <= getDistance x y)%Q ∧ (getDistance x y < DBL_MAX)%Q.

(** What a result stands for: the item it points at, the index it carries
    and its distance. *)
Definition resolves (items : list (T * Z)) (r : Result.t) (v : T * Z * Q)
  : Prop :=
  ∃ it, items !! Z.to_nat (Result.item r) = Some it
        ∧ 0 ≤ Result.item r
        ∧ v = (it.1, Result.index r, Result.dist r).

(** The brute-force reference: every input item with its position and its
    distance to the target, sorted by ascending distance. *)
Definition all_candidates (input : list T) (target : T) : list (T * Z * Q) :=
  imap (λ i x, (x, Z.of_nat i, getDistance x target)) input.

Definition bruteForce (input : list T) (target : T) : list (T * Z * Q) :=
  Reference.sort_by (λ a b, Qltb a.2 b.2) (all_candidates input target).

Definition ascending (l : list (T * Z * Q)) : Prop :=
  StronglySorted (λ a b, (a.2 <= b.2)%Q) l.

End Vocabulary.

(** ** Vocabulary of the proofs *)

Section ProofVocabulary.
Context {T : Type}.
Variable getDistance : T → T → Q.
Context `{!NthElement (T * Z), !UniformRng, !PriorityQueue}.
Implicit Types t : VpTree T.
Implicit Types s : Searcher T.
Implicit Types items : list (T * Z).

(** What one call of [makeTree] on a range of two items or more does
    before it recurses, and the threshold it leaves in its node. *)
Definition build_step t lower upper t' : Prop :=
  ∃ t1 t2 vp mth nd,
    selectRoot t lower upper = Ok t1
    ∧ partitionByDistance getDistance t1 lower ((upper + lower) ÷ 2) upper
      = Ok t2
    ∧ items_ t2 !! Z.to_nat lower = Some vp
    ∧ items_ t2 !! Z.to_nat ((upper + lower) ÷ 2) = Some mth
    ∧ nodes_ t' !! length (nodes_ t) = Some nd
    ∧ Node.threshold nd = getDistance vp.1 mth.1.

(** The searcher works for the same query: only [tau_] and [heap_] change. *)
Definition same_query s s' : Prop :=
  tree_ s' = tree_ s ∧ target_ s' = target_ s
  ∧ neighborsCount_ s' = neighborsCount_ s.

Definition hsize s : Z := Z.of_nat (pq_size (heap_ s)).

(** The heap entry of the item at position [p]. *)
Definition entry_at items (target : T) (p : Z) (e : HeapItem.t) : Prop :=
  HeapItem.item e = p ∧ 0 ≤ p
  ∧ ∃ it, items !! Z.to_nat p = Some it
          ∧ HeapItem.dist e = getDistance it.1 target.

Definition heap_ok s : Prop :=
  Forall (λ e, entry_at (items_ (tree_ s)) (target_ s) (HeapItem.item e) e)
         (pq_items (heap_ s)).

(** The result made from a heap entry. *)
Definition result_of items (e : HeapItem.t) (r : Result.t) : Prop :=
  Result.item r = HeapItem.item e ∧ Result.dist r = HeapItem.dist e
  ∧ ∃ it, items !! Z.to_nat (HeapItem.item e) = Some it
          ∧ Result.index r = it.2.

(** A result points at an item of the tree and carries the index stored
    with that item. *)
Definition carries_index items (r : Result.t) : Prop :=
  ∃ it, 0 ≤ Result.item r
        ∧ items !! Z.to_nat (Result.item r) = Some it
        ∧ Result.index r = it.2.

(** The heap size at which [heap_full] holds. *)
Definition capacity s : Z := size_t_of_int (neighborsCount_ s).

(** The two phases of a search: the heap is filling up and [tau_] still has
    its initial value, or the heap holds [capacity] entries. *)
Definition filling s : Prop := hsize s < capacity s ∧ tau_ s = DBL_MAX.
Definition filled s : Prop := hsize s = capacity s ∧ 1 ≤ capacity s.
Definition phase_ok s : Prop := filling s ∨ filled s.

(** From [s] to [s'] the search has gone through the subtree of the range
    [lo, hi): the heap has grown by the size of the range, up to its
    capacity, and when the whole range fits the heap has an entry for
    each position of the range. *)
Definition visited items lo hi s s' : Prop :=
  same_query s s' ∧ phase_ok s'
  ∧ hsize s' = Z.min (hsize s + Z.max 0 (hi - lo)) (capacity s)
  ∧ (hsize s + (hi - lo) ≤ capacity s →
     ∃ es, pq_items (heap_ s') ≡ₚ es ++ pq_items (heap_ s)
           ∧ Forall2 (entry_at items (target_ s)) (seqZ lo (hi - lo)) es).

(** All the distances the search computes are in the range of [double]. *)
Definition items_in_range items (target : T) : Prop :=
  ∀ it, it ∈ items →
    ((0 <= getDistance it.1 target)%Q ∧ (getDistance it.1 target < DBL_MAX)%Q)
    ∧ ∀ it', it' ∈ items →
        (0 <= getDistance it.1 it'.1)%Q ∧ (getDistance it.1 it'.1 < DBL_MAX)%Q.

(** The candidate an item of the tree stands for. *)
Definition view_of (target : T) (it : T * Z) : T * Z * Q :=
  (it.1, it.2, getDistance it.1 target).

(** The candidate a heap entry stands for. *)
Definition entry_view items (target : T) (e : HeapItem.t) (v : T * Z * Q)
  : Prop :=
  ∃ it, 0 ≤ HeapItem.item e
        ∧ items !! Z.to_nat (HeapItem.item e) = Some it
        ∧ HeapItem.dist e = getDistance it.1 target
        ∧ v = view_of target it.

(** The tree the constructor builds, when it builds one. *)
Definition built (input : list T) (seed : rng) : VpTree T :=
  match VpTree_new getDistance input seed with
  | Ok t => t
  | _ => mkVpTree [] [] seed
  end.

(** An executable check of [below_DBL_MAX]. *)
Definition below_DBL_MAXb (input : list T) (target : T) : bool :=
  forallb (λ x, forallb (λ y, Qleb 0 (getDistance x y)
                              && Qltb (getDistance x y) DBL_MAX)
                        (target :: input))
          input.

End ProofVocabulary.

(** ** Vocabulary of the search invariants *)

Section SearchVocabulary.
Context {T : Type}.
Variable getDistance : T → T → Q.
Context `{!UniformRng, !PriorityQueue}.
Implicit Types s : Searcher T.
Implicit Types items : list (T * Z).

(** The distances among the points [pts] are those of a metric. *)
Definition metric_among (pts : list T) : Prop :=
  ∀ x y z, x ∈ pts → y ∈ pts → z ∈ pts →
    (0 <= getDistance x y)%Q
    ∧ getDistance x y == getDistance y x
    ∧ (getDistance x z <= getDistance x y + getDistance y z)%Q.

(** The two triangle inequalities the pruning tests of [searchInNode] rely
    on, between two items of the tree and the target. *)
Definition triangle_ok items (target : T) : Prop :=
  ∀ a x, a ∈ items → x ∈ items →
    (getDistance a.1 target <= getDistance a.1 x.1 + getDistance x.1 target)%Q
    ∧ (getDistance a.1 x.1 <= getDistance a.1 target + getDistance x.1 target)%Q.

(** The heap entry [searchInNode] makes for the item [it] at position [p]. *)
Definition entry_for (target : T) (p : Z) (it : T * Z) : HeapItem.t :=
  HeapItem.mk p (getDistance it.1 target).

(** An entry is settled: it is in the heap, or it is at least [tau_] away. *)
Definition settled s (e : HeapItem.t) : Prop :=
  e ∈ pq_items (heap_ s) ∨ (tau_ s <= HeapItem.dist e)%Q.

(** [tau_] bounds the distances in the heap, which are below [DBL_MAX], and
    once the heap is full it is the distance of one of the entries. *)
Definition tau_ok s : Prop :=
  (tau_ s <= DBL_MAX)%Q
  ∧ Forall (λ e, (HeapItem.dist e <= tau_ s)%Q
                 ∧ (HeapItem.dist e < DBL_MAX)%Q) (pq_items (heap_ s))
  ∧ (hsize s = capacity s →
     ∃ e, e ∈ pq_items (heap_ s) ∧ (tau_ s <= HeapItem.dist e)%Q).

(** What every state of a search satisfies. *)
Definition search_inv s : Prop :=
  phase_ok s ∧ heap_ok getDistance s ∧ tau_ok s
  ∧ NoDup (HeapItem.item <$> pq_items (heap_ s)).

(** From [s] to [s'] the search has gone through positions of [lo, hi):
    [tau_] has not grown, the heap has not shrunk, the entries it held are
    settled, and the entries it has gained are of positions of the range. *)
Definition moved (lo hi : Z) s s' : Prop :=
  same_query s s' ∧ (tau_ s' <= tau_ s)%Q ∧ hsize s ≤ hsize s'
  ∧ (∀ e, e ∈ pq_items (heap_ s) → settled s' e)
  ∧ (∀ e, e ∈ pq_items (heap_ s') →
          e ∈ pq_items (heap_ s) ∨ lo ≤ HeapItem.item e < hi).

(** The items of the positions [lo, hi) are settled. *)
Definition explored items (target : T) (lo hi : Z) s : Prop :=
  ∀ (p : nat) it, lo ≤ Z.of_nat p < hi → items !! p = Some it →
    settled s (entry_for target (Z.of_nat p) it).

(** The heap has no entry of a position of [lo, hi). *)
Definition fresh (lo hi : Z) s : Prop :=
  ∀ e, e ∈ pq_items (heap_ s) → ¬ (lo ≤ HeapItem.item e < hi).


(** The outcome of searching the subtree of [lo, hi) from [s]. *)
Definition searched items (target : T) (lo hi : Z) s s' : Prop :=
  search_inv s' ∧ moved lo hi s s'
  ∧ (triangle_ok items target → explored items target lo hi s').

End SearchVocabulary.

Section QueryVocabulary.
Context {T : Type}.
Variable getDistance : T → T → Q.

(** A result stands for the item at the position it points at: it carries
    the index stored with that item and the item's distance to the
    target. *)
Definition result_at (items : list (T * Z)) (target : T) (r : Result.t)
  : Prop :=
  ∃ it, 0 ≤ Result.item r
        ∧ items !! Z.to_nat (Result.item r) = Some it
        ∧ Result.index r = it.2
        ∧ Result.dist r = getDistance it.1 target.

(** The heap entries of all the items, by position. *)
Definition all_entries (items : list (T * Z)) (target : T) : list HeapItem.t :=
  imap (λ p it, entry_for getDistance target (Z.of_nat p) it) items.

(** No two items are at the same distance from the target. *)
Definition no_ties (input : list T) (target : T) : Prop :=
  ∀ (i j : nat) x y,
    input !! i = Some x → input !! j = Some y →
    getDistance x target == getDistance y target → i = j.

(** An executable check of [no_ties]. *)
Definition no_tiesb (input : list T) (target : T) : bool :=
  forallb (λ ix : nat * T,
    forallb (λ jy : nat * T,
      implb (Qeq_bool (getDistance ix.2 target) (getDistance jy.2 target))
            (Nat.eqb ix.1 jy.1))
      (imap pair input))
    (imap pair input).

End QueryVocabulary.

(** * Proofs *)

(** ** Outcomes and vectors *)

Lemma bind_Ok {A B} (m : outcome A) (f : A → outcome B) b :
  m ≫= f = Ok b ↔ ∃ a, m = Ok a ∧ f a = Ok b.
Proof.
  destruct m as [a| |]; cbn.
  - split; [intros H; by exists a | by intros (a' & [= ->] & H)].
  - split; [done | by intros (a' & [=] & _)].
  - split; [done | by intros (a' & [=] & _)].
Qed.

Lemma vec_at_Ok {A} (v : list A) i x :
  vec_at v i = Ok x ↔ 0 ≤ i ∧ v !! Z.to_nat i = Some x.
Proof.
  unfold vec_at. destruct (decide (0 ≤ i)); [|split; [done|lia]].
  destruct (v !! Z.to_nat i) eqn:E; split; try done.
  - by intros [= ->].
  - by intros [_ [= ->]].
  - by intros [_ [=]].
Qed.

Lemma vec_at_lookup {A} (v : list A) (p : nat) x :
  v !! p = Some x → vec_at v (Z.of_nat p) = Ok x.
Proof. intros H. apply vec_at_Ok. rewrite Nat2Z.id. split; [lia|done]. Qed.

Lemma vec_at_in_range {A} (v : list A) i :
  0 ≤ i < Z.of_nat (length v) → ∃ x, vec_at v i = Ok x.
Proof.
  intros Hi. destruct (lookup_lt_is_Some_2 v (Z.to_nat i)) as [x Hx]; [lia|].
  exists x. apply vec_at_Ok. split; [lia|done].
Qed.

Lemma vec_set_in_range {A} (v : list A) i x :
  0 ≤ i < Z.of_nat (length v) → vec_set v i x = Ok (<[Z.to_nat i := x]> v).
Proof.
  intros Hi. unfold vec_set.
  destruct (vec_at_in_range v i Hi) as [y ->]. done.
Qed.

(** ** Rearrangements within a range *)

Section Rearranged.
Context {A : Type}.
Implicit Types v : list A.

Lemma rearranged_refl lo hi v : rearranged lo hi v v.
Proof. by split. Qed.

Lemma rearranged_trans lo hi v1 v2 v3 :
  rearranged lo hi v1 v2 → rearranged lo hi v2 v3 → rearranged lo hi v1 v3.
Proof.
  intros [Hp1 Ho1] [Hp2 Ho2]. split; [by etrans|].
  intros p Hp. by rewrite Ho2, Ho1.
Qed.

Lemma rearranged_weaken lo hi lo' hi' v v' :
  lo' ≤ lo → hi ≤ hi' → rearranged lo hi v v' → rearranged lo' hi' v v'.
Proof. intros ?? [Hp Ho]. split; [done|]. intros p Hp'. apply Ho. lia. Qed.

Lemma rearranged_length lo hi v v' :
  rearranged lo hi v v' → length v' = length v.
Proof. intros [Hp _]. by rewrite Hp. Qed.

Lemma rearranged_outside lo hi v v' (p : nat) :
  rearranged lo hi v v' → ¬ (lo ≤ Z.of_nat p < hi) → v' !! p = v !! p.
Proof. intros [_ Ho]. apply Ho. Qed.

Lemma slice_decompose v (a b : nat) :
  (a ≤ b)%nat → v = take a v ++ take (b - a) (drop a v) ++ drop b v.
Proof.
  intros Hab. rewrite <- (take_drop a v) at 1. f_equal.
  rewrite <- (take_drop (b - a) (drop a v)) at 1. f_equal.
  rewrite drop_drop. f_equal. lia.
Qed.

Lemma elem_of_slice v (a b : nat) x :
  x ∈ take (b - a) (drop a v) ↔ ∃ p : nat, (a ≤ p < b)%nat ∧ v !! p = Some x.
Proof.
  rewrite elem_of_take. split.
  - intros (i & Hi & Hlt). rewrite lookup_drop in Hi.
    exists (a + i)%nat. split; [lia|done].
  - intros (p & Hp & Hx). exists (p - a)%nat. rewrite lookup_drop.
    split; [|lia]. by replace (a + (p - a))%nat with p by lia.
Qed.

Lemma rearranged_slice v v' (a b : nat) :
  (a ≤ b)%nat → rearranged (Z.of_nat a) (Z.of_nat b) v v' →
  take (b - a) (drop a v') ≡ₚ take (b - a) (drop a v).
Proof.
  intros Hab [Hp Ho].
  assert (take a v' = take a v) as Ht.
  { apply list_eq. intros i. rewrite !lookup_take.
    destruct (decide (i < a)%nat); [|done]. apply Ho. lia. }
  assert (drop b v' = drop b v) as Hd.
  { apply list_eq. intros i. rewrite !lookup_drop. apply Ho. lia. }
  rewrite (slice_decompose v a b Hab) in Hp at 1.
  rewrite (slice_decompose v' a b Hab) in Hp at 1.
  rewrite Ht, Hd in Hp.
  apply (inj (app (take a v))) in Hp.
  by apply (inj (λ l, l ++ drop b v)) in Hp.
Qed.

(** An element found in the range after a rearrangement was in the range
    before it. *)
Lemma rearranged_inside lo hi v v' (p : nat) x :
  rearranged lo hi v v' → lo ≤ Z.of_nat p < hi → v' !! p = Some x →
  ∃ p' : nat, lo ≤ Z.of_nat p' < hi ∧ v !! p' = Some x.
Proof.
  intros Hr Hp Hx.
  assert (rearranged (Z.of_nat (Z.to_nat lo)) (Z.of_nat (Z.to_nat hi)) v v')
    as Hr'.
  { destruct Hr as [Hperm Ho]. split; [done|]. intros q Hq. apply Ho. lia. }
  apply rearranged_slice in Hr'; [|lia]. rename Hr' into Hs.
  assert (x ∈ take (Z.to_nat hi - Z.to_nat lo) (drop (Z.to_nat lo) v')) as Hin.
  { apply elem_of_slice. exists p. split; [lia|done]. }
  rewrite Hs in Hin. apply elem_of_slice in Hin as (p' & Hp' & Hx').
  exists p'. split; [lia|done].
Qed.

(** A bound on the elements of a range survives a rearrangement inside it. *)
Lemma rearranged_Forall_range (P : A → Prop) lo hi lo' hi' v v' :
  lo' ≤ lo → hi ≤ hi' →
  rearranged lo hi v v' →
  (∀ (p : nat) x, lo' ≤ Z.of_nat p < hi' → v !! p = Some x → P x) →
  (∀ (p : nat) x, lo' ≤ Z.of_nat p < hi' → v' !! p = Some x → P x).
Proof.
  intros Hlo Hhi Hr HP p x Hp Hx.
  destruct (rearranged_inside lo' hi' v v' p x) as (p' & Hp' & Hx');
    [by eapply rearranged_weaken|done..|].
  by eapply HP.
Qed.
End Rearranged.

(** ** Comparisons of distances *)

Lemma Qltb_lt x y : Qltb x y = true ↔ (x < y)%Q.
Proof.
  unfold Qltb. rewrite negb_true_iff, <- not_true_iff_false, Qle_bool_iff.
  split; [apply Qnot_le_lt | apply Qlt_not_le].
Qed.

Lemma Qltb_ge x y : Qltb x y = false ↔ (y <= x)%Q.
Proof. unfold Qltb. rewrite negb_false_iff. apply Qle_bool_iff. Qed.

Lemma Qleb_le x y : Qleb x y = true ↔ (x <= y)%Q.
Proof. apply Qle_bool_iff. Qed.

Lemma Qleb_gt x y : Qleb x y = false ↔ (y < x)%Q.
Proof.
  unfold Qleb. rewrite <- not_true_iff_false, Qle_bool_iff.
  split; [apply Qnot_le_lt | apply Qlt_not_le].
Qed.

Lemma DBL_MAX_pos : (0 < DBL_MAX)%Q.
Proof. reflexivity. Qed.

(** ** Ranges and links *)

Lemma split_at_bounds lo hi :
  0 ≤ lo < hi → lo < split_at lo hi ≤ hi.
Proof.
  intros H. unfold split_at. case_decide; [lia|].
  rewrite Z.quot_div_nonneg by lia.
  pose proof (Z.div_mod (hi + lo) 2 ltac:(lia)).
  pose proof (Z.mod_pos_bound (hi + lo) 2 ltac:(lia)). lia.
Qed.

Lemma split_at_single lo : split_at lo (lo + 1) = lo + 1.
Proof. unfold split_at. by rewrite decide_True. Qed.

Lemma split_at_median lo hi :
  0 ≤ lo → lo + 2 ≤ hi →
  split_at lo hi = (hi + lo) ÷ 2 ∧ lo + 1 ≤ (hi + lo) ÷ 2 < hi.
Proof.
  intros ??. unfold split_at. rewrite decide_False by lia.
  rewrite Z.quot_div_nonneg by lia.
  pose proof (Z.div_mod (hi + lo) 2 ltac:(lia)).
  pose proof (Z.mod_pos_bound (hi + lo) 2 ltac:(lia)). lia.
Qed.

Lemma child_index_empty base lo hi :
  hi ≤ lo → child_index base lo hi = Node.Leaf.
Proof. intros H. unfold child_index. by rewrite decide_False by lia. Qed.

Lemma child_index_nonempty base lo hi : lo < hi → child_index base lo hi = base.
Proof. intros H. unfold child_index. by rewrite decide_True. Qed.

Lemma link_empty lo hi : hi ≤ lo → link lo hi = Node.Leaf.
Proof. apply child_index_empty. Qed.

Lemma link_nonempty lo hi : lo < hi → link lo hi = lo.
Proof. apply child_index_nonempty. Qed.

(** ** The builder *)

Section Builder.
Context {T : Type}.
Variable getDistance : T → T → Q.
Context `{!NthElement (T * Z), !UniformRng}.
Implicit Types t : VpTree T.
Implicit Types input : list T.

#[local] Abbreviation covers := (covers getDistance).
#[local] Abbreviation dist_from vp x := (getDistance (vp : T * Z).1 (x : T * Z).1).

Lemma makeItems_from_lookup i input (p : nat) :
  makeItems_from i input !! p = (λ x, (x, i + Z.of_nat p)) <$> input !! p.
Proof.
  revert i p. induction input as [|x input IH]; intros i p; [done|].
  destruct p as [|p]; simpl.
  - do 2 f_equal. lia.
  - rewrite IH. destruct (input !! p); simpl; [|done]. do 2 f_equal. lia.
Qed.

Lemma makeItems_lookup input (p : nat) :
  makeItems input !! p = (λ x, (x, Z.of_nat p)) <$> input !! p.
Proof. unfold makeItems. by rewrite makeItems_from_lookup. Qed.

Lemma makeItems_imap input :
  makeItems input = imap (λ i x, (x, Z.of_nat i)) input.
Proof.
  apply list_eq. intros p. by rewrite makeItems_lookup, list_lookup_imap.
Qed.

Lemma length_makeItems input : length (makeItems input) = length input.
Proof. by rewrite makeItems_imap, length_imap. Qed.

Lemma selectRoot_spec t lower upper :
  0 ≤ lower < upper → upper ≤ Z.of_nat (length (items_ t)) →
  ∃ t', selectRoot t lower upper = Ok t'
        ∧ rearranged lower upper (items_ t) (items_ t')
        ∧ nodes_ t' = nodes_ t.
Proof.
  intros Hl Hu. unfold selectRoot.
  pose proof (uniform_int_range (rng_ t) lower (upper - 1)) as Hr.
  destruct (uniform_int (rng_ t) lower (upper - 1)) as [root g].
  simpl in Hr. specialize (Hr ltac:(lia)).
  destruct (vec_at_in_range (items_ t) lower) as [a Ha]; [lia|].
  destruct (vec_at_in_range (items_ t) root) as [b Hb]; [lia|].
  rewrite Ha, Hb. cbn.
  rewrite vec_set_in_range by lia. cbn.
  rewrite vec_set_in_range by (rewrite length_insert; lia). cbn.
  eexists. split; [done|]. simpl.
  apply vec_at_Ok in Ha as [_ Ha]. apply vec_at_Ok in Hb as [_ Hb].
  split; [split|done].
  - by apply Permutation_insert_swap.
  - intros p Hp. rewrite !list_lookup_insert_ne by lia. done.
Qed.

Lemma partitionByDistance_spec t lower pos upper :
  0 ≤ lower → lower + 1 ≤ pos < upper →
  upper ≤ Z.of_nat (length (items_ t)) →
  ∃ t' vp mth,
    partitionByDistance getDistance t lower pos upper = Ok t'
    ∧ rearranged (lower + 1) upper (items_ t) (items_ t')
    ∧ nodes_ t' = nodes_ t
    ∧ items_ t' !! Z.to_nat lower = Some vp
    ∧ items_ t' !! Z.to_nat pos = Some mth
    ∧ (∀ (p : nat) x, lower + 1 ≤ Z.of_nat p < pos →
         items_ t' !! p = Some x → (dist_from vp x <= dist_from vp mth)%Q)
    ∧ (∀ (p : nat) y, pos ≤ Z.of_nat p < upper →
         items_ t' !! p = Some y → (dist_from vp mth <= dist_from vp y)%Q).
Proof.
  intros Hl Hp Hu. unfold partitionByDistance.
  rewrite decide_True by lia.
  destruct (vec_at_in_range (items_ t) lower) as [vp Hvp]; [lia|].
  rewrite Hvp. cbn. apply vec_at_Ok in Hvp as [_ Hvp].
  set (first := Z.to_nat (lower + 1)). set (last := Z.to_nat upper).
  set (n := (Z.to_nat pos - first)%nat).
  set (range := take (last - first) (drop first (items_ t))).
  set (key := λ x : T * Z, getDistance vp.1 x.1).
  change (closer getDistance vp) with (λ a b, Qltb (key a) (key b)).
  set (range' := nth_element (λ a b, Qltb (key a) (key b)) range n).
  assert (length range = (last - first)%nat) as Hlen.
  { subst range. rewrite length_take, length_drop. lia. }
  assert (n < length range)%nat as Hn by (subst n first last; lia).
  pose proof (nth_element_perm key range n Hn) as Hperm. fold range' in Hperm.
  assert (length range' = (last - first)%nat) as Hlen'
    by (by rewrite Hperm).
  assert (length (take first (items_ t)) = first) as Hlt
    by (rewrite length_take; subst first; lia).
  assert (∀ p : nat, (first ≤ p < last)%nat →
            (take first (items_ t) ++ range' ++ drop last (items_ t)) !! p
            = range' !! (p - first)%nat) as Hin.
  { intros p Hp'. rewrite lookup_app_r by lia. rewrite Hlt.
    rewrite lookup_app_l by lia. done. }
  destruct (lookup_lt_is_Some_2 range' n) as [mth Hmth]; [lia|].
  assert (items_ t = take first (items_ t) ++ range ++ drop last (items_ t))
    as Hdec by (apply slice_decompose; subst first last; lia).
  eexists _, vp, mth. split; [done|]. simpl.
  split; [split|split; [done|split; [|split; [|split]]]].
  - trans (take first (items_ t) ++ range ++ drop last (items_ t));
      [by rewrite Hperm | by rewrite <- Hdec].
  - intros p Hp'.
    trans ((take first (items_ t) ++ range ++ drop last (items_ t)) !! p);
      [|by rewrite <- Hdec].
    destruct (decide (p < first)%nat).
    + by rewrite !lookup_app_l by lia.
    + rewrite !(lookup_app_r (take _ _)) by lia. rewrite Hlt.
      rewrite !lookup_app_r by (subst first last; lia).
      by rewrite Hlen, Hlen'.
  - rewrite lookup_app_l by (subst first; lia).
    rewrite lookup_take_lt by (subst first; lia). done.
  - rewrite Hin by (subst first last; lia). exact Hmth.
  - intros p x Hp' Hx. rewrite Hin in Hx by (subst first last; lia).
    apply (nth_element_before key range n (p - first)%nat x mth);
      [subst n first; lia|done..].
  - intros p y Hp' Hy. rewrite Hin in Hy by (subst first last; lia).
    apply (nth_element_after key range n (p - first)%nat y mth);
      [subst n first; lia|done..].
Qed.

Lemma update_node_middle t pre nd rest f :
  nodes_ t = pre ++ nd :: rest →
  update_node t (Z.of_nat (length pre)) f
  = Ok (with_nodes (pre ++ f nd :: rest) t).
Proof.
  intros Hn. unfold update_node.
  assert (nodes_ t !! length pre = Some nd) as Hnd
    by (rewrite Hn; by apply list_lookup_middle).
  rewrite (vec_at_lookup _ _ _ Hnd). cbn.
  rewrite vec_set_in_range
    by (rewrite Hn, length_app; simpl; lia).
  cbn. do 2 f_equal. rewrite Nat2Z.id, Hn.
  replace (length pre) with (length pre + 0)%nat at 1 by lia.
  by rewrite insert_app_r.
Qed.

Lemma covers_frame items nodes items' nodes' lo hi :
  covers items nodes lo hi →
  (∀ p : nat, lo ≤ Z.of_nat p < hi → items' !! p = items !! p) →
  (∀ p : nat, lo ≤ Z.of_nat p < hi → nodes' !! p = nodes !! p) →
  covers items' nodes' lo hi.
Proof.
  induction 1 as [lo hi Hle|lo hi nd vp Hlo Hnd Hvp Hitem Hleft Hright
                    Hin Hout _ IHl _ IHr]; intros Hi Hn.
  - by apply covers_leaf.
  - pose proof (split_at_bounds lo hi Hlo) as Hm.
    apply covers_node with nd vp; try done.
    + rewrite Hn by lia. done.
    + rewrite Hi by lia. done.
    + intros p x Hp Hx. rewrite Hi in Hx by lia. by eapply Hin.
    + intros p x Hp Hx. rewrite Hi in Hx by lia. by eapply Hout.
    + apply IHl; intros p Hp; [apply Hi | apply Hn]; lia.
    + apply IHr; intros p Hp; [apply Hi | apply Hn]; lia.
Qed.
End Builder.

(** ** The recursion of the builder *)

Section MakeTree.
Context {T : Type}.
Variable getDistance : T → T → Q.
Context `{!NthElement (T * Z), !UniformRng}.
Implicit Types t : VpTree T.
Implicit Types input : list T.

#[local] Abbreviation covers := (covers getDistance).
#[local] Abbreviation makeTree := (makeTree getDistance).
#[local] Abbreviation build_step := (build_step getDistance).

Lemma makeTree_unfold fuel t lower upper :
  makeTree (S fuel) t lower upper =
    if decide (upper ≤ lower) then Ok (Node.Leaf, t)
    else if decide (lower + 1 = upper) then Ok (makeNode t lower)
    else
      t ← selectRoot t lower upper;
      let median := (upper + lower) ÷ 2 in
      t ← partitionByDistance getDistance t lower median upper;
      let '(node, t) := makeNode t lower in
      vp ← vec_at (items_ t) lower;
      m ← vec_at (items_ t) median;
      t ← update_node t node (Node.with_threshold (getDistance vp.1 m.1));
      '(l, t) ← makeTree fuel t (lower + 1) median;
      t ← update_node t node (Node.with_left l);
      '(r, t) ← makeTree fuel t median upper;
      t ← update_node t node (Node.with_right r);
      Ok (node, t).
Proof. reflexivity. Qed.

Lemma makeTree_spec fuel : ∀ t lower upper,
  0 ≤ lower → upper ≤ Z.of_nat (length (items_ t)) →
  Z.max 0 (upper - lower) < Z.of_nat fuel →
  ∃ t', makeTree fuel t lower upper
        = Ok (child_index (Z.of_nat (length (nodes_ t))) lower upper, t')
        ∧ rearranged lower upper (items_ t) (items_ t')
        ∧ (∃ new, nodes_ t' = nodes_ t ++ new
                  ∧ Z.of_nat (length new) = Z.max 0 (upper - lower))
        ∧ (Z.of_nat (length (nodes_ t)) = lower →
           covers (items_ t') (nodes_ t') lower upper)
        ∧ (lower + 2 ≤ upper → build_step t lower upper t').
Proof.
  induction fuel as [|fuel IH]; intros t lower upper Hlo Hup Hfuel; [lia|].
  rewrite makeTree_unfold.
  destruct (decide (upper ≤ lower)) as [Hempty|Hne].
  { exists t. rewrite child_index_empty by done.
    split; [done|]. split; [apply rearranged_refl|].
    split; [exists []; rewrite app_nil_r; split; [done|simpl; lia]|].
    split; [intros _; by apply covers_leaf|lia]. }
  rewrite child_index_nonempty by lia.
  destruct (decide (lower + 1 = upper)) as [Hone|Htwo].
  { destruct (lookup_lt_is_Some_2 (items_ t) (Z.to_nat lower)) as [vp Hvp];
      [lia|].
    unfold makeNode. rewrite length_app. simpl.
    eexists. split; [do 2 f_equal; lia|]. simpl.
    split; [apply rearranged_refl|].
    split; [exists [Node.new lower]; split; [done|simpl; lia]|].
    split; [|lia]. intros Hnodes.
    assert (split_at lower upper = upper) as Hs
      by (subst upper; apply split_at_single).
    apply covers_node with (Node.new lower) vp; rewrite ?Hs; simpl; try done.
    - lia.
    - apply list_lookup_middle. lia.
    - by rewrite link_empty by lia.
    - by rewrite link_empty by lia.
    - intros; lia.
    - intros; lia.
    - apply covers_leaf; lia.
    - apply covers_leaf; lia. }
  destruct (split_at_median lower upper) as [Hs Hm]; [lia..|].
  set (median := (upper + lower) ÷ 2) in *.
  destruct (selectRoot_spec t lower upper) as (t1 & Hsel & Hr1 & Hn1);
    [lia..|].
  rewrite Hsel. cbn.
  destruct (partitionByDistance_spec getDistance t1 lower median upper)
    as (t2 & vp & mth & Hpart & Hr2 & Hn2 & Hvp & Hmth & Hbefore & Hafter);
    [lia..|by rewrite (rearranged_length _ _ _ _ Hr1)|].
  rewrite Hpart. cbn.
  assert (Z.of_nat (length (nodes_ t2 ++ [Node.new lower])) - 1
          = Z.of_nat (length (nodes_ t))) as ->
    by (rewrite Hn2, Hn1, length_app; simpl; lia).
  rewrite Hn2, Hn1.
  rewrite (proj2 (vec_at_Ok _ _ _) (conj Hlo Hvp)). cbn.
  assert (0 ≤ median) as Hm0 by lia.
  rewrite (proj2 (vec_at_Ok _ _ _) (conj Hm0 Hmth)). cbn.
  set (thr := getDistance vp.1 mth.1).
  rewrite (update_node_middle _ (nodes_ t) (Node.new lower) []) by done.
  cbn.
  set (nd4 := Node.with_threshold thr (Node.new lower)).
  assert (length (items_ t2) = length (items_ t)) as Hlen2
    by (rewrite (rearranged_length _ _ _ _ Hr2);
        apply (rearranged_length _ _ _ _ Hr1)).
  (* the left subtree *)
  set (t4 := with_nodes (nodes_ t ++ [nd4])
               (with_nodes (nodes_ t ++ [Node.new lower]) t2)).
  assert (Z.of_nat (length (nodes_ t4)) = Z.of_nat (length (nodes_ t)) + 1)
    as Hbase4 by (simpl; rewrite length_app; simpl; lia).
  destruct (IH t4 (lower + 1) median)
    as (t5 & HL & Hr5 & (newL & Hn5 & HlenL) & HcL & _);
    [lia|simpl; lia|lia|].
  set (l := child_index (Z.of_nat (length (nodes_ t4))) (lower + 1) median)
    in *.
  rewrite HL. cbn [mbind outcome_mbind outcome_bind]. simpl in Hr5, Hn5.
  rewrite <- app_assoc in Hn5. simpl in Hn5.
  rewrite (update_node_middle _ _ _ _ _ Hn5).
  cbn [mbind outcome_mbind outcome_bind].
  set (nd6 := Node.with_left l nd4).
  (* the right subtree *)
  set (t6 := with_nodes (nodes_ t ++ nd6 :: newL) t5).
  assert (Z.of_nat (length (nodes_ t6))
          = Z.of_nat (length (nodes_ t)) + (median - lower)) as Hbase6
    by (simpl; rewrite length_app; simpl; lia).
  destruct (IH t6 median upper)
    as (t7 & HR & Hr7 & (newR & Hn7 & HlenR) & HcR & _);
    [lia|simpl; rewrite (rearranged_length _ _ _ _ Hr5); simpl; lia|lia|].
  set (r := child_index (Z.of_nat (length (nodes_ t6))) median upper) in *.
  rewrite HR. cbn [mbind outcome_mbind outcome_bind]. simpl in Hr7, Hn7.
  rewrite <- app_assoc in Hn7. simpl in Hn7.
  rewrite (update_node_middle _ _ _ _ _ Hn7).
  cbn [mbind outcome_mbind outcome_bind].
  set (nd8 := Node.with_right r nd6).
  eexists. split; [done|]. simpl.
  assert (rearranged lower upper (items_ t) (items_ t7)) as Hr.
  { eapply rearranged_trans; [exact Hr1|].
    eapply rearranged_trans;
      [eapply rearranged_weaken; [| |exact Hr2]; lia|].
    eapply rearranged_trans;
      [eapply rearranged_weaken; [| |exact Hr5]; lia|].
    eapply rearranged_weaken; [| |exact Hr7]; lia. }
  assert (items_ t7 !! Z.to_nat lower = Some vp) as Hvp7.
  { rewrite (rearranged_outside _ _ _ _ _ Hr7) by lia.
    rewrite (rearranged_outside _ _ _ _ _ Hr5) by lia. done. }
  assert ((nodes_ t ++ nd8 :: newL ++ newR) !! length (nodes_ t) = Some nd8)
    as Hnd8 by (by apply list_lookup_middle).
  split; [done|].
  split; [exists (nd8 :: newL ++ newR); split;
          [done|simpl; rewrite length_app; lia]|].
  split.
  - intros Hnodes.
    apply covers_node with nd8 vp; rewrite ?Hs; try done.
    + lia.
    + by replace (Z.to_nat lower) with (length (nodes_ t)) by lia.
    + simpl. unfold l, link. f_equal. lia.
    + simpl. unfold r, link. f_equal. lia.
    + intros p x Hp Hx.
      rewrite (rearranged_outside _ _ _ _ _ Hr7) in Hx by lia.
      revert p x Hp Hx.
      eapply (rearranged_Forall_range
                (λ x, (getDistance vp.1 x.1 <= thr)%Q)); [| |exact Hr5|];
        [lia|lia|exact Hbefore].
    + eapply (rearranged_Forall_range
                (λ x, (thr <= getDistance vp.1 x.1)%Q)); [| |exact Hr7|];
        [lia|lia|].
      intros p x Hp Hx.
      rewrite (rearranged_outside _ _ _ _ _ Hr5) in Hx by lia.
      by eapply Hafter.
    + eapply covers_frame; [apply HcL; lia| |].
      * intros p Hp. apply (rearranged_outside _ _ _ _ _ Hr7). lia.
      * intros p Hp. rewrite Hn5.
        rewrite !lookup_app_r by lia.
        destruct (p - length (nodes_ t))%nat as [|q] eqn:Hq; [lia|]. simpl.
        apply lookup_app_l. lia.
    + eapply covers_frame; [apply HcR; lia|done|].
      intros p Hp. rewrite Hn7.
      rewrite !lookup_app_r by lia.
      destruct (p - length (nodes_ t))%nat as [|q] eqn:Hq; [lia|]. done.
  - intros _. exists t1, t2, vp, mth, nd8. done.
Qed.

(** One call of [makeTree] on a range of two items or more, step by step:
    the states it goes through, the two recursive calls it makes from the
    partitioned items, and the node it leaves. *)
Lemma makeTree_step fuel t lower upper :
  0 ≤ lower → lower + 2 ≤ upper →
  upper ≤ Z.of_nat (length (items_ t)) →
  upper - lower ≤ Z.of_nat fuel →
  ∃ t1 t2 vp mth t3 l t4 t5 r t6 t',
    selectRoot t lower upper = Ok t1
    ∧ partitionByDistance getDistance t1 lower ((upper + lower) ÷ 2) upper
      = Ok t2
    ∧ items_ t2 !! Z.to_nat lower = Some vp
    ∧ items_ t2 !! Z.to_nat ((upper + lower) ÷ 2) = Some mth
    ∧ (makeNode t2 lower).1 = Z.of_nat (length (nodes_ t))
    ∧ update_node (makeNode t2 lower).2 (Z.of_nat (length (nodes_ t)))
        (Node.with_threshold (getDistance vp.1 mth.1)) = Ok t3
    ∧ makeTree fuel t3 (lower + 1) ((upper + lower) ÷ 2) = Ok (l, t4)
    ∧ update_node t4 (Z.of_nat (length (nodes_ t))) (Node.with_left l)
      = Ok t5
    ∧ makeTree fuel t5 ((upper + lower) ÷ 2) upper = Ok (r, t6)
    ∧ update_node t6 (Z.of_nat (length (nodes_ t))) (Node.with_right r)
      = Ok t'
    ∧ makeTree (S fuel) t lower upper = Ok (Z.of_nat (length (nodes_ t)), t')
    ∧ rearranged (lower + 1) ((upper + lower) ÷ 2) (items_ t2) (items_ t4)
    ∧ rearranged ((upper + lower) ÷ 2) upper (items_ t4) (items_ t')
    ∧ nodes_ t' !! length (nodes_ t)
      = Some (Node.mk lower (getDistance vp.1 mth.1) l r).
Proof.
  intros Hlo Htwo Hup Hfuel.
  destruct (split_at_median lower upper) as [_ Hm]; [lia..|].
  set (median := (upper + lower) ÷ 2) in *.
  destruct (selectRoot_spec t lower upper) as (t1 & Hsel & Hr1 & Hn1);
    [lia..|].
  destruct (partitionByDistance_spec getDistance t1 lower median upper)
    as (t2 & vp & mth & Hpart & Hr2 & Hn2 & Hvp & Hmth & _);
    [lia..|by rewrite (rearranged_length _ _ _ _ Hr1)|].
  assert (length (items_ t2) = length (items_ t)) as Hlen2
    by (rewrite (rearranged_length _ _ _ _ Hr2);
        apply (rearranged_length _ _ _ _ Hr1)).
  set (thr := getDistance vp.1 mth.1).
  set (base := Z.of_nat (length (nodes_ t))).
  assert (makeNode t2 lower
          = (base, with_nodes (nodes_ t ++ [Node.new lower]) t2)) as Hnode.
  { unfold makeNode. rewrite Hn2, Hn1. f_equal.
    rewrite length_app. simpl. unfold base. lia. }
  (* the node, with its threshold *)
  set (nd4 := Node.with_threshold thr (Node.new lower)).
  set (t3 := with_nodes (nodes_ t ++ [nd4])
               (with_nodes (nodes_ t ++ [Node.new lower]) t2)).
  assert (update_node (with_nodes (nodes_ t ++ [Node.new lower]) t2) base
            (Node.with_threshold thr) = Ok t3) as Hup3
    by (by apply (update_node_middle _ (nodes_ t) (Node.new lower) [])).
  (* the left subtree *)
  destruct (makeTree_spec fuel t3 (lower + 1) median)
    as (t4 & HL & Hr4 & (newL & Hn4 & HlenL) & _);
    [lia|simpl; lia|lia|].
  set (l := child_index (Z.of_nat (length (nodes_ t3))) (lower + 1) median)
    in *.
  simpl in Hr4, Hn4. rewrite <- app_assoc in Hn4. simpl in Hn4.
  set (nd6 := Node.with_left l nd4).
  set (t5 := with_nodes (nodes_ t ++ nd6 :: newL) t4).
  pose proof (update_node_middle t4 _ _ _ (Node.with_left l) Hn4) as Hup5.
  fold base nd6 t5 in Hup5.
  (* the right subtree *)
  destruct (makeTree_spec fuel t5 median upper)
    as (t6 & HR & Hr6 & (newR & Hn6 & HlenR) & _);
    [lia|simpl; rewrite (rearranged_length _ _ _ _ Hr4); simpl; lia|lia|].
  set (r := child_index (Z.of_nat (length (nodes_ t5))) median upper) in *.
  simpl in Hr6, Hn6. rewrite <- app_assoc in Hn6. simpl in Hn6.
  set (nd8 := Node.with_right r nd6).
  set (t' := with_nodes (nodes_ t ++ nd8 :: newL ++ newR) t6).
  pose proof (update_node_middle t6 _ _ _ (Node.with_right r) Hn6) as Hup'.
  fold base nd8 t' in Hup'.
  exists t1, t2, vp, mth, t3, l, t4, t5, r, t6, t'.
  do 4 (split; [done|]).
  split; [by rewrite Hnode|].
  split; [by rewrite Hnode|].
  do 4 (split; [done|]).
  split; [|split; [done|split; [done|by apply list_lookup_middle]]].
  rewrite makeTree_unfold.
  rewrite decide_False by lia. rewrite decide_False by lia.
  rewrite Hsel. cbn [mbind outcome_mbind outcome_bind]. cbv zeta.
  fold median. rewrite Hpart. cbn [mbind outcome_mbind outcome_bind].
  rewrite Hnode. cbn [items_ with_nodes].
  rewrite (proj2 (vec_at_Ok _ _ _) (conj Hlo Hvp)).
  cbn [mbind outcome_mbind outcome_bind].
  rewrite (proj2 (vec_at_Ok _ _ _) (conj (ltac:(lia) : 0 ≤ median) Hmth)).
  cbn [mbind outcome_mbind outcome_bind]. fold thr.
  rewrite Hup3. cbn [mbind outcome_mbind outcome_bind].
  rewrite HL. cbn [mbind outcome_mbind outcome_bind].
  rewrite Hup5. cbn [mbind outcome_mbind outcome_bind].
  rewrite HR. cbn [mbind outcome_mbind outcome_bind].
  rewrite Hup'. done.
Qed.

Lemma makeTree_leaf fuel t lower upper :
  upper ≤ lower → makeTree (S fuel) t lower upper = Ok (Node.Leaf, t).
Proof. intros Hle. rewrite makeTree_unfold. by rewrite decide_True. Qed.
End MakeTree.

(** ** The shape of a built tree *)

Section Shape.
Context {T : Type}.
Variable getDistance : T → T → Q.
Implicit Types items : list (T * Z).
Implicit Types nodes : list Node.t.

#[local] Abbreviation covers := (covers getDistance).

Lemma in_subtree_Leaf nodes nd : ¬ in_subtree nodes Node.Leaf nd.
Proof.
  intros Hin. inversion Hin as [i nd0 Hat|i nd0 nd1 Hat|i nd0 nd1 Hat];
    by apply vec_at_Ok in Hat as [? _].
Qed.

(** Every node of the subtree of a range holds a position of the range. *)
Lemma covers_in_subtree items nodes lo hi nd :
  covers items nodes lo hi → in_subtree nodes (link lo hi) nd →
  lo ≤ Node.item nd < hi.
Proof.
  induction 1 as [lo hi Hle|lo hi nd0 vp Hlo Hnd Hvp Hitem Hleft Hright
                    Hin Hout _ IHl _ IHr].
  - rewrite link_empty by done. intros []%in_subtree_Leaf.
  - pose proof (split_at_bounds lo hi Hlo) as Hm.
    rewrite link_nonempty by lia.
    assert (vec_at nodes lo = Ok nd0) as Hat by (apply vec_at_Ok; split; [lia|done]).
    inversion 1 as [i nd1 Hat'|i nd1 nd2 Hat' Hsub|i nd1 nd2 Hat' Hsub];
      subst; rewrite Hat in Hat'; injection Hat' as <-.
    + lia.
    + rewrite Hleft in Hsub. specialize (IHl Hsub). lia.
    + rewrite Hright in Hsub. specialize (IHr Hsub). lia.
Qed.

(** Every node at a position of the range is in the subtree of the range. *)
Lemma covers_reaches items nodes lo hi (p : nat) nd :
  covers items nodes lo hi → lo ≤ Z.of_nat p < hi → nodes !! p = Some nd →
  in_subtree nodes (link lo hi) nd.
Proof.
  induction 1 as [lo hi Hle|lo hi nd0 vp Hlo Hnd Hvp Hitem Hleft Hright
                    Hin Hout _ IHl _ IHr]; intros Hp Hp'; [lia|].
  pose proof (split_at_bounds lo hi Hlo) as Hm.
  rewrite link_nonempty by lia.
  assert (vec_at nodes lo = Ok nd0) as Hat by (apply vec_at_Ok; split; [lia|done]).
  destruct (decide (Z.of_nat p = lo)) as [<-|Hne].
  - rewrite Nat2Z.id in Hnd. rewrite Hnd in Hp'. injection Hp' as <-.
    by apply in_subtree_root.
  - destruct (decide (Z.of_nat p < split_at lo hi)).
    + eapply in_subtree_left; [exact Hat|]. rewrite Hleft. apply IHl; [lia|done].
    + eapply in_subtree_right; [exact Hat|]. rewrite Hright. apply IHr; [lia|done].
Qed.

(** The node at each position of a range is the root of the subtree of a
    range that starts there. *)
Lemma covers_descend items nodes lo hi p :
  covers items nodes lo hi → lo ≤ p < hi →
  ∃ hi', p < hi' ≤ hi ∧ covers items nodes p hi'.
Proof.
  induction 1 as [lo hi Hle|lo hi nd0 vp Hlo Hnd Hvp Hitem Hleft Hright
                    Hin Hout HcL IHl HcR IHr]; intros Hp; [lia|].
  pose proof (split_at_bounds lo hi Hlo) as Hm.
  destruct (decide (p = lo)) as [->|Hne].
  - exists hi. split; [lia|]. by eapply covers_node.
  - destruct (decide (p < split_at lo hi)).
    + destruct IHl as (hi' & ? & ?); [lia|]. exists hi'. split; [lia|done].
    + destruct IHr as (hi' & ? & ?); [lia|]. exists hi'. split; [lia|done].
Qed.

Lemma covers_node_item items nodes lo hi (p : nat) :
  covers items nodes lo hi → lo ≤ Z.of_nat p < hi →
  ∃ nd, nodes !! p = Some nd ∧ Node.item nd = Z.of_nat p.
Proof.
  intros Hc Hp.
  destruct (covers_descend _ _ _ _ _ Hc Hp) as (hi' & Hhi' & Hc').
  inversion Hc' as [|? ? nd vp Hlo Hnd Hvp Hitem]; subst; [lia|].
  exists nd. rewrite Nat2Z.id in Hnd. done.
Qed.

Lemma covers_items_of_nodes items nodes (n : nat) :
  covers items nodes 0 (Z.of_nat n) → length nodes = n →
  Node.item <$> nodes = seqZ 0 (Z.of_nat n).
Proof.
  intros Hc Hlen. apply list_eq. intros p. rewrite list_lookup_fmap.
  destruct (decide (p < n)%nat) as [Hp|Hp].
  - destruct (covers_node_item _ _ _ _ p Hc) as (nd & -> & Hitem); [lia|].
    simpl. rewrite lookup_seqZ_lt by lia. f_equal. lia.
  - rewrite lookup_seqZ_ge by lia.
    rewrite (lookup_ge_None_2 nodes p) by lia. done.
Qed.
End Shape.

(** ** The constructor *)

Section Constructor.
Context {T : Type}.
Variable getDistance : T → T → Q.
Context `{!NthElement (T * Z), !UniformRng}.
Implicit Types t : VpTree T.
Implicit Types input : list T.

#[local] Abbreviation VpTree_new := (VpTree_new getDistance).

(** The constructor always returns a tree: over a rearrangement of the
    indexed input, with one node per item, node [p] for position [p]. *)
Lemma VpTree_new_spec input seed :
  ∃ t, VpTree_new input seed = Ok t
       ∧ items_ t ≡ₚ makeItems input
       ∧ length (nodes_ t) = length input
       ∧ covers getDistance (items_ t) (nodes_ t) 0 (Z.of_nat (length input)).
Proof.
  unfold VpTree_new. cbv zeta. cbn [items_].
  destruct (makeTree_spec getDistance (S (length (makeItems input)))
              (mkVpTree (makeItems input) [] seed)
              0 (Z.of_nat (length (makeItems input))))
    as (t & Hmk & [Hperm _] & (new & Hn & Hlen) & Hc & _);
    [simpl; lia..|].
  specialize (Hc eq_refl).
  rewrite Hmk. cbn. cbn [items_ nodes_ app] in Hperm, Hn.
  rewrite length_makeItems in Hlen, Hc.
  exists t. split; [done|]. split; [done|]. split; [|done].
  rewrite Hn. lia.
Qed.

Lemma built_item_origin input seed t (p : nat) it :
  VpTree_new input seed = Ok t → items_ t !! p = Some it →
  0 ≤ it.2 ∧ input !! Z.to_nat it.2 = Some it.1.
Proof.
  intros Hnew Hit.
  destruct (VpTree_new_spec input seed) as (t' & Hnew' & Hperm & _).
  rewrite Hnew in Hnew'. injection Hnew' as <-.
  assert (it ∈ makeItems input) as Hin
    by (rewrite <- Hperm; by eapply list_elem_of_lookup_2).
  apply list_elem_of_lookup in Hin as (i & Hi).
  rewrite makeItems_lookup in Hi.
  destruct (input !! i) as [x|] eqn:Hx; [|done].
  injection Hi as <-. simpl. rewrite Nat2Z.id. split; [lia|done].
Qed.
End Constructor.
(** ** The searcher's heap *)

Section Heap.
Context {T : Type} `{!UniformRng, !PriorityQueue}.
Implicit Types s : Searcher T.
Implicit Types h : pq.

Lemma same_query_refl s : same_query s s.
Proof. done. Qed.

Lemma same_query_trans s1 s2 s3 :
  same_query s1 s2 → same_query s2 s3 → same_query s1 s3.
Proof. intros (? & ? & ?) (? & ? & ?). repeat split; congruence. Qed.

Lemma pq_top_nonempty h :
  pq_items h ≠ [] → ∃ x, pq_top h = Some x.
Proof.
  intros Hne. destruct (pq_top h) as [x|] eqn:E; [by exists x|].
  by apply pq_top_None in E.
Qed.

Lemma pq_pop_nonempty h :
  pq_items h ≠ [] →
  ∃ x h', pq_top h = Some x ∧ pq_pop h = Some h'
          ∧ pq_items h ≡ₚ x :: pq_items h'.
Proof.
  intros Hne. destruct (pq_top_nonempty h Hne) as [x Hx].
  destruct (pq_pop h) as [h'|] eqn:E; [|by apply pq_pop_None in E].
  exists x, h'. split; [done|]. split; [done|]. by apply pq_top_pop.
Qed.

Lemma pq_size_push x h : pq_size (pq_push x h) = S (pq_size h).
Proof. by rewrite !pq_size_items, pq_items_push. Qed.

Lemma pq_size_0 h : pq_size h = 0%nat ↔ pq_items h = [].
Proof. rewrite pq_size_items. apply length_zero_iff_nil. Qed.

Lemma heap_pop_Ok s s' :
  heap_pop s = Ok s' →
  ∃ x, pq_top (heap_ s) = Some x
       ∧ pq_items (heap_ s) ≡ₚ x :: pq_items (heap_ s')
       ∧ same_query s s' ∧ tau_ s' = tau_ s.
Proof.
  unfold heap_pop. destruct (pq_pop (heap_ s)) as [h'|] eqn:E; [|done].
  intros [= <-]. simpl.
  assert (pq_items (heap_ s) ≠ []) as Hne.
  { intros Hnil. apply pq_pop_None in Hnil. congruence. }
  destruct (pq_top_nonempty _ Hne) as [x Hx]. exists x.
  split; [done|]. split; [by apply pq_top_pop|done].
Qed.

Lemma heap_pop_nonempty s :
  pq_items (heap_ s) ≠ [] →
  ∃ x h', heap_pop s = Ok (with_heap h' s)
          ∧ pq_top (heap_ s) = Some x
          ∧ pq_items (heap_ s) ≡ₚ x :: pq_items h'.
Proof.
  intros Hne. destruct (pq_pop_nonempty _ Hne) as (x & h' & Hx & Hpop & Hp).
  exists x, h'. unfold heap_pop. by rewrite Hpop.
Qed.

Lemma heap_pop_empty s :
  pq_items (heap_ s) = [] → heap_pop s = Undefined PopEmptyHeap.
Proof.
  intros Hnil. unfold heap_pop. apply pq_pop_None in Hnil. by rewrite Hnil.
Qed.
End Heap.

(** ** What the heap holds *)

Section SearchSound.
Context {T : Type}.
Variable getDistance : T → T → Q.
Context `{!UniformRng, !PriorityQueue}.
Implicit Types s : Searcher T.
Implicit Types items : list (T * Z).

#[local] Abbreviation searchInNode := (searchInNode getDistance).
#[local] Abbreviation entry_at := (entry_at getDistance).
#[local] Abbreviation heap_ok := (heap_ok getDistance).

Lemma heap_ok_same s s' :
  same_query s s' → pq_items (heap_ s') ⊆ pq_items (heap_ s) →
  heap_ok s → heap_ok s'.
Proof.
  intros (Ht & Hq & _) Hsub. unfold heap_ok. rewrite Ht, Hq.
  rewrite !Forall_forall. intros Hok e He. apply Hok, Hsub, He.
Qed.

Lemma offer_sound s item dist s' :
  offer s item dist = Ok s' → heap_ok s →
  entry_at (items_ (tree_ s)) (target_ s) item (HeapItem.mk item dist) →
  heap_ok s' ∧ same_query s s'.
Proof.
  unfold offer. intros Hadm Hok He.
  destruct (Qltb dist (tau_ s)); [|by injection Hadm as <-].
  apply bind_Ok in Hadm as (s1 & Hpop & Hadm).
  assert (heap_ok s1 ∧ same_query s s1) as [Hok1 Hsame1].
  { destruct (heap_full s); [|by injection Hpop as <-].
    apply heap_pop_Ok in Hpop as (x & _ & Hperm & Hsame & _).
    split; [|done]. eapply heap_ok_same; [done| |done].
    intros e Hin. rewrite Hperm. by right. }
  set (s2 := with_heap _ s1) in Hadm.
  assert (heap_ok s2 ∧ same_query s s2) as [Hok2 Hsame2].
  { split; [|exact Hsame1]. unfold heap_ok. simpl.
    rewrite pq_items_push. constructor; [|exact Hok1].
    destruct Hsame1 as (-> & -> & _). exact He. }
  destruct (heap_full s2); [|by injection Hadm as <-].
  apply bind_Ok in Hadm as (top & _ & [= <-]). done.
Qed.

Lemma descend_sound (searchIn : Searcher T → Node.t → outcome (Searcher T))
    child in_reach s s' :
  (∀ s nd s', searchIn s nd = Ok s' → heap_ok s →
              heap_ok s' ∧ same_query s s') →
  descend searchIn child in_reach s = Ok s' → heap_ok s →
  heap_ok s' ∧ same_query s s'.
Proof.
  intros Hrec. unfold descend.
  destruct (_ && _); [|by intros [= <-]].
  intros (nd & _ & Hs)%bind_Ok. by eapply Hrec.
Qed.

(** Whatever the search visits, the heap only ever holds entries of items
    of the tree. *)
Lemma searchInNode_sound fuel : ∀ s nd s',
  searchInNode fuel s nd = Ok s' → heap_ok s →
  heap_ok s' ∧ same_query s s'.
Proof.
  induction fuel as [|fuel IH]; intros s nd s'; [done|].
  simpl. intros (it & Hit & Hrun)%bind_Ok Hok.
  apply bind_Ok in Hrun as (s1 & Hadm & Hrun).
  apply vec_at_Ok in Hit as [Hnn Hit].
  destruct (offer_sound _ _ _ _ Hadm Hok) as [Hok1 Hsame1].
  { split; [done|]. split; [done|]. by exists it. }
  destruct (Qltb _ _);
    apply bind_Ok in Hrun as (s2 & Hrun1 & Hrun2);
    destruct (descend_sound _ _ _ _ _ IH Hrun1 Hok1) as [Hok2 Hsame2];
    destruct (descend_sound _ _ _ _ _ IH Hrun2 Hok2) as [Hok3 Hsame3];
    (split; [done|]);
    eauto using same_query_trans.
Qed.

(** Emptying the heap gives its entries from the farthest to the nearest. *)
Lemma drain_spec fuel : ∀ s acc,
  heap_ok s → (pq_size (heap_ s) ≤ fuel)%nat →
  ∃ hs rs,
    drain fuel s acc = Ok (acc ++ rs)
    ∧ hs ≡ₚ pq_items (heap_ s)
    ∧ StronglySorted (λ a b, (HeapItem.dist b <= HeapItem.dist a)%Q) hs
    ∧ Forall2 (result_of (items_ (tree_ s))) hs rs.
Proof.
  induction fuel as [|fuel IH]; intros s acc Hok Hfuel.
  - exists [], []. simpl.
    rewrite bool_decide_eq_true_2 by lia.
    assert (pq_items (heap_ s) = []) as -> by (apply pq_size_0; lia).
    rewrite app_nil_r. repeat split; constructor.
  - simpl. case_bool_decide as Hsz.
    { exists [], []. apply pq_size_0 in Hsz. rewrite Hsz, app_nil_r.
      repeat split; constructor. }
    assert (pq_items (heap_ s) ≠ []) as Hne by (by rewrite <- pq_size_0).
    destruct (heap_pop_nonempty s Hne) as (x & h' & Hpop & Htop & Hperm).
    unfold heap_top. rewrite Htop. cbn.
    assert (entry_at (items_ (tree_ s)) (target_ s) (HeapItem.item x) x)
      as (_ & Hnn & it & Hit & Hd).
    { unfold heap_ok in Hok. rewrite Forall_forall in Hok. apply Hok.
      rewrite Hperm. left. }
    rewrite (proj2 (vec_at_Ok _ _ _) (conj Hnn Hit)). cbn.
    rewrite Hpop. cbn.
    destruct (IH (with_heap h' s)
                (acc ++ [Result.mk (HeapItem.item x) it.2 (HeapItem.dist x)]))
      as (hs & rs & Hdr & Hperm' & Hsorted & Hres).
    { eapply heap_ok_same; [| |exact Hok]; [done|]. simpl.
      intros e Hin. rewrite Hperm. by right. }
    { simpl. rewrite pq_size_items in Hfuel |- *.
      rewrite Hperm in Hfuel. simpl in Hfuel. lia. }
    simpl in Hperm', Hres.
    exists (x :: hs), (Result.mk (HeapItem.item x) it.2 (HeapItem.dist x) :: rs).
    split; [by rewrite Hdr, <- app_assoc|].
    split; [by rewrite Hperm, Hperm'|].
    split.
    + constructor; [done|]. rewrite Hperm'.
      pose proof (pq_top_max _ _ Htop) as Hmax.
      rewrite Hperm in Hmax. by apply Forall_cons in Hmax as [_ Hmax].
    + constructor; [|done]. split; [done|]. split; [done|]. by exists it.
Qed.
End SearchSound.

(** ** The search never runs out of fuel *)

Lemma bind_fuel {A B} (m : outcome A) (f : A → outcome B) :
  m ≠ OutOfFuel → (∀ a, m = Ok a → f a ≠ OutOfFuel) → m ≫= f ≠ OutOfFuel.
Proof. destruct m as [a| |]; cbn; [|done..]. intros _ Hf. by apply Hf. Qed.

Lemma vec_at_fuel {A} (v : list A) i : vec_at v i ≠ OutOfFuel.
Proof. unfold vec_at. case_decide; [|done]. by destruct (v !! Z.to_nat i). Qed.

Section SearchFuel.
Context {T : Type}.
Variable getDistance : T → T → Q.
Context `{!UniformRng, !PriorityQueue}.
Implicit Types s : Searcher T.
Implicit Types items : list (T * Z).
Implicit Types nodes : list Node.t.

#[local] Abbreviation searchInNode := (searchInNode getDistance).
#[local] Abbreviation covers := (covers getDistance).

Lemma offer_same_query s item dist s' :
  offer s item dist = Ok s' → same_query s s'.
Proof.
  unfold offer. destruct (Qltb dist (tau_ s)); [|by intros [= <-]].
  intros (s1 & Hpop & Hrest)%bind_Ok.
  assert (same_query s s1) as Hsame1.
  { destruct (heap_full s); [|by injection Hpop as <-].
    by apply heap_pop_Ok in Hpop as (x & _ & _ & Hsame & _). }
  set (s2 := with_heap _ s1) in Hrest.
  destruct (heap_full s2); [|by injection Hrest as <-].
  by apply bind_Ok in Hrest as (top & _ & [= <-]).
Qed.

Lemma descend_same_query
    (searchIn : Searcher T → Node.t → outcome (Searcher T))
    child in_reach s s' :
  (∀ s nd s', searchIn s nd = Ok s' → same_query s s') →
  descend searchIn child in_reach s = Ok s' → same_query s s'.
Proof.
  intros Hrec. unfold descend.
  destruct (_ && _); [|by intros [= <-]].
  intros (nd & _ & Hs)%bind_Ok. by eapply Hrec.
Qed.

(** The search changes neither the tree nor the query. *)
Lemma searchInNode_same_query fuel : ∀ s nd s',
  searchInNode fuel s nd = Ok s' → same_query s s'.
Proof.
  induction fuel as [|fuel IH]; intros s nd s'; [done|].
  simpl. intros (it & _ & Hrun)%bind_Ok.
  apply bind_Ok in Hrun as (s1 & Hoffer%offer_same_query & Hrun).
  destruct (Qltb _ _);
    apply bind_Ok in Hrun as (s2 & Hrun1 & Hrun2);
    pose proof (descend_same_query _ _ _ _ _ IH Hrun1);
    pose proof (descend_same_query _ _ _ _ _ IH Hrun2);
    eauto using same_query_trans.
Qed.

Lemma heap_pop_fuel s : heap_pop s ≠ OutOfFuel.
Proof. unfold heap_pop. by destruct (pq_pop (heap_ s)). Qed.

Lemma heap_top_fuel s : heap_top s ≠ OutOfFuel.
Proof. unfold heap_top. by destruct (pq_top (heap_ s)). Qed.

Lemma offer_fuel s item dist : offer s item dist ≠ OutOfFuel.
Proof.
  unfold offer. destruct (Qltb dist (tau_ s)); [|done].
  apply bind_fuel; [destruct (heap_full s); [apply heap_pop_fuel|done]|].
  intros s1 _. destruct (heap_full _); [|done].
  apply bind_fuel; [apply heap_top_fuel|done].
Qed.

Lemma descend_fuel (searchIn : Searcher T → Node.t → outcome (Searcher T))
    child in_reach s :
  (∀ nd, child ≠ Node.Leaf → vec_at (nodes_ (tree_ s)) child = Ok nd →
         searchIn s nd ≠ OutOfFuel) →
  descend searchIn child in_reach s ≠ OutOfFuel.
Proof.
  intros Hrec. unfold descend. case_bool_decide as Hchild; [|done].
  destruct (in_reach s); [|done]. simpl.
  apply bind_fuel; [apply vec_at_fuel|]. intros nd Hnd. by apply Hrec.
Qed.

(** On a built tree, fuel for the size of a subtree is enough to search
    it, whatever the distances and the count. *)
Lemma searchInNode_fuel items nodes lo hi :
  covers items nodes lo hi → lo < hi →
  ∀ fuel s nd,
    hi - lo ≤ Z.of_nat fuel →
    items_ (tree_ s) = items → nodes_ (tree_ s) = nodes →
    nodes !! Z.to_nat lo = Some nd →
    searchInNode fuel s nd ≠ OutOfFuel.
Proof.
  induction 1 as [lo hi Hle|lo hi nd0 vp Hlo Hnd Hvp Hitem Hleft Hright
                    Hin Hout HcL IHl HcR IHr];
    intros Hlt fuel s nd Hfuel Hitems Hnodes Hnd'; [lia|].
  rewrite Hnd in Hnd'. injection Hnd' as <-.
  pose proof (split_at_bounds lo hi Hlo) as Hm.
  set (m := split_at lo hi) in *.
  destruct fuel as [|fuel]; [lia|]. simpl.
  apply bind_fuel; [apply vec_at_fuel|]. intros it _.
  apply bind_fuel; [apply offer_fuel|]. intros s1 Hs1%offer_same_query.
  assert (∀ s0 in_reach, same_query s s0 →
            descend (searchInNode fuel) (Node.left nd0) in_reach s0
            ≠ OutOfFuel) as Hgo_left.
  { intros s0 in_reach (Htree & _). apply descend_fuel.
    rewrite Hleft, Htree, Hnodes. intros nd Hne [_ Hat]%vec_at_Ok.
    destruct (decide (lo + 1 < m)) as [Hlm|Hlm];
      [|by rewrite link_empty in Hne by lia].
    rewrite link_nonempty in Hat by done.
    apply IHl; [done|lia|congruence..|done]. }
  assert (∀ s0 in_reach, same_query s s0 →
            descend (searchInNode fuel) (Node.right nd0) in_reach s0
            ≠ OutOfFuel) as Hgo_right.
  { intros s0 in_reach (Htree & _). apply descend_fuel.
    rewrite Hright, Htree, Hnodes. intros nd Hne [_ Hat]%vec_at_Ok.
    destruct (decide (m < hi)) as [Hmh|Hmh];
      [|by rewrite link_empty in Hne by lia].
    rewrite link_nonempty in Hat by done.
    apply IHr; [done|lia|congruence..|done]. }
  destruct (Qltb _ _).
  - apply bind_fuel; [by apply Hgo_left|]. intros s2 Hs2.
    apply Hgo_right. eapply same_query_trans; [exact Hs1|].
    eapply descend_same_query; [apply searchInNode_same_query|exact Hs2].
  - apply bind_fuel; [by apply Hgo_right|]. intros s2 Hs2.
    apply Hgo_left. eapply same_query_trans; [exact Hs1|].
    eapply descend_same_query; [apply searchInNode_same_query|exact Hs2].
Qed.

(** One unit of fuel for each entry of the heap is enough to empty it. *)
Lemma drain_fuel fuel : ∀ s acc,
  (pq_size (heap_ s) ≤ fuel)%nat → drain fuel s acc ≠ OutOfFuel.
Proof.
  induction fuel as [|fuel IH]; intros s acc Hfuel; simpl.
  - by rewrite bool_decide_eq_true_2 by lia.
  - case_bool_decide; [done|].
    apply bind_fuel; [apply heap_top_fuel|]. intros top _.
    apply bind_fuel; [apply vec_at_fuel|]. intros it _.
    apply bind_fuel; [apply heap_pop_fuel|]. intros s' Hpop.
    apply IH. apply heap_pop_Ok in Hpop as (x & _ & Hperm & _).
    rewrite pq_size_items in Hfuel |- *. rewrite Hperm in Hfuel.
    simpl in Hfuel. lia.
Qed.
End SearchFuel.

(** ** The two phases of a search *)

Section SearchTotal.
Context {T : Type}.
Variable getDistance : T → T → Q.
Context `{!UniformRng, !PriorityQueue}.
Implicit Types s : Searcher T.
Implicit Types items : list (T * Z).
Implicit Types nodes : list Node.t.

#[local] Abbreviation searchInNode := (searchInNode getDistance).
#[local] Abbreviation entry_at := (entry_at getDistance).
#[local] Abbreviation covers := (covers getDistance).
#[local] Abbreviation visited := (visited getDistance).
#[local] Abbreviation items_in_range := (items_in_range getDistance).

Lemma capacity_same s s' : same_query s s' → capacity s' = capacity s.
Proof. intros (_ & _ & Hk). unfold capacity. by rewrite Hk. Qed.

Lemma hsize_nonneg s : 0 ≤ hsize s.
Proof. unfold hsize. lia. Qed.

Lemma heap_full_true s : hsize s = capacity s → heap_full s = true.
Proof. intros Hs. by apply bool_decide_eq_true_2. Qed.

Lemma heap_full_false s : hsize s ≠ capacity s → heap_full s = false.
Proof. intros Hs. by apply bool_decide_eq_false_2. Qed.

Lemma hsize_push e s :
  hsize (with_heap (pq_push e (heap_ s)) s) = hsize s + 1.
Proof. unfold hsize. simpl. rewrite pq_size_push. lia. Qed.

Lemma heap_top_push e s :
  ∃ top, heap_top (with_heap (pq_push e (heap_ s)) s) = Ok top.
Proof.
  unfold heap_top. simpl.
  destruct (pq_top_nonempty (pq_push e (heap_ s))) as [top ->]; [|by eexists].
  intros Hnil. pose proof (pq_items_push e (heap_ s)) as Hp.
  rewrite Hnil in Hp. by apply Permutation_nil_cons in Hp.
Qed.

Lemma offer_total s item dist :
  phase_ok s → (dist < DBL_MAX)%Q →
  ∃ s', offer s item dist = Ok s' ∧ same_query s s' ∧ phase_ok s'
        ∧ hsize s' = Z.min (hsize s + 1) (capacity s)
        ∧ (hsize s + 1 ≤ capacity s →
           pq_items (heap_ s') ≡ₚ HeapItem.mk item dist :: pq_items (heap_ s)).
Proof.
  intros Hphase Hdist. unfold offer.
  pose proof (hsize_nonneg s) as Hnn.
  destruct Hphase as [[Hlt Htau]|[Heq Hcap]].
  - rewrite Htau, (proj2 (Qltb_lt _ _) Hdist).
    rewrite heap_full_false by lia. cbn.
    set (e := HeapItem.mk item dist).
    set (s2 := with_heap (pq_push e (heap_ s)) s).
    assert (hsize s2 = hsize s + 1) as Hs2 by apply hsize_push.
    assert (pq_items (heap_ s2) ≡ₚ e :: pq_items (heap_ s)) as Hp
      by apply pq_items_push.
    destruct (decide (hsize s + 1 = capacity s)) as [Hfull|Hnot].
    + rewrite heap_full_true by (unfold capacity in *; simpl; lia).
      destruct (heap_top_push e s) as [top Htop]. fold s2 in Htop.
      rewrite Htop. cbn.
      eexists. split; [done|]. split; [done|].
      split; [right; split; [exact (eq_trans Hs2 Hfull)
                            |change (1 ≤ capacity s); lia]|].
      split; [|done]. change (hsize s2 = Z.min (hsize s + 1) (capacity s)). lia.
    + rewrite heap_full_false by (unfold capacity in *; simpl; lia).
      eexists. split; [done|]. split; [done|].
      split; [left; split; [|exact Htau];
              change (hsize s2 < capacity s); lia|].
      split; [lia|done].
  - destruct (Qltb dist (tau_ s)).
    + rewrite heap_full_true by done.
      assert (pq_items (heap_ s) ≠ []) as Hne.
      { rewrite <- pq_size_0. unfold hsize in Heq. lia. }
      destruct (heap_pop_nonempty s Hne) as (x & h' & -> & _ & Hperm). cbn.
      set (e := HeapItem.mk item dist).
      set (s2 := with_heap (pq_push e h') (with_heap h' s)).
      assert (hsize s2 = hsize s) as Hs2.
      { unfold hsize, s2. simpl. rewrite pq_size_push.
        rewrite (pq_size_items (heap_ s)), Hperm, pq_size_items. done. }
      rewrite heap_full_true by (unfold capacity in *; simpl; lia).
      destruct (heap_top_push e (with_heap h' s)) as [top Htop].
      change (heap_top s2 = Ok top) in Htop. rewrite Htop. cbn.
      eexists. split; [done|]. split; [done|].
      split; [right; split; [exact (eq_trans Hs2 Heq)|done]|].
      split; [|lia]. change (hsize s2 = Z.min (hsize s + 1) (capacity s)). lia.
    + exists s. split; [done|]. split; [done|].
      split; [by right|]. split; lia.
Qed.

Lemma visited_empty items lo hi s : hi ≤ lo → phase_ok s → visited items lo hi s s.
Proof.
  intros Hle Hph. pose proof (hsize_nonneg s).
  assert (hsize s ≤ capacity s) by (destruct Hph as [[]|[]]; lia).
  split; [done|]. split; [done|]. split; [lia|].
  intros _. exists []. split; [done|]. rewrite seqZ_nil by lia. constructor.
Qed.

Lemma descend_total searchIn items nodes child a b in_reach s :
  items_ (tree_ s) = items → nodes_ (tree_ s) = nodes →
  child = link a b → 0 ≤ a → phase_ok s →
  (a < b → filling s → in_reach s = true) →
  (a < b → ∃ nd, nodes !! Z.to_nat a = Some nd
                 ∧ ∃ s', searchIn s nd = Ok s' ∧ visited items a b s s') →
  ∃ s', descend searchIn child in_reach s = Ok s' ∧ visited items a b s s'.
Proof.
  intros Hitems Hnodes -> Ha Hph Hreach Hrec. unfold descend.
  destruct (decide (a < b)) as [Hab|Hab].
  - rewrite link_nonempty by done.
    rewrite bool_decide_eq_true_2 by (unfold Node.Leaf; lia).
    destruct (Hrec Hab) as (nd & Hnd & s' & Hs' & Hv).
    destruct (in_reach s) eqn:Hin; simpl.
    + rewrite Hnodes, (proj2 (vec_at_Ok _ _ _) (conj Ha Hnd)). cbn.
      by exists s'.
    + exists s. split; [done|].
      destruct Hph as [Hf|[Heq Hcap]]; [by specialize (Hreach Hab Hf)|].
      split; [done|]. split; [by right|]. split; lia.
  - rewrite link_empty by lia. rewrite bool_decide_eq_false_2 by (by intros []).
    simpl. exists s. split; [done|]. apply visited_empty; [lia|done].
Qed.

Lemma seqZ_split lo m hi :
  lo < m ≤ hi →
  seqZ lo (hi - lo) = lo :: seqZ (lo + 1) (m - (lo + 1)) ++ seqZ m (hi - m).
Proof.
  intros Hm. rewrite seqZ_cons by lia. f_equal.
  replace (Z.pred (hi - lo)) with ((m - (lo + 1)) + (hi - m)) by lia.
  rewrite seqZ_app by lia. do 2 f_equal; lia.
Qed.

(** A node's own admission followed by its two subtrees, in either order,
    amounts to a visit of the node's range. *)
Lemma visited_node items lo hi s s1 sa sb e :
  0 ≤ lo < hi →
  same_query s s1 → phase_ok s1 →
  hsize s1 = Z.min (hsize s + 1) (capacity s) →
  (hsize s + 1 ≤ capacity s →
   pq_items (heap_ s1) ≡ₚ e :: pq_items (heap_ s)) →
  entry_at items (target_ s) lo e →
  (visited items (lo + 1) (split_at lo hi) s1 sa
   ∧ visited items (split_at lo hi) hi sa sb)
  ∨ (visited items (split_at lo hi) hi s1 sa
     ∧ visited items (lo + 1) (split_at lo hi) sa sb) →
  visited items lo hi s sb.
Proof.
  intros Hlo Hq1 Hph1 Hsz1 Hp1 He Hsub.
  pose proof (split_at_bounds lo hi Hlo) as Hm.
  set (m := split_at lo hi) in *.
  pose proof (hsize_nonneg s) as Hnn.
  pose proof (capacity_same _ _ Hq1) as Hc1.
  assert (target_ s1 = target_ s) as Ht1 by apply Hq1.
  destruct Hsub as [[Hva Hvb]|[Hva Hvb]];
    destruct Hva as (Hqa & Hpha & Hsza & Hpa);
    destruct Hvb as (Hqb & Hphb & Hszb & Hpb);
    pose proof (capacity_same _ _ Hqa) as Hca;
    assert (target_ sa = target_ s) as Hta
      by (destruct Hqa as (_ & -> & _); exact Ht1).
  - split; [eauto using same_query_trans|].
    split; [done|]. split; [lia|].
    intros Hfit. specialize (Hp1 ltac:(lia)).
    destruct Hpa as (esa & Hpa & Hfa); [lia|].
    destruct Hpb as (esb & Hpb & Hfb); [lia|].
    rewrite Ht1 in Hfa. rewrite Hta in Hfb.
    exists (e :: esa ++ esb). split.
    + rewrite Hpb, Hpa, Hp1. simpl.
      rewrite <- !Permutation_middle. f_equiv.
      rewrite !app_assoc. f_equiv. apply Permutation_app_comm.
    + rewrite (seqZ_split lo m hi) by lia.
      constructor; [done|]. by apply Forall2_app.
  - split; [eauto using same_query_trans|].
    split; [done|]. split; [lia|].
    intros Hfit. specialize (Hp1 ltac:(lia)).
    destruct Hpa as (esa & Hpa & Hfa); [lia|].
    destruct Hpb as (esb & Hpb & Hfb); [lia|].
    rewrite Ht1 in Hfa. rewrite Hta in Hfb.
    exists (e :: esb ++ esa). split.
    + rewrite Hpb, Hpa, Hp1. simpl.
      rewrite <- !Permutation_middle. f_equiv.
      by rewrite !app_assoc.
    + rewrite (seqZ_split lo m hi) by lia.
      constructor; [done|]. by apply Forall2_app.
Qed.

(** On a built tree the search of a subtree never goes wrong, and it
    visits the whole subtree as long as the heap is filling up. *)
Lemma searchInNode_total items nodes target lo hi :
  covers items nodes lo hi → lo < hi →
  items_in_range items target →
  ∀ fuel s nd,
    hi - lo ≤ Z.of_nat fuel →
    items_ (tree_ s) = items → nodes_ (tree_ s) = nodes →
    target_ s = target →
    nodes !! Z.to_nat lo = Some nd →
    phase_ok s →
    ∃ s', searchInNode fuel s nd = Ok s' ∧ visited items lo hi s s'.
Proof.
  induction 1 as [lo hi Hle|lo hi nd0 vp Hlo Hnd Hvp Hitem Hleft Hright
                    Hin Hout HcL IHl HcR IHr];
    intros Hlt Hrange fuel s nd Hfuel Hitems Hnodes Htarget Hnd' Hph; [lia|].
  rewrite Hnd in Hnd'. injection Hnd' as <-.
  pose proof (split_at_bounds lo hi Hlo) as Hm.
  set (m := split_at lo hi) in *.
  destruct fuel as [|fuel]; [lia|]. simpl.
  rewrite Hitems, Hitem.
  rewrite (proj2 (vec_at_Ok _ _ _) (conj (proj1 Hlo) Hvp)). cbn.
  rewrite Htarget.
  set (dist := getDistance vp.1 target).
  assert (vp ∈ items) as Hvpin by (by eapply list_elem_of_lookup_2).
  destruct (Hrange vp Hvpin) as [[Hd0 Hd1] Hvpr].
  destruct (offer_total s lo dist Hph Hd1)
    as (s1 & -> & Hq1 & Hph1 & Hsz1 & Hp1). cbn.
  assert (entry_at items (target_ s) lo (HeapItem.mk lo dist)) as He.
  { split; [done|]. split; [lia|]. exists vp. by rewrite Htarget. }
  (* the two guarded recursive calls, from any state of the same query *)
  assert (∀ s0, same_query s s0 → phase_ok s0 →
            ∃ s', descend (searchInNode fuel) (Node.left nd0)
                    (inner_in_reach dist nd0) s0 = Ok s'
                  ∧ visited items (lo + 1) m s0 s') as Hgo_left.
  { intros s0 (Htree & Htgt & _) Hph0.
    apply descend_total with nodes; try done; try congruence; [lia| |].
    - intros Hne [_ Htau]. unfold inner_in_reach. rewrite Htau.
      apply Qleb_le.
      destruct (lookup_lt_is_Some_2 items (Z.to_nat (lo + 1))) as [x Hx].
      { inversion HcL as [|? ? ? ? ? ? Hx']; subst; [lia|].
        by eapply lookup_lt_Some. }
      pose proof (Hin (Z.to_nat (lo + 1)) x ltac:(lia) Hx) as Hthr.
      destruct (Hvpr x) as [Hx0 _]; [by eapply list_elem_of_lookup_2|].
      unfold dist. revert Hd1 Hthr Hx0. generalize DBL_MAX. intros. lra.
    - intros Hne.
      assert (∃ nd, nodes !! Z.to_nat (lo + 1) = Some nd) as [nd Hnd1].
      { inversion HcL as [|? ? nd]; subst; [lia|]. by exists nd. }
      exists nd. split; [done|].
      apply IHl; try done; try congruence. lia. }
  assert (∀ s0, same_query s s0 → phase_ok s0 →
            ∃ s', descend (searchInNode fuel) (Node.right nd0)
                    (outer_in_reach dist nd0) s0 = Ok s'
                  ∧ visited items m hi s0 s') as Hgo_right.
  { intros s0 (Htree & Htgt & _) Hph0.
    apply descend_total with nodes; try done; try congruence; [lia| |].
    - intros Hne [_ Htau]. unfold outer_in_reach. rewrite Htau.
      apply Qleb_le.
      destruct (lookup_lt_is_Some_2 items (Z.to_nat m)) as [x Hx].
      { inversion HcR as [|? ? ? ? ? ? Hx']; subst; [lia|].
        by eapply lookup_lt_Some. }
      pose proof (Hout (Z.to_nat m) x ltac:(lia) Hx) as Hthr.
      destruct (Hvpr x) as [_ Hx1]; [by eapply list_elem_of_lookup_2|].
      unfold dist. revert Hd0 Hthr Hx1. generalize DBL_MAX. intros. lra.
    - intros Hne.
      assert (∃ nd, nodes !! Z.to_nat m = Some nd) as [nd Hnd1].
      { inversion HcR as [|? ? nd]; subst; [lia|]. by exists nd. }
      exists nd. split; [done|].
      apply IHr; try done; try congruence. lia. }
  destruct (Qltb dist (Node.threshold nd0)).
  - destruct (Hgo_left s1 Hq1 Hph1) as (sa & -> & Hva). cbn.
    destruct (Hgo_right sa) as (sb & -> & Hvb);
      [eapply same_query_trans; [exact Hq1|apply Hva]|apply Hva|].
    exists sb. split; [done|].
    eapply visited_node; eauto.
  - destruct (Hgo_right s1 Hq1 Hph1) as (sa & -> & Hva). cbn.
    destruct (Hgo_left sa) as (sb & -> & Hvb);
      [eapply same_query_trans; [exact Hq1|apply Hva]|apply Hva|].
    exists sb. split; [done|].
    eapply visited_node; eauto.
Qed.
End SearchTotal.

(** ** Lists related elementwise *)

Lemma StronglySorted_reverse {A} (R : relation A) l :
  StronglySorted R l → StronglySorted (flip R) (reverse l).
Proof.
  induction 1 as [|x l Hs IH Hx]; [constructor|].
  rewrite reverse_cons. apply StronglySorted_app_2; [|done|repeat constructor].
  intros y z Hy ->%list_elem_of_singleton. unfold flip.
  rewrite Forall_forall in Hx. apply Hx. by apply elem_of_reverse.
Qed.

Lemma StronglySorted_Forall2 {A B} (R : relation A) (R' : relation B)
    (P : A → B → Prop) l k :
  (∀ x x' y y', P x y → P x' y' → R x x' → R' y y') →
  Forall2 P l k → StronglySorted R l → StronglySorted R' k.
Proof.
  intros HP HF. induction HF as [|x y l k Hxy HF IH]; [constructor|].
  intros [Hs Hx]%StronglySorted_inv. constructor; [by apply IH|].
  apply Forall_forall. intros y' Hy'. rewrite Forall_forall in Hx.
  apply list_elem_of_lookup in Hy' as [i Hi].
  destruct (Forall2_lookup_r _ _ _ _ _ HF Hi) as (x' & Hx' & Hxy').
  eapply HP; [done..|]. apply Hx. by eapply list_elem_of_lookup_2.
Qed.

Lemma Forall_Forall2_exists {A B} (P : A → B → Prop) l :
  Forall (λ x, ∃ y, P x y) l → ∃ k, Forall2 P l k.
Proof.
  induction 1 as [|x l [y Hy] _ [k IH]]; [by exists []|].
  exists (y :: k). by constructor.
Qed.

Lemma Forall2_functional {A B} (P : A → B → Prop) l k k' :
  (∀ x y y', P x y → P x y' → y = y') →
  Forall2 P l k → Forall2 P l k' → k = k'.
Proof.
  intros HP HF. revert k'.
  induction HF as [|x y l k Hxy HF IH]; intros k' HF'.
  - by apply Forall2_nil_inv_l in HF'.
  - apply Forall2_cons_inv_l in HF' as (y' & k'' & Hxy' & HF' & ->).
    f_equal; [by eapply HP|by apply IH].
Qed.

Lemma Forall2_compose {A B C} (P : A → B → Prop) (Q : A → C → Prop)
    (R : B → C → Prop) l k m :
  (∀ x y z, P x y → Q x z → R y z) →
  Forall2 P l k → Forall2 Q l m → Forall2 R k m.
Proof.
  intros HR HF. revert m.
  induction HF as [|x y l k Hxy HF IH]; intros m HF'.
  - apply Forall2_nil_inv_l in HF' as ->. constructor.
  - apply Forall2_cons_inv_l in HF' as (z & m' & Hxz & HF' & ->).
    constructor; [by eapply HR|by apply IH].
Qed.

(** ** Queries on a built tree *)

Section Query.
Context {T : Type}.
Variable getDistance : T → T → Q.
Context `{!NthElement (T * Z), !UniformRng, !PriorityQueue}.
Implicit Types t : VpTree T.
Implicit Types input : list T.
Implicit Types items : list (T * Z).

#[local] Abbreviation VpTree_new := (VpTree_new getDistance).
#[local] Abbreviation getNearestNeighbors := (getNearestNeighbors getDistance).
#[local] Abbreviation searchInNode := (searchInNode getDistance).
#[local] Abbreviation entry_at := (entry_at getDistance).
#[local] Abbreviation view_of := (view_of getDistance).
#[local] Abbreviation entry_view := (entry_view getDistance).

Lemma all_candidates_items input target :
  all_candidates getDistance input target = view_of target <$> makeItems input.
Proof.
  apply list_eq. intros i. unfold all_candidates.
  rewrite list_lookup_fmap, makeItems_lookup, list_lookup_imap.
  by destruct (input !! i).
Qed.

Lemma heap_ok_new t target k : heap_ok getDistance (Searcher_new t target k).
Proof. unfold heap_ok. simpl. rewrite pq_items_new. constructor. Qed.

Lemma hsize_new t target k : hsize (Searcher_new t target k) = 0.
Proof. unfold hsize. simpl. by rewrite pq_size_items, pq_items_new. Qed.

Lemma entry_at_view items target p e :
  entry_at items target p e →
  ∃ it, items !! Z.to_nat p = Some it ∧ entry_view items target e (view_of target it).
Proof.
  intros (<- & Hp & it & Hit & Hd). exists it. split; [done|]. by exists it.
Qed.

Lemma entry_view_functional items target e v v' :
  entry_view items target e v → entry_view items target e v' → v = v'.
Proof.
  intros (it & _ & Hit & _ & ->) (it' & _ & Hit' & _ & ->). congruence.
Qed.

Lemma result_of_resolves items target e r v :
  result_of items e r → entry_view items target e v → resolves items r v.
Proof.
  intros (Hitem & Hdist & it & Hit & Hindex) (it' & Hp & Hit' & Hd & ->).
  rewrite Hit in Hit'. injection Hit' as <-.
  exists it. rewrite Hitem. split; [done|]. split; [done|].
  unfold view_of. by rewrite Hindex, Hdist, Hd.
Qed.

(** What a finished search returns, from the heap it ends with. *)
Lemma search_results (s s' : Searcher T) nd :
  root (tree_ s) = Ok nd →
  searchInNode (length (nodes_ (tree_ s))) s nd = Ok s' →
  heap_ok getDistance s →
  ∃ hs rs vs,
    search getDistance s = Ok rs
    ∧ hs ≡ₚ pq_items (heap_ s')
    ∧ Forall2 (entry_view (items_ (tree_ s)) (target_ s)) hs vs
    ∧ Forall2 (resolves (items_ (tree_ s))) rs (reverse vs)
    ∧ ascending (reverse vs)
    ∧ length rs = pq_size (heap_ s')
    ∧ Forall (carries_index (items_ (tree_ s))) rs.
Proof.
  intros Hroot Hrun Hok. unfold search. rewrite Hroot. cbn. rewrite Hrun. cbn.
  destruct (searchInNode_sound _ _ _ _ _ Hrun Hok) as [Hok' (Htree & Htgt & _)].
  destruct (drain_spec getDistance (pq_size (heap_ s')) s' [] Hok' ltac:(lia))
    as (hs & rs0 & -> & Hperm & Hsorted & Hres). cbn.
  rewrite Htree in Hres.
  destruct (Forall_Forall2_exists
              (entry_view (items_ (tree_ s)) (target_ s)) hs) as [vs Hvs].
  { rewrite Hperm. unfold heap_ok in Hok'.
    rewrite Htree, Htgt in Hok'.
    eapply Forall_impl; [exact Hok'|]. simpl.
    intros e (it & Hit & He)%entry_at_view. by eexists. }
  exists hs, (reverse rs0), vs. split; [done|]. split; [done|]. split; [done|].
  split; [|split; [|split]].
  - apply Forall2_reverse.
    eapply Forall2_compose; [|exact Hres|exact Hvs].
    intros e r v. apply result_of_resolves.
  - apply (StronglySorted_reverse (λ a b : T * Z * Q, (b.2 <= a.2)%Q)).
    eapply StronglySorted_Forall2; [|exact Hvs|exact Hsorted].
    intros e e' v v' (it & _ & _ & Hd & ->) (it' & _ & _ & Hd' & ->) Hle.
    simpl. by rewrite <- Hd, <- Hd'.
  - rewrite length_reverse, <- (Forall2_length _ _ _ Hres), Hperm.
    by rewrite pq_size_items.
  - apply Forall_reverse.
    eapply Forall2_Forall_r; [exact Hres|].
    assert (Forall (λ e, 0 ≤ HeapItem.item e) hs) as Hpos.
    { eapply Forall2_Forall_l; [exact Hvs|]. apply Forall_true.
      intros v e (it & Hp & _). exact Hp. }
    eapply Forall_impl; [exact Hpos|].
    simpl. intros e He r (Hitem & _ & it & Hit & Hindex).
    exists it. by rewrite Hitem.
Qed.
End Query.

(** ** Sorted lists with the same elements *)

Lemma filter_none {A} (P : A → Prop) `{!∀ x, Decision (P x)} (l : list A) :
  Forall (λ x, ¬ P x) l → filter P l = [].
Proof.
  induction 1 as [|x l Hx _ IH]; [done|].
  by rewrite filter_cons, decide_False.
Qed.

Section SortedPermutation.
Context {A : Type} (key : A → Q).

#[local] Abbreviation le_key := (λ a b : A, (key a <= key b)%Q).
#[local] Abbreviation upto v := (λ x : A, Is_true (Qle_bool (key x) v)).

Lemma upto_iff v x : upto v x ↔ (key x <= v)%Q.
Proof. rewrite Is_true_true. apply Qle_bool_iff. Qed.

(** In a sorted list the elements with a key up to [v] form a prefix. *)
Lemma sorted_rank l (i : nat) x v :
  StronglySorted le_key l → l !! i = Some x →
  (key x <= v)%Q ↔ (i < length (filter (upto v) l))%nat.
Proof.
  intros Hs. revert i. induction Hs as [|a l Hs IH Ha]; intros i Hi; [done|].
  rewrite filter_cons. destruct (decide (upto v a)) as [Hav|Hav].
  - destruct i as [|i]; simpl in *.
    + injection Hi as <-. apply upto_iff in Hav. split; [lia|done].
    + rewrite (IH i Hi). lia.
  - assert (filter (upto v) l = []) as ->.
    { apply filter_none. eapply Forall_impl; [exact Ha|].
      simpl. intros y Hy Hyv. apply Hav. apply upto_iff.
      apply upto_iff in Hyv. lra. }
    rewrite upto_iff in Hav. simpl. split; [|lia].
    intros Hxv. destruct i as [|i]; simpl in Hi.
    + injection Hi as <-. done.
    + rewrite Forall_forall in Ha.
      assert (key a <= key x)%Q by (apply Ha; by eapply list_elem_of_lookup_2).
      exfalso. apply Hav. lra.
Qed.

(** Two sorted lists with the same elements have the same keys, rank by
    rank. *)
Lemma sorted_permutation_keys l1 l2 :
  l1 ≡ₚ l2 → StronglySorted le_key l1 → StronglySorted le_key l2 →
  Forall2 (λ a b, key a == key b) l1 l2.
Proof.
  intros Hp Hs1 Hs2. apply Forall2_same_length_lookup_2; [by rewrite Hp|].
  intros i x y Hx Hy.
  assert (∀ v, (key x <= v)%Q ↔ (key y <= v)%Q) as Hrank.
  { intros v. rewrite (sorted_rank l1 i x v Hs1 Hx).
    rewrite (sorted_rank l2 i y v Hs2 Hy). by rewrite Hp. }
  apply Qle_antisym.
  - apply Hrank. apply Qle_refl.
  - apply Hrank. apply Qle_refl.
Qed.
End SortedPermutation.

(** ** Queries with a positive capacity *)

Section QueryTotal.
Context {T : Type}.
Variable getDistance : T → T → Q.
Context `{!NthElement (T * Z), !UniformRng, !PriorityQueue}.
Implicit Types t : VpTree T.
Implicit Types input : list T.
Implicit Types items : list (T * Z).

#[local] Abbreviation VpTree_new := (VpTree_new getDistance).
#[local] Abbreviation getNearestNeighbors := (getNearestNeighbors getDistance).

Lemma built_items_in_range input seed t target :
  VpTree_new input seed = Ok t → below_DBL_MAX getDistance input target →
  items_in_range getDistance (items_ t) target.
Proof.
  intros Hnew Hb.
  assert (∀ it, it ∈ items_ t → it.1 ∈ input) as Hin.
  { intros it [p Hp]%list_elem_of_lookup.
    destruct (built_item_origin _ _ _ _ _ _ Hnew Hp) as [_ Hx].
    by eapply list_elem_of_lookup_2. }
  intros it Hit. split.
  - apply Hb; [by apply Hin|left].
  - intros it' Hit'. apply Hb; [by apply Hin|right; by apply Hin].
Qed.

Lemma built_root input seed t :
  VpTree_new input seed = Ok t → input ≠ [] →
  ∃ nd, root t = Ok nd ∧ nodes_ t !! Z.to_nat 0 = Some nd ∧ Node.item nd = 0.
Proof.
  intros Hnew Hne.
  destruct (VpTree_new_spec getDistance input seed) as (t' & Hnew' & _ & _ & Hc).
  rewrite Hnew in Hnew'. injection Hnew' as <-.
  assert (0 < Z.of_nat (length input)) by (destruct input; [done|simpl; lia]).
  inversion Hc as [|? ? nd vp Hlo Hnd Hvp Hitem]; subst; [lia|].
  exists nd. split; [|done]. unfold root. apply vec_at_Ok. done.
Qed.

(** A query with a positive capacity on a non-empty tree returns: as many
    results as fit, each a candidate of the brute-force search, by
    ascending distance; all the candidates when they all fit. *)
Lemma query_spec input seed t target k :
  VpTree_new input seed = Ok t → input ≠ [] →
  below_DBL_MAX getDistance input target →
  1 ≤ size_t_of_int k →
  ∃ rs views,
    getNearestNeighbors t target k = Ok rs
    ∧ Z.of_nat (length rs)
      = Z.min (Z.of_nat (length input)) (size_t_of_int k)
    ∧ Forall2 (resolves (items_ t)) rs views
    ∧ ascending views
    ∧ (Z.of_nat (length input) ≤ size_t_of_int k →
       views ≡ₚ all_candidates getDistance input target).
Proof.
  intros Hnew Hne Hb Hk.
  destruct (VpTree_new_spec getDistance input seed)
    as (t' & Hnew' & Hperm & Hlen & Hc).
  rewrite Hnew in Hnew'. injection Hnew' as <-.
  destruct (built_root _ _ _ Hnew Hne) as (nd & Hroot & Hnd & _).
  assert (0 < Z.of_nat (length input)) as Hn
    by (destruct input; [done|simpl; lia]).
  set (s0 := Searcher_new t target k).
  assert (phase_ok s0) as Hph.
  { left. split; [|done]. unfold s0. rewrite hsize_new.
    unfold capacity. simpl. lia. }
  destruct (searchInNode_total getDistance (items_ t) (nodes_ t) target
              0 (Z.of_nat (length input)) Hc Hn
              (built_items_in_range _ _ _ _ Hnew Hb)
              (length (nodes_ t)) s0 nd)
    as (s' & Hrun & Hq & Hph' & Hsz & Hall); [lia|done..|].
  destruct (search_results getDistance s0 s' nd Hroot Hrun
              (heap_ok_new getDistance t target k))
    as (hs & rs & vs & Hsearch & Hhs & Hvs & Hres & Hasc & Hlenrs & _).
  exists rs, (reverse vs).
  split; [done|]. split; [|split; [done|split; [done|]]].
  - rewrite Hlenrs. fold (hsize s'). rewrite Hsz. unfold s0 at 1.
    rewrite hsize_new. unfold capacity. simpl. lia.
  - intros Hfit. rewrite reverse_Permutation.
    destruct Hall as (es & Hes & Hentries).
    { unfold s0 at 1. rewrite hsize_new. unfold capacity. simpl. lia. }
    assert (pq_items (heap_ s0) = []) as Hnil by apply pq_items_new.
    rewrite Hnil, app_nil_r in Hes.
    change (target_ s0) with target in Hentries.
    rewrite Z.sub_0_r in Hentries.
    rewrite all_candidates_items, <- Hperm.
    (* the entries of all positions stand for the candidates of all items *)
    assert (Forall2 (entry_view getDistance (items_ t) target) es
              (view_of getDistance target <$> items_ t)) as Hviews.
    { apply Forall2_same_length_lookup_2.
      - rewrite <- (Forall2_length _ _ _ Hentries), length_fmap, length_seqZ.
        rewrite (Permutation_length Hperm), length_makeItems. lia.
      - intros i e v He Hv.
        destruct (Forall2_lookup_r _ _ _ _ _ Hentries He) as (p & Hp & Hat).
        apply lookup_seqZ in Hp as [-> _]. rewrite Z.add_0_l in Hat.
        apply entry_at_view in Hat as (it & Hit & Hview).
        rewrite Nat2Z.id in Hit.
        rewrite list_lookup_fmap, Hit in Hv. by injection Hv as <-. }
    assert (es ≡ₚ hs) as Hperm_es by (by rewrite Hhs, Hes).
    destruct (Permutation_Forall2 Hperm_es Hviews)
      as (vs' & Hvs' & Hviews').
    rewrite Hvs'.
    by rewrite (Forall2_functional _ _ _ _
                  (entry_view_functional getDistance _ _) Hvs Hviews').
Qed.
End QueryTotal.

(** ** The reference implementations meet the interfaces *)

Lemma StronglySorted_lookup_lt {A} (R : relation A) l i j x y :
  StronglySorted R l → (i < j)%nat → l !! i = Some x → l !! j = Some y → R x y.
Proof.
  intros Hs. revert i j.
  induction Hs as [|a l Hs IH Ha]; intros i j Hij Hx Hy; [done|].
  destruct j as [|j]; [lia|]. simpl in Hy.
  destruct i as [|i]; simpl in Hx.
  - injection Hx as <-. rewrite Forall_forall in Ha.
    apply Ha. by eapply list_elem_of_lookup_2.
  - eapply (IH i j); [lia|done..].
Qed.

Module ReferenceFacts.
Import Reference.

Section Sorting.
Context {A : Type} (key : A → Q).
#[local] Abbreviation cmp := (λ a b : A, Qltb (key a) (key b)).
#[local] Abbreviation le := (λ a b : A, (key a <= key b)%Q).

Lemma insert_by_perm x l : insert_by cmp x l ≡ₚ x :: l.
Proof.
  induction l as [|y l IH]; simpl; [done|].
  destruct (Qltb _ _); [|done].
  rewrite IH. apply Permutation_swap.
Qed.

Lemma sort_by_perm l : sort_by cmp l ≡ₚ l.
Proof.
  induction l as [|y l IH]; simpl; [done|].
  rewrite insert_by_perm. by f_equiv.
Qed.

Lemma insert_by_sorted x l :
  StronglySorted le l → StronglySorted le (insert_by cmp x l).
Proof.
  induction 1 as [|y l Hl IH Hy]; simpl.
  - repeat constructor.
  - destruct (Qltb (key y) (key x)) eqn:E.
    + constructor; [done|].
      rewrite insert_by_perm. constructor; [|done].
      apply Qltb_lt in E. lra.
    + apply Qltb_ge in E.
      constructor; [by constructor|].
      constructor; [done|].
      eapply Forall_impl; [exact Hy|]. simpl. intros z Hz. lra.
Qed.

Lemma sort_by_sorted l : StronglySorted le (sort_by cmp l).
Proof.
  induction l; simpl; [constructor | by apply insert_by_sorted].
Qed.

Lemma sort_by_ordered l i j x y :
  (i ≤ j)%nat → sort_by cmp l !! i = Some x → sort_by cmp l !! j = Some y →
  (key x <= key y)%Q.
Proof.
  intros Hij Hx Hy.
  destruct (decide (i = j)) as [->|Hne].
  - rewrite Hx in Hy. injection Hy as ->. lra.
  - pose proof (sort_by_sorted l) as Hs.
    eapply (StronglySorted_lookup_lt _ _ i j x y) in Hs; [done|lia|done..].
Qed.
End Sorting.

#[export] Program Instance sort_NthElement {A} : NthElement A :=
  {| nth_element := sort_nth_element |}.
Next Obligation. intros. apply sort_by_perm. Qed.
Next Obligation.
  intros A key l n i x p Hi Hx Hp.
  eapply (sort_by_ordered key l i n); [lia|done..].
Qed.
Next Obligation.
  intros A key l n j y p Hj Hy Hp.
  eapply (sort_by_ordered key l n j); [lia|done..].
Qed.

#[export] Program Instance lcg_UniformRng : UniformRng :=
  {| rng := Z; uniform_int := lcg_uniform_int |}.
Next Obligation.
  intros g lo hi Hle. unfold lcg_uniform_int. simpl.
  pose proof (Z.mod_pos_bound g (Z.max 1 (hi - lo + 1)) ltac:(lia)). lia.
Qed.

Lemma extract_max_None l : extract_max l = None ↔ l = [].
Proof.
  destruct l as [|x l]; simpl; [done|].
  split; [|done].
  destruct (extract_max l) as [[m r]|]; [|done].
  by destruct (Qleb _ _).
Qed.

Lemma extract_max_perm l m r : extract_max l = Some (m, r) → l ≡ₚ m :: r.
Proof.
  revert m r. induction l as [|x l IH]; intros m r; simpl; [done|].
  destruct (extract_max l) as [[m' r']|] eqn:E.
  - destruct (Qleb _ _); intros [= <- <-]; [done|].
    rewrite (IH _ _ eq_refl). apply Permutation_swap.
  - apply extract_max_None in E as ->. by intros [= <- <-].
Qed.

Lemma extract_max_max l m r :
  extract_max l = Some (m, r) →
  Forall (λ y, (HeapItem.dist y <= HeapItem.dist m)%Q) l.
Proof.
  revert m r. induction l as [|x l IH]; intros m r; simpl; [done|].
  destruct (extract_max l) as [[m' r']|] eqn:E.
  - specialize (IH _ _ eq_refl).
    destruct (Qleb _ _) eqn:Hc; intros [= <- <-].
    + apply Qleb_le in Hc. constructor; [lra|].
      eapply Forall_impl; [exact IH|]. simpl. intros z Hz. lra.
    + apply Qleb_gt in Hc. constructor; [lra|done].
  - apply extract_max_None in E as ->. intros [= <- <-].
    constructor; [lra|done].
Qed.

#[export] Program Instance list_PriorityQueue : PriorityQueue :=
  {| pq := list HeapItem.t; pq_new := []; pq_items := id; pq_size := length;
     pq_push := cons; pq_top := list_top; pq_pop := list_pop |}.
Next Obligation. done. Qed.
Next Obligation. done. Qed.
Next Obligation. done. Qed.
Next Obligation.
  intros h. unfold list_top. rewrite fmap_None. apply extract_max_None.
Qed.
Next Obligation.
  intros h. unfold list_pop. rewrite fmap_None. apply extract_max_None.
Qed.
Next Obligation.
  intros h x. unfold list_top. intros ([m r] & Hm & ->)%fmap_Some.
  by eapply extract_max_max.
Qed.
Next Obligation.
  intros h x h'. unfold list_top, list_pop.
  intros ([m r] & Hm & ->)%fmap_Some ([m' r'] & Hm' & ->)%fmap_Some.
  rewrite Hm in Hm'. injection Hm' as <- <-. by apply extract_max_perm.
Qed.
End ReferenceFacts.

(** * The properties of the specification *)

Lemma size_t_of_int_nonneg k : 0 ≤ k ≤ INT_MAX → size_t_of_int k = k.
Proof.
  unfold INT_MAX, size_t_of_int. intros Hk. apply Z.mod_small. lia.
Qed.

Lemma size_t_of_int_neg k : INT_MIN ≤ k < 0 → size_t_of_int k = k + 2 ^ 64.
Proof.
  unfold INT_MIN, size_t_of_int. intros Hk.
  rewrite <- (Z_mod_plus_full k 1 (2 ^ 64)). apply Z.mod_small. lia.
Qed.

Section Claims.
Context {T : Type}.
Variable getDistance : T → T → Q.
Context `{!NthElement (T * Z), !UniformRng, !PriorityQueue}.
Implicit Types t : VpTree T.
Implicit Types input : list T.
Implicit Types items : list (T * Z).

#[local] Abbreviation VpTree_new := (VpTree_new getDistance).
#[local] Abbreviation getNearestNeighbors := (getNearestNeighbors getDistance).
#[local] Abbreviation makeTree := (makeTree getDistance).
#[local] Abbreviation searchInNode := (searchInNode getDistance).
#[local] Abbreviation bruteForce := (bruteForce getDistance).
#[local] Abbreviation below_DBL_MAX := (below_DBL_MAX getDistance).

Lemma below_DBL_MAXb_correct input target :
  below_DBL_MAXb getDistance input target = true →
  below_DBL_MAX input target.
Proof.
  unfold below_DBL_MAXb. rewrite forallb_forall.
  intros Hall x y Hx%list_elem_of_In Hy%list_elem_of_In.
  specialize (Hall x Hx). rewrite forallb_forall in Hall.
  specialize (Hall y Hy). apply andb_true_iff in Hall as [Hge Hlt].
  split; [by apply Qleb_le|by apply Qltb_lt].
Qed.

Lemma bruteForce_perm input target :
  bruteForce input target ≡ₚ all_candidates getDistance input target.
Proof. apply (ReferenceFacts.sort_by_perm (λ a : T * Z * Q, a.2)). Qed.

Lemma bruteForce_ascending input target :
  ascending (bruteForce input target).
Proof. apply (ReferenceFacts.sort_by_sorted (λ a : T * Z * Q, a.2)). Qed.

Lemma resolves_dists items rs views :
  Forall2 (resolves items) rs views → ascending views →
  StronglySorted Qle (Result.dist <$> rs).
Proof.
  intros Hres Hasc.
  apply (StronglySorted_fmap Result.dist
           (λ r r', (Result.dist r <= Result.dist r')%Q)); [done|].
  eapply (StronglySorted_Forall2 _ _ (flip (resolves items)));
    [|apply Forall2_flip; exact Hres|exact Hasc].
  intros v v' r r' (it & _ & _ & ->) (it' & _ & _ & ->). done.
Qed.

(** The fuel the entry points give is enough: the constructor returns a
    tree, and a query on it ends, with results or in undefined behaviour,
    whatever the distance function and the count. *)
Lemma query_never_out_of_fuel input (seed : rng) (target : T) (k : Z) :
  ∃ t, VpTree_new input seed = Ok t
       ∧ getNearestNeighbors t target k ≠ OutOfFuel.
Proof.
  destruct (VpTree_new_spec getDistance input seed)
    as (t & Hnew & _ & Hlen & Hc).
  exists t. split; [done|]. unfold getNearestNeighbors, search. simpl.
  apply bind_fuel; [apply vec_at_fuel|].
  intros nd [_ Hnd]%vec_at_Ok.
  assert (0 < Z.of_nat (length input)) as Hn
    by (apply lookup_lt_Some in Hnd; lia).
  apply bind_fuel.
  { by apply (searchInNode_fuel getDistance (items_ t) (nodes_ t)
                0 (Z.of_nat (length input)) Hc Hn); [lia|..]. }
  intros s' _. apply bind_fuel; [by apply drain_fuel|done].
Qed.

(** C3: in every tree produced by the constructor, for every node, every
    item stored in the node's left subtree is at a distance at most the
    node's threshold from the node's vantage point, and every item stored
    in its right subtree is at a distance at least the threshold. *)
Theorem subtrees_respect_threshold input (seed : rng) :
  ∃ t, VpTree_new input seed = Ok t
       ∧ ∀ (i : nat) nd vp,
           nodes_ t !! i = Some nd →
           vec_at (items_ t) (Node.item nd) = Ok vp →
           (∀ nd' x,
              in_subtree (nodes_ t) (Node.left nd) nd' →
              vec_at (items_ t) (Node.item nd') = Ok x →
              (getDistance vp.1 x.1 <= Node.threshold nd)%Q)
           ∧ (∀ nd' x,
                in_subtree (nodes_ t) (Node.right nd) nd' →
                vec_at (items_ t) (Node.item nd') = Ok x →
                (Node.threshold nd <= getDistance vp.1 x.1)%Q).
Proof.
  destruct (VpTree_new_spec getDistance input seed)
    as (t & Hnew & _ & Hlen & Hc).
  exists t. split; [done|]. intros i nd vp Hnd Hvp.
  assert (0 ≤ Z.of_nat i < Z.of_nat (length input)) as Hi
    by (apply lookup_lt_Some in Hnd; lia).
  destruct (covers_descend _ _ _ _ _ _ Hc Hi) as (hi & Hhi & Hc').
  inversion Hc' as [|? ? nd0 vp0 Hlo Hnd0 Hvp0 Hitem Hleft Hright
                      Hin Hout HcL HcR]; subst; [lia|].
  rewrite Nat2Z.id in Hnd0, Hvp0. rewrite Hnd in Hnd0. injection Hnd0 as <-.
  rewrite Hitem in Hvp. apply vec_at_Ok in Hvp as [_ Hvp].
  rewrite Nat2Z.id, Hvp0 in Hvp. injection Hvp as <-.
  split; intros nd' x Hsub [Hnn Hx]%vec_at_Ok.
  - rewrite Hleft in Hsub.
    pose proof (covers_in_subtree _ _ _ _ _ _ HcL Hsub) as Hrange.
    apply (Hin (Z.to_nat (Node.item nd'))); [lia|done].
  - rewrite Hright in Hsub.
    pose proof (covers_in_subtree _ _ _ _ _ _ HcR Hsub) as Hrange.
    apply (Hout (Z.to_nat (Node.item nd'))); [lia|done].
Qed.

(** C4: for an input of n items the constructor produces exactly n nodes;
    the [item] fields of the nodes are 0, 1, ..., n-1, each once; a call of
    [makeTree] on an empty range returns [Leaf] and creates no node; and
    for n >= 1 node 0 is the root, from which every node is reached. *)
Theorem one_node_per_item input (seed : rng) :
  ∃ t, VpTree_new input seed = Ok t
       ∧ length (nodes_ t) = length input
       ∧ Node.item <$> nodes_ t = seqZ 0 (Z.of_nat (length input))
       ∧ (∀ fuel t0 lower upper,
            upper ≤ lower →
            makeTree (S fuel) t0 lower upper = Ok (Node.Leaf, t0))
       ∧ (input ≠ [] →
          ∃ nd, root t = Ok nd ∧ Node.item nd = 0
                ∧ ∀ (i : nat) nd',
                    nodes_ t !! i = Some nd' → in_subtree (nodes_ t) 0 nd').
Proof.
  destruct (VpTree_new_spec getDistance input seed)
    as (t & Hnew & _ & Hlen & Hc).
  exists t. split; [done|]. split; [done|].
  split; [by apply (covers_items_of_nodes getDistance (items_ t))|].
  split; [intros; by apply makeTree_leaf|].
  intros Hne.
  destruct (built_root getDistance _ _ _ Hnew Hne) as (nd & Hroot & _ & Hitem).
  exists nd. split; [done|]. split; [done|]. intros i nd' Hnd'.
  assert (0 ≤ Z.of_nat i < Z.of_nat (length input)) as Hi
    by (apply lookup_lt_Some in Hnd'; lia).
  pose proof (covers_reaches _ _ _ _ _ _ _ Hc Hi Hnd') as Hreach.
  by rewrite link_nonempty in Hreach by lia.
Qed.

(** C5, as the code has it: over the empty item set the constructor
    succeeds with zero nodes, and every query then reads [nodes_[0]] of an
    empty vector: [root] is outside the bounds of the node sequence. *)
Theorem empty_tree_query_reads_out_of_bounds (seed : rng) (target : T) (k : Z) :
  ∃ t, VpTree_new [] seed = Ok t
       ∧ nodes_ t = []
       ∧ getNearestNeighbors t target k = Undefined OutOfBounds.
Proof. eexists. split; [reflexivity|]. split; reflexivity. Qed.

(** The first admission of a search with [neighborsCount = 0] pops the
    empty heap. *)
Lemma zero_count_pops_empty_heap input (seed : rng) (target : T) :
  input ≠ [] →
  (∀ x, x ∈ input → (getDistance x target < DBL_MAX)%Q) →
  ∃ t, VpTree_new input seed = Ok t
       ∧ getNearestNeighbors t target 0 = Undefined PopEmptyHeap.
Proof.
  intros Hne Hd.
  destruct (VpTree_new_spec getDistance input seed)
    as (t & Hnew & _ & Hlen & Hc).
  exists t. split; [done|].
  destruct (built_root getDistance _ _ _ Hnew Hne) as (nd & Hroot & Hnd & Hitem).
  assert (0 < Z.of_nat (length input)) as Hn
    by (destruct input; [done|simpl; lia]).
  inversion Hc as [|? ? nd0 vp Hlo Hnd0 Hvp]; subst; [lia|].
  unfold getNearestNeighbors, search. simpl. rewrite Hroot. cbn.
  rewrite Hlen. destruct (length input) as [|fuel] eqn:Hl; [lia|].
  simpl. rewrite Hitem.
  rewrite (proj2 (vec_at_Ok _ _ _) (conj (Z.le_refl 0) Hvp)). cbn.
  unfold offer. simpl.
  assert (vp.1 ∈ input) as Hin.
  { destruct (built_item_origin getDistance _ _ _ _ _ Hnew Hvp) as [_ Hx].
    by eapply list_elem_of_lookup_2. }
  rewrite (proj2 (Qltb_lt _ _) (Hd _ Hin)).
  unfold heap_full. simpl.
  rewrite bool_decide_eq_true_2
    by (by rewrite pq_size_items, pq_items_new).
  rewrite heap_pop_empty by apply pq_items_new. done.
Qed.

(** C8: a build step on a range [lower, upper) of two items or more: the
    median position is [m = (lower + upper) / 2]; after [selectRoot],
    [partitionByDistance] moves items only within [lower + 1, upper) and
    leaves every item of [lower + 1, m) at most as far from the vantage
    point, the item at [lower], as every item of [m, upper); [makeTree]
    creates a node for the vantage point, with as threshold the distance
    from the vantage point to the item then at position [m], and goes on
    from the partitioned items: its two recursive calls start from them
    and move items only within [lower + 1, m) and within [m, upper), so
    that in the state [makeTree] returns the vantage point is still at
    [lower], the items of [lower + 1, m) are within the threshold of it and
    those of [m, upper) at least the threshold away. *)
Theorem build_step_partitions_at_median (fuel : nat) t (lower upper : Z) :
  0 ≤ lower → lower + 2 ≤ upper →
  upper ≤ Z.of_nat (length (items_ t)) →
  upper - lower < Z.of_nat fuel →
  let m := (upper + lower) ÷ 2 in
  m = (lower + upper) `div` 2
  ∧ ∃ t1 t2 t' vp mth nd,
      selectRoot t lower upper = Ok t1
      ∧ partitionByDistance getDistance t1 lower m upper = Ok t2
      ∧ rearranged (lower + 1) upper (items_ t1) (items_ t2)
      ∧ items_ t2 !! Z.to_nat lower = Some vp
      ∧ items_ t2 !! Z.to_nat m = Some mth
      ∧ (∀ (i j : nat) x y,
           lower + 1 ≤ Z.of_nat i < m → m ≤ Z.of_nat j < upper →
           items_ t2 !! i = Some x → items_ t2 !! j = Some y →
           (getDistance vp.1 x.1 <= getDistance vp.1 y.1)%Q)
      ∧ makeTree fuel t lower upper = Ok (Z.of_nat (length (nodes_ t)), t')
      ∧ nodes_ t' !! length (nodes_ t) = Some nd
      ∧ Node.threshold nd = getDistance vp.1 mth.1
      ∧ Node.item nd = lower
      ∧ (∃ fuel' t3 t4 t5 t6,
           fuel = S fuel'
           ∧ update_node (makeNode t2 lower).2 (makeNode t2 lower).1
               (Node.with_threshold (getDistance vp.1 mth.1)) = Ok t3
           ∧ makeTree fuel' t3 (lower + 1) m = Ok (Node.left nd, t4)
           ∧ update_node t4 (Z.of_nat (length (nodes_ t)))
               (Node.with_left (Node.left nd)) = Ok t5
           ∧ makeTree fuel' t5 m upper = Ok (Node.right nd, t6)
           ∧ update_node t6 (Z.of_nat (length (nodes_ t)))
               (Node.with_right (Node.right nd)) = Ok t'
           ∧ rearranged (lower + 1) m (items_ t2) (items_ t4)
           ∧ rearranged m upper (items_ t4) (items_ t'))
      ∧ items_ t' !! Z.to_nat lower = Some vp
      ∧ (∀ (i : nat) x,
           lower + 1 ≤ Z.of_nat i < m → items_ t' !! i = Some x →
           (getDistance vp.1 x.1 <= Node.threshold nd)%Q)
      ∧ (∀ (j : nat) y,
           m ≤ Z.of_nat j < upper → items_ t' !! j = Some y →
           (Node.threshold nd <= getDistance vp.1 y.1)%Q).
Proof.
  intros Hlo Htwo Hup Hfuel m.
  destruct (split_at_median lower upper Hlo Htwo) as [_ Hm]. fold m in Hm.
  split.
  { unfold m. rewrite Z.quot_div_nonneg by lia. f_equal. lia. }
  destruct fuel as [|fuel']; [lia|].
  destruct (makeTree_step getDistance fuel' t lower upper)
    as (t1 & t2 & vp & mth & t3 & l & t4 & t5 & r & t6 & t' & Hsel & Hpart
        & Hvp & Hmth & Hnode & Hup3 & HL & Hup5 & HR & Hup' & Hmk & Hr4 & Hr6
        & Hnd); [lia..|].
  fold m in Hpart, Hmth, HL, HR, Hr4, Hr6.
  destruct (selectRoot_spec t lower upper) as (t1' & Hsel' & Hr1 & _);
    [lia..|].
  rewrite Hsel in Hsel'. injection Hsel' as <-.
  destruct (partitionByDistance_spec getDistance t1 lower m upper)
    as (t2' & vp' & mth' & Hpart' & Hr2 & _ & Hvp' & Hmth' & Hbefore & Hafter);
    [lia..|by rewrite (rearranged_length _ _ _ _ Hr1)|].
  rewrite Hpart in Hpart'. injection Hpart' as <-.
  rewrite Hvp in Hvp'. injection Hvp' as <-.
  rewrite Hmth in Hmth'. injection Hmth' as <-.
  set (thr := getDistance vp.1 mth.1) in *.
  exists t1, t2, t', vp, mth, (Node.mk lower thr l r).
  repeat (split; [done|]).
  split.
  { intros i j x y Hi Hj Hx Hy.
    pose proof (Hbefore i x Hi Hx). pose proof (Hafter j y Hj Hy). lra. }
  repeat (split; [done|]).
  split.
  { exists fuel', t3, t4, t5, t6. rewrite Hnode. done. }
  split; [|split].
  - rewrite (rearranged_outside _ _ _ _ _ Hr6) by lia.
    rewrite (rearranged_outside _ _ _ _ _ Hr4) by lia. done.
  - intros i x Hi Hx. simpl.
    rewrite (rearranged_outside _ _ _ _ _ Hr6) in Hx by lia.
    revert i x Hi Hx.
    eapply (rearranged_Forall_range
              (λ x, (getDistance vp.1 x.1 <= thr)%Q)); [| |exact Hr4|];
      [lia|lia|exact Hbefore].
  - simpl.
    eapply (rearranged_Forall_range
              (λ x, (thr <= getDistance vp.1 x.1)%Q)); [| |exact Hr6|];
      [lia|lia|].
    intros j y Hj Hy.
    rewrite (rearranged_outside _ _ _ _ _ Hr4) in Hy by lia.
    by eapply Hafter.
Qed.

(** C10: every result returned by a query on a built tree points at an
    item of the tree, carries the index stored with that item, and that
    index is the position the item had in the input: dereferencing the
    result gives the input item at position [index]. *)
Theorem result_refers_to_original_item input (seed : rng) (target : T) (k : Z) :
  ∃ t, VpTree_new input seed = Ok t
       ∧ ∀ rs r,
           getNearestNeighbors t target k = Ok rs → r ∈ rs →
           carries_index (items_ t) r
           ∧ ∃ x, deref t r = Ok x
                  ∧ 0 ≤ Result.index r
                  ∧ input !! Z.to_nat (Result.index r) = Some x.
Proof.
  destruct (VpTree_new_spec getDistance input seed) as (t & Hnew & _).
  exists t. split; [done|]. intros rs r Hq Hr.
  pose proof Hq as Hq'. unfold getNearestNeighbors, search in Hq'.
  apply bind_Ok in Hq' as (nd & Hroot & Hq').
  apply bind_Ok in Hq' as (s' & Hrun & _).
  destruct (search_results getDistance _ _ _ Hroot Hrun
              (heap_ok_new getDistance t target k))
    as (hs & rs' & vs & Hsearch & _ & _ & _ & _ & _ & Hidx).
  unfold getNearestNeighbors in Hq. rewrite Hq in Hsearch.
  injection Hsearch as <-. simpl in Hidx.
  rewrite Forall_forall in Hidx. specialize (Hidx r Hr).
  split; [done|].
  destruct Hidx as (it & Hnn & Hit & Hindex).
  destruct (built_item_origin getDistance _ _ _ _ _ Hnew Hit) as [Horig Hx].
  exists it.1. unfold deref.
  rewrite (proj2 (vec_at_Ok _ _ _) (conj Hnn Hit)). rewrite Hindex. done.
Qed.

(** C1, amended: for an input of n >= 1 items (n an [int]), a target and a
    distance function whose values among the items and from the items to
    the target are non-negative and below [DBL_MAX],
    [getNearestNeighbors(target, n)] returns all the items: what its
    results stand for is a permutation of the brute-force list of all
    items with their input positions and distances, it is sorted by
    ascending distance, and rank by rank it has the distances of the
    brute-force list. *)
Theorem query_all_is_brute_force input (seed : rng) (target : T) :
  input ≠ [] → Z.of_nat (length input) ≤ INT_MAX →
  below_DBL_MAX input target →
  ∃ t rs views,
    VpTree_new input seed = Ok t
    ∧ getNearestNeighbors t target (Z.of_nat (length input)) = Ok rs
    ∧ Forall2 (resolves (items_ t)) rs views
    ∧ views ≡ₚ bruteForce input target
    ∧ ascending views
    ∧ Forall2 (λ v b, v.2 == b.2) views (bruteForce input target).
Proof.
  intros Hne Hn Hb.
  destruct (VpTree_new_spec getDistance input seed) as (t & Hnew & _).
  assert (0 < Z.of_nat (length input)) as Hpos
    by (destruct input; [done|simpl; lia]).
  destruct (query_spec getDistance input seed t target
              (Z.of_nat (length input)) Hnew Hne Hb)
    as (rs & views & Hq & _ & Hres & Hasc & Hall);
    [rewrite size_t_of_int_nonneg; lia|].
  assert (views ≡ₚ bruteForce input target) as Hperm.
  { rewrite bruteForce_perm. apply Hall. rewrite size_t_of_int_nonneg; lia. }
  exists t, rs, views. repeat (split; [done|]).
  apply (sorted_permutation_keys (λ a : T * Z * Q, a.2));
    [done|done|apply bruteForce_ascending].
Qed.

(** C2, amended: on a tree over n >= 1 items, for a count
    [1 <= k <= INT_MAX] and distances that are non-negative and below
    [DBL_MAX], [getNearestNeighbors(target, k)] returns exactly
    [min(k, n)] results, and the sequence of their [dist] fields is
    non-decreasing. *)
Theorem query_returns_min_k_n_sorted input (seed : rng) (target : T) (k : Z) :
  input ≠ [] → 1 ≤ k ≤ INT_MAX →
  below_DBL_MAX input target →
  ∃ t rs,
    VpTree_new input seed = Ok t
    ∧ getNearestNeighbors t target k = Ok rs
    ∧ Z.of_nat (length rs) = Z.min k (Z.of_nat (length input))
    ∧ StronglySorted Qle (Result.dist <$> rs).
Proof.
  intros Hne Hk Hb.
  destruct (VpTree_new_spec getDistance input seed) as (t & Hnew & _).
  destruct (query_spec getDistance input seed t target k Hnew Hne Hb)
    as (rs & views & Hq & Hlen & Hres & Hasc & _);
    [rewrite size_t_of_int_nonneg; lia|].
  exists t, rs. repeat (split; [done|]).
  split; [rewrite Hlen, size_t_of_int_nonneg; lia|].
  by eapply resolves_dists.
Qed.

(** C7, amended: a negative count is not rejected.  On a tree over
    n >= 1 items (n an [int]) with distances that are non-negative and
    below [DBL_MAX], [getNearestNeighbors(target, k)] with
    [INT_MIN <= k < 0] returns all n items by ascending distance, with
    the distances of the brute-force list rank by rank: every item has been
    pushed onto the heap. *)
Theorem negative_count_returns_all_items input (seed : rng) (target : T)
    (k : Z) :
  input ≠ [] → Z.of_nat (length input) ≤ INT_MAX → INT_MIN ≤ k < 0 →
  below_DBL_MAX input target →
  ∃ t rs views,
    VpTree_new input seed = Ok t
    ∧ getNearestNeighbors t target k = Ok rs
    ∧ length rs = length input
    ∧ Forall2 (resolves (items_ t)) rs views
    ∧ views ≡ₚ bruteForce input target
    ∧ ascending views
    ∧ Forall2 (λ v b, v.2 == b.2) views (bruteForce input target).
Proof.
  intros Hne Hn Hk Hb.
  destruct (VpTree_new_spec getDistance input seed) as (t & Hnew & _).
  assert (0 < Z.of_nat (length input)) as Hpos
    by (destruct input; [done|simpl; lia]).
  assert (Z.of_nat (length input) ≤ size_t_of_int k) as Hfit
    by (rewrite size_t_of_int_neg by done; unfold INT_MIN, INT_MAX in *; lia).
  destruct (query_spec getDistance input seed t target k Hnew Hne Hb)
    as (rs & views & Hq & Hlen & Hres & Hasc & Hall); [lia|].
  assert (views ≡ₚ bruteForce input target) as Hperm
    by (rewrite bruteForce_perm; by apply Hall).
  exists t, rs, views. repeat (split; [done|]).
  split; [lia|]. repeat (split; [done|]).
  apply (sorted_permutation_keys (λ a : T * Z * Q, a.2));
    [done|done|apply bruteForce_ascending].
Qed.
End Claims.

(** * Further properties of the code *)

(** ** The invariants of a search *)

Section SearchInvariant.
Context {T : Type}.
Variable getDistance : T → T → Q.
Context `{!UniformRng, !PriorityQueue}.
Implicit Types s : Searcher T.
Implicit Types items : list (T * Z).
Implicit Types nodes : list Node.t.
Implicit Types e : HeapItem.t.

#[local] Abbreviation searchInNode := (searchInNode getDistance).
#[local] Abbreviation covers := (covers getDistance).
#[local] Abbreviation heap_ok := (heap_ok getDistance).
#[local] Abbreviation search_inv := (search_inv getDistance).
#[local] Abbreviation triangle_ok := (triangle_ok getDistance).
#[local] Abbreviation explored := (explored getDistance).
#[local] Abbreviation searched := (searched getDistance).
#[local] Abbreviation entry_for := (entry_for getDistance).

Lemma pq_top_elem (h : pq) x : pq_top h = Some x → x ∈ pq_items h.
Proof.
  intros Htop.
  destruct (pq_pop h) as [h'|] eqn:Hpop.
  - rewrite (pq_top_pop h x h' Htop Hpop). left.
  - apply pq_pop_None in Hpop. apply pq_top_None in Hpop. congruence.
Qed.

Lemma settled_moved lo hi s s' e : moved lo hi s s' → settled s e → settled s' e.
Proof.
  intros (_ & Htau & _ & Hkept & _) [Hin|Hfar]; [by apply Hkept|].
  right. lra.
Qed.

Lemma moved_refl lo hi s : moved lo hi s s.
Proof.
  split; [done|]. split; [apply Qle_refl|]. split; [lia|].
  split; intros e He; by left.
Qed.

Lemma moved_trans lo hi a b c d s s1 s2 :
  lo ≤ a → b ≤ hi → lo ≤ c → d ≤ hi →
  moved a b s s1 → moved c d s1 s2 → moved lo hi s s2.
Proof.
  intros Ha Hb Hc Hd H1 H2.
  pose proof H1 as (Hq1 & Htau1 & Hsz1 & Hkept1 & Hnew1).
  pose proof H2 as (Hq2 & Htau2 & Hsz2 & Hkept2 & Hnew2).
  split; [by eapply same_query_trans|]. split; [lra|]. split; [lia|].
  split.
  - intros e He. eapply settled_moved; [exact H2|]. by apply Hkept1.
  - intros e He. destruct (Hnew2 e He) as [He1|Hr]; [|right; lia].
    destruct (Hnew1 e He1) as [He0|Hr]; [by left|right; lia].
Qed.

Lemma explored_moved items target a b c d s s' :
  explored items target a b s → moved c d s s' → explored items target a b s'.
Proof.
  intros Hex Hm p it Hp Hit. eapply settled_moved; [exact Hm|]. by eapply Hex.
Qed.

Lemma fresh_moved a b c d s s' :
  fresh a b s → moved c d s s' → (b ≤ c ∨ d ≤ a) → fresh a b s'.
Proof.
  intros Hf (_ & _ & _ & _ & Hnew) Hdisj e He.
  destruct (Hnew e He) as [He0|Hr]; [by apply Hf|lia].
Qed.

Lemma fresh_weaken a b a' b' s : a ≤ a' → b' ≤ b → fresh a b s → fresh a' b' s.
Proof. intros ?? Hf e He Hr. apply (Hf e He). lia. Qed.

Lemma search_inv_new (t : VpTree T) target k :
  1 ≤ size_t_of_int k → search_inv (Searcher_new t target k).
Proof.
  intros Hk.
  assert (pq_items (heap_ (Searcher_new t target k)) = []) as Hnil
    by apply pq_items_new.
  assert (hsize (Searcher_new t target k) = 0) as Hsz by apply hsize_new.
  split; [|split; [|split; [split; [|split]|]]].
  - left. split; [|done]. rewrite Hsz. unfold capacity. simpl. lia.
  - apply heap_ok_new.
  - apply Qle_refl.
  - rewrite Hnil. constructor.
  - rewrite Hsz. unfold capacity. simpl. lia.
  - rewrite Hnil. constructor.
Qed.

(** The admission of an item keeps the invariants, whatever its
    distance. *)
Lemma offer_inv s item it :
  search_inv s →
  0 ≤ item → items_ (tree_ s) !! Z.to_nat item = Some it →
  fresh item (item + 1) s →
  ∃ s', offer s item (getDistance it.1 (target_ s)) = Ok s'
        ∧ search_inv s'
        ∧ moved item (item + 1) s s'
        ∧ settled s' (entry_for (target_ s) item it).
Proof.
  intros (Hph & Hok & (Htmax & Hbound & Hattained) & Hnd) Hitem Hit Hfresh.
  set (dist := getDistance it.1 (target_ s)).
  set (e := HeapItem.mk item dist).
  change (entry_for (target_ s) item it) with e.
  pose proof (hsize_nonneg s) as Hnn.
  unfold offer. destruct (Qltb dist (tau_ s)) eqn:Hlt.
  2:{ apply Qltb_ge in Hlt. exists s. split; [done|].
      split; [done|]. split; [apply moved_refl|by right]. }
  apply Qltb_lt in Hlt.
  assert (entry_at getDistance (items_ (tree_ s)) (target_ s) item e) as Hentry.
  { split; [done|]. split; [done|]. by exists it. }
  assert (dist < DBL_MAX)%Q as Hdmax by lra.
  assert (item ∉ HeapItem.item <$> pq_items (heap_ s)) as Hnotin.
  { intros (e' & He' & Hin)%list_elem_of_fmap. apply (Hfresh e' Hin). lia. }
  (* the state after the push onto a heap [h1] made of entries of [s], and
     the update of [tau_] when that heap is full *)
  assert (∀ h1 : pq,
            pq_items h1 ⊆ pq_items (heap_ s) →
            NoDup (HeapItem.item <$> pq_items h1) →
            Z.of_nat (pq_size h1) + 1 = capacity s →
            (∀ e', e' ∈ pq_items (heap_ s) →
                   e' ∈ pq_items h1
                   ∨ ∀ top, top ∈ e :: pq_items h1 →
                       (HeapItem.dist top <= HeapItem.dist e')%Q) →
            hsize s ≤ Z.of_nat (pq_size h1) + 1 →
            ∃ s', (let s2 := with_heap (pq_push e h1) (with_heap h1 s) in
                   if heap_full s2 then
                     top ← heap_top s2; Ok (with_tau (HeapItem.dist top) s2)
                   else Ok s2) = Ok s'
                  ∧ search_inv s' ∧ moved item (item + 1) s s'
                  ∧ settled s' e) as Hfull.
  { intros h1 Hsub Hnd1 Hsz1 Hgone Hgrow. cbv zeta.
    set (s2 := with_heap (pq_push e h1) (with_heap h1 s)).
    assert (pq_items (heap_ s2) ≡ₚ e :: pq_items h1) as Hp2
      by apply pq_items_push.
    assert (hsize s2 = capacity s) as Hs2.
    { unfold hsize, s2. simpl. rewrite pq_size_push. lia. }
    rewrite heap_full_true by exact Hs2.
    destruct (heap_top_push e (with_heap h1 s)) as [top Htop].
    change (heap_top s2 = Ok top) in Htop. rewrite Htop. cbn.
    eexists. split; [done|].
    unfold heap_top in Htop.
    destruct (pq_top (heap_ s2)) as [top'|] eqn:Htop'; [|done].
    injection Htop as ->.
    pose proof (pq_top_elem _ _ Htop') as Htopin.
    pose proof (pq_top_max _ _ Htop') as Htopmax.
    rewrite Forall_forall in Hbound, Htopmax.
    assert (∀ e', e' ∈ pq_items (heap_ s2) →
              (HeapItem.dist e' <= tau_ s)%Q ∧ (HeapItem.dist e' < DBL_MAX)%Q)
      as Hold.
    { intros e' He'. rewrite Hp2 in He'.
      apply elem_of_cons in He' as [->|He']; [simpl; lra|].
      by apply Hbound, Hsub. }
    split; [split; [|split; [|split; [split; [|split]|]]]|split; [|left]].
    - right. split; [exact Hs2|]. change (1 ≤ capacity s). lia.
    - unfold heap_ok. simpl. rewrite pq_items_push.
      constructor; [exact Hentry|].
      unfold heap_ok in Hok. rewrite Forall_forall in Hok |- *.
      intros e' He'. by apply Hok, Hsub.
    - simpl. destruct (Hold top Htopin). lra.
    - simpl. apply Forall_forall. intros e' He'.
      split; [by apply Htopmax|by apply Hold].
    - intros _. exists top. split; [exact Htopin|apply Qle_refl].
    - simpl. rewrite pq_items_push, fmap_cons. simpl.
      constructor; [|exact Hnd1].
      intros (e' & He' & Hin)%list_elem_of_fmap. apply Hnotin.
      apply list_elem_of_fmap. exists e'. split; [done|by apply Hsub].
    - split; [done|]. split; [simpl; destruct (Hold top Htopin); lra|].
      split; [rewrite <- Hs2 in Hsz1; unfold hsize in *; simpl in *; lia|].
      split.
      + intros e' He'.
        destruct (Hgone e' He') as [Hin|Hout].
        * left. simpl. rewrite pq_items_push. by right.
        * right. simpl. apply Hout. by rewrite <- Hp2.
      + intros e' He'. simpl in He'. rewrite pq_items_push in He'.
        apply elem_of_cons in He' as [->|He']; [right; simpl; lia|].
        left. by apply Hsub.
    - simpl. rewrite pq_items_push. left. }
  destruct Hph as [[Hroom Htau]|[Heq Hcap]].
  - (* the heap is filling up *)
    rewrite heap_full_false by lia. cbn.
    destruct (decide (hsize s + 1 = capacity s)) as [Hlast|Hmore].
    + destruct (Hfull (heap_ s)) as (s' & Hs' & Hrest); try done.
      * intros e' He'. by left.
      * unfold hsize. lia.
      * exists s'. split; [|done]. by destruct s.
    + set (s2 := with_heap (pq_push e (heap_ s)) s).
      assert (hsize s2 = hsize s + 1) as Hs2 by apply hsize_push.
      rewrite heap_full_false by (change (hsize s2 ≠ capacity s); lia).
      exists s2. split; [done|].
      split; [split; [|split; [|split; [split; [|split]|]]]|split; [|left]].
      * left. split; [change (hsize s2 < capacity s); lia|exact Htau].
      * unfold heap_ok. simpl. rewrite pq_items_push. by constructor.
      * exact Htmax.
      * simpl. rewrite pq_items_push. constructor; [simpl; lra|done].
      * intros Habs. change (hsize s2 = capacity s) in Habs. lia.
      * simpl. rewrite pq_items_push, fmap_cons. by constructor.
      * split; [done|]. split; [apply Qle_refl|]. split; [lia|].
        split; intros e' He'.
        -- left. simpl. rewrite pq_items_push. by right.
        -- simpl in He'. rewrite pq_items_push in He'.
           apply elem_of_cons in He' as [->|He']; [right; simpl; lia|by left].
      * simpl. rewrite pq_items_push. left.
  - (* the heap is full: its farthest entry makes room *)
    rewrite heap_full_true by done.
    assert (pq_items (heap_ s) ≠ []) as Hne.
    { rewrite <- pq_size_0. unfold hsize in Heq. lia. }
    destruct (heap_pop_nonempty s Hne) as (x & h' & -> & Htop & Hperm). cbn.
    pose proof (pq_top_max _ _ Htop) as Hxmax.
    rewrite Forall_forall in Hxmax.
    destruct (Hattained Heq) as (e0 & He0 & Htau0).
    assert (tau_ s <= HeapItem.dist x)%Q as Htaux
      by (specialize (Hxmax e0 He0); lra).
    assert (NoDup (HeapItem.item <$> x :: pq_items h')) as Hnd'
      by (by rewrite <- Hperm).
    rewrite fmap_cons in Hnd'. apply NoDup_cons in Hnd' as [Hxnotin Hnd'].
    destruct (Hfull h') as (s' & Hs' & Hrest).
    + intros e' He'. rewrite Hperm. by right.
    + done.
    + rewrite <- Heq. unfold hsize. rewrite (pq_size_items (heap_ s)), Hperm.
      rewrite pq_size_items. simpl. lia.
    + intros e' He'.
      rewrite Hperm in He'. apply elem_of_cons in He' as [->|He']; [|by left].
      right. intros top Htopin.
      apply elem_of_cons in Htopin as [->|Htopin]; [simpl; lra|].
      apply Hxmax. rewrite Hperm. by right.
    + unfold hsize. rewrite (pq_size_items (heap_ s)), Hperm.
      rewrite pq_size_items. simpl. lia.
    + exists s'. split; [exact Hs'|done].
Qed.

(** One guarded recursive call. *)
Lemma descend_inv searchIn items nodes target child a b in_reach s :
  items_ (tree_ s) = items → nodes_ (tree_ s) = nodes → target_ s = target →
  child = link a b → 0 ≤ a → search_inv s →
  (a < b → ∃ nd, nodes !! Z.to_nat a = Some nd
                 ∧ ∃ s', searchIn s nd = Ok s' ∧ searched items target a b s s') →
  (a < b → in_reach s = false → triangle_ok items target →
   ∀ (p : nat) it, a ≤ Z.of_nat p < b → items !! p = Some it →
     (tau_ s <= getDistance it.1 target)%Q) →
  ∃ s', descend searchIn child in_reach s = Ok s' ∧ searched items target a b s s'.
Proof.
  intros Hitems Hnodes Htarget -> Ha Hinv Hrec Hskip. unfold descend.
  destruct (decide (a < b)) as [Hab|Hab].
  - rewrite link_nonempty by done.
    rewrite bool_decide_eq_true_2 by (unfold Node.Leaf; lia).
    destruct (Hrec Hab) as (nd & Hnd & s' & Hs' & Hsearched).
    destruct (in_reach s) eqn:Hin; simpl.
    + rewrite Hnodes, (proj2 (vec_at_Ok _ _ _) (conj Ha Hnd)). cbn.
      by exists s'.
    + exists s. split; [done|]. split; [done|]. split; [apply moved_refl|].
      intros Htri p it Hp Hit. right. simpl. by eapply Hskip.
  - rewrite link_empty by lia. rewrite bool_decide_eq_false_2 by (by intros []).
    simpl. exists s. split; [done|]. split; [done|]. split; [apply moved_refl|].
    intros _ p it Hp. lia.
Qed.

(** A node's own admission followed by the searches of its two subtrees,
    in either order. *)
Lemma searched_node items target lo hi m s s1 sa sb it :
  lo < m ≤ hi → 0 ≤ lo →
  items !! Z.to_nat lo = Some it →
  moved lo (lo + 1) s s1 → settled s1 (entry_for target lo it) →
  (searched items target (lo + 1) m s1 sa ∧ searched items target m hi sa sb)
  ∨ (searched items target m hi s1 sa ∧ searched items target (lo + 1) m sa sb) →
  searched items target lo hi s sb.
Proof.
  intros Hm Hlo Hit Hm1 Hset1 Hsub.
  assert (∀ a b c d, lo + 1 ≤ a → b ≤ hi → lo + 1 ≤ c → d ≤ hi →
            searched items target a b s1 sa → searched items target c d sa sb →
            search_inv sb ∧ moved lo hi s sb
            ∧ (triangle_ok items target →
               settled sb (entry_for target lo it)
               ∧ explored items target a b sb ∧ explored items target c d sb))
    as Hboth.
  { intros a b c d Ha Hb Hc Hd (Hinva & Hma & Hexa) (Hinvb & Hmb & Hexb).
    split; [done|]. split.
    - eapply (moved_trans lo hi lo hi c d); [lia..| |exact Hmb].
      eapply (moved_trans lo hi lo (lo + 1) a b); [lia..|exact Hm1|exact Hma].
    - intros Htri. split; [|split].
      + eapply settled_moved; [exact Hmb|].
        eapply settled_moved; [exact Hma|exact Hset1].
      + eapply explored_moved; [by apply Hexa|exact Hmb].
      + by apply Hexb. }
  destruct Hsub as [[Hsa Hsb]|[Hsa Hsb]].
  - destruct (Hboth (lo + 1) m m hi) as (Hinv & Hmoved & Hex);
      [lia..|done|done|].
    split; [done|]. split; [done|]. intros Htri.
    destruct (Hex Htri) as (Hself & Hleft & Hright). intros p it' Hp Hit'.
    destruct (decide (Z.of_nat p = lo)) as [Heq|Hne].
    + rewrite Heq. rewrite <- Heq, Nat2Z.id in Hit.
      rewrite Hit in Hit'. injection Hit' as <-. exact Hself.
    + destruct (decide (Z.of_nat p < m));
        [apply Hleft|apply Hright]; [lia|done|lia|done].
  - destruct (Hboth m hi (lo + 1) m) as (Hinv & Hmoved & Hex);
      [lia..|done|done|].
    split; [done|]. split; [done|]. intros Htri.
    destruct (Hex Htri) as (Hself & Hright & Hleft). intros p it' Hp Hit'.
    destruct (decide (Z.of_nat p = lo)) as [Heq|Hne].
    + rewrite Heq. rewrite <- Heq, Nat2Z.id in Hit.
      rewrite Hit in Hit'. injection Hit' as <-. exact Hself.
    + destruct (decide (Z.of_nat p < m));
        [apply Hleft|apply Hright]; [lia|done|lia|done].
Qed.

(** On a built tree the search of a subtree returns, whatever the distance
    function, as long as the heap has a capacity of one or more; it keeps
    the invariants, and under the triangle inequalities it settles every item
    of the subtree. *)
Lemma searchInNode_inv items nodes target lo hi :
  covers items nodes lo hi → lo < hi →
  ∀ fuel s nd,
    hi - lo ≤ Z.of_nat fuel →
    items_ (tree_ s) = items → nodes_ (tree_ s) = nodes →
    target_ s = target →
    nodes !! Z.to_nat lo = Some nd →
    search_inv s → fresh lo hi s →
    ∃ s', searchInNode fuel s nd = Ok s' ∧ searched items target lo hi s s'.
Proof.
  induction 1 as [lo hi Hle|lo hi nd0 vp Hlo Hnd Hvp Hitem Hleft Hright
                    Hin Hout HcL IHl HcR IHr];
    intros Hlt fuel s nd Hfuel Hitems Hnodes Htarget Hnd' Hinv Hfresh; [lia|].
  rewrite Hnd in Hnd'. injection Hnd' as <-.
  pose proof (split_at_bounds lo hi Hlo) as Hm.
  set (m := split_at lo hi) in *.
  destruct fuel as [|fuel]; [lia|]. simpl.
  rewrite Hitems, Hitem.
  rewrite (proj2 (vec_at_Ok _ _ _) (conj (proj1 Hlo) Hvp)). cbn.
  destruct (offer_inv s lo vp Hinv (proj1 Hlo)) as (s1 & Hs1 & Hinv1 & Hm1 & Hset1);
    [by rewrite Hitems|eapply fresh_weaken; [| |exact Hfresh]; lia|].
  rewrite Hs1. cbn. rewrite Htarget in Hs1, Hset1 |- *.
  set (dist := getDistance vp.1 target) in *.
  assert (vp ∈ items) as Hvpin by (by eapply list_elem_of_lookup_2).
  assert (fresh (lo + 1) hi s1) as Hfresh1.
  { eapply fresh_moved; [|exact Hm1|lia].
    eapply fresh_weaken; [| |exact Hfresh]; lia. }
  assert (∀ s0, same_query s s0 → search_inv s0 → fresh (lo + 1) m s0 →
            ∃ s', descend (searchInNode fuel) (Node.left nd0)
                    (inner_in_reach dist nd0) s0 = Ok s'
                  ∧ searched items target (lo + 1) m s0 s') as Hgo_left.
  { intros s0 (Htree & Htgt & _) Hinv0 Hfresh0.
    apply descend_inv with nodes; try done; try congruence; [lia| |].
    - intros Hne.
      assert (∃ nd, nodes !! Z.to_nat (lo + 1) = Some nd) as [nd Hnd1].
      { inversion HcL as [|? ? nd]; subst; [lia|]. by exists nd. }
      exists nd. split; [done|].
      apply IHl; try done; try congruence. lia.
    - intros Hne Hfar%Qleb_gt Htri p x Hp Hx.
      pose proof (Hin p x Hp Hx) as Hthr.
      destruct (Htri vp x Hvpin) as [Htri1 _];
        [by eapply list_elem_of_lookup_2|].
      fold dist in Htri1. lra. }
  assert (∀ s0, same_query s s0 → search_inv s0 → fresh m hi s0 →
            ∃ s', descend (searchInNode fuel) (Node.right nd0)
                    (outer_in_reach dist nd0) s0 = Ok s'
                  ∧ searched items target m hi s0 s') as Hgo_right.
  { intros s0 (Htree & Htgt & _) Hinv0 Hfresh0.
    apply descend_inv with nodes; try done; try congruence; [lia| |].
    - intros Hne.
      assert (∃ nd, nodes !! Z.to_nat m = Some nd) as [nd Hnd1].
      { inversion HcR as [|? ? nd]; subst; [lia|]. by exists nd. }
      exists nd. split; [done|].
      apply IHr; try done; try congruence. lia.
    - intros Hne Hfar%Qleb_gt Htri p x Hp Hx.
      pose proof (Hout p x Hp Hx) as Hthr.
      destruct (Htri vp x Hvpin) as [_ Htri2];
        [by eapply list_elem_of_lookup_2|].
      fold dist in Htri2. lra. }
  assert (same_query s s1) as Hq1 by apply Hm1.
  destruct (Qltb dist (Node.threshold nd0)).
  - destruct (Hgo_left s1 Hq1 Hinv1) as (sa & -> & Hsa);
      [eapply fresh_weaken; [| |exact Hfresh1]; lia|]. cbn.
    destruct (Hgo_right sa) as (sb & -> & Hsb).
    { eapply same_query_trans; [exact Hq1|apply Hsa]. }
    { apply Hsa. }
    { eapply fresh_moved; [|apply Hsa|lia].
      eapply fresh_weaken; [| |exact Hfresh1]; lia. }
    exists sb. split; [done|].
    eapply (searched_node items target lo hi m); eauto. lia.
  - destruct (Hgo_right s1 Hq1 Hinv1) as (sa & -> & Hsa);
      [eapply fresh_weaken; [| |exact Hfresh1]; lia|]. cbn.
    destruct (Hgo_left sa) as (sb & -> & Hsb).
    { eapply same_query_trans; [exact Hq1|apply Hsa]. }
    { apply Hsa. }
    { eapply fresh_moved; [|apply Hsa|lia].
      eapply fresh_weaken; [| |exact Hfresh1]; lia. }
    exists sb. split; [done|].
    eapply (searched_node items target lo hi m); eauto. lia.
Qed.
End SearchInvariant.

(** ** What a query returns, whatever the distance function *)

Lemma NoDup_bounded_length (l : list Z) (n : nat) :
  NoDup l → (∀ x, x ∈ l → 0 ≤ x < Z.of_nat n) → (length l ≤ n)%nat.
Proof.
  intros Hnd Hb.
  assert (l ⊆+ seqZ 0 (Z.of_nat n)) as Hsub.
  { apply NoDup_submseteq; [done|]. intros x Hx. apply elem_of_seqZ.
    specialize (Hb x Hx). lia. }
  apply submseteq_length in Hsub. rewrite length_seqZ in Hsub. lia.
Qed.

Lemma Forall2_fmap_eq {A B C} (f : A → C) (g : B → C) l k :
  Forall2 (λ x y, f x = g y) l k → f <$> l = g <$> k.
Proof. induction 1 as [|x y l k Hxy _ IH]; [done|]. csimpl. by f_equal. Qed.

Lemma size_t_of_int_pos k : INT_MIN ≤ k ≤ INT_MAX → k ≠ 0 → 1 ≤ size_t_of_int k.
Proof.
  intros Hk Hne. destruct (decide (0 ≤ k)).
  - rewrite size_t_of_int_nonneg by lia. lia.
  - rewrite size_t_of_int_neg by lia. unfold INT_MIN in Hk. lia.
Qed.

Section QueryInvariant.
Context {T : Type}.
Variable getDistance : T → T → Q.
Context `{!NthElement (T * Z), !UniformRng, !PriorityQueue}.
Implicit Types t : VpTree T.
Implicit Types input : list T.
Implicit Types items : list (T * Z).

#[local] Abbreviation VpTree_new := (VpTree_new getDistance).
#[local] Abbreviation getNearestNeighbors := (getNearestNeighbors getDistance).
#[local] Abbreviation searchInNode := (searchInNode getDistance).
#[local] Abbreviation bruteForce := (bruteForce getDistance).
#[local] Abbreviation below_DBL_MAX := (below_DBL_MAX getDistance).
#[local] Abbreviation metric_among := (metric_among getDistance).
#[local] Abbreviation searched := (searched getDistance).
#[local] Abbreviation result_at := (result_at getDistance).
#[local] Abbreviation all_entries := (all_entries getDistance).
#[local] Abbreviation entry_for := (entry_for getDistance).
#[local] Abbreviation nearer := (λ a b : HeapItem.t,
                                  (HeapItem.dist a <= HeapItem.dist b)%Q).

(** The results of a finished search, entry by entry of the heap it ends
    with, from the nearest to the farthest. *)
Lemma search_entries (s s' : Searcher T) nd :
  root (tree_ s) = Ok nd →
  searchInNode (length (nodes_ (tree_ s))) s nd = Ok s' →
  heap_ok getDistance s →
  ∃ hs rs,
    search getDistance s = Ok rs
    ∧ hs ≡ₚ pq_items (heap_ s')
    ∧ StronglySorted nearer hs
    ∧ Forall2 (result_of (items_ (tree_ s))) hs rs.
Proof.
  intros Hroot Hrun Hok. unfold search. rewrite Hroot. cbn. rewrite Hrun. cbn.
  destruct (searchInNode_sound _ _ _ _ _ Hrun Hok) as [Hok' (Htree & _)].
  destruct (drain_spec getDistance (pq_size (heap_ s')) s' [] Hok' ltac:(lia))
    as (hs & rs0 & -> & Hperm & Hsorted & Hres). cbn.
  exists (reverse hs), (reverse rs0). split; [done|].
  split; [by rewrite reverse_Permutation|]. split.
  - apply (StronglySorted_reverse
             (λ a b, (HeapItem.dist b <= HeapItem.dist a)%Q)), Hsorted.
  - rewrite <- Htree. by apply Forall2_reverse.
Qed.

(** A query with a capacity of one or more on a non-empty tree. *)
Lemma query_run input seed t target k :
  VpTree_new input seed = Ok t → input ≠ [] → 1 ≤ size_t_of_int k →
  ∃ s' hs rs,
    getNearestNeighbors t target k = Ok rs
    ∧ searched (items_ t) target 0 (Z.of_nat (length input))
        (Searcher_new t target k) s'
    ∧ hs ≡ₚ pq_items (heap_ s')
    ∧ StronglySorted nearer hs
    ∧ Forall2 (result_of (items_ t)) hs rs.
Proof.
  intros Hnew Hne Hk.
  destruct (VpTree_new_spec getDistance input seed)
    as (t' & Hnew' & Hperm & Hlen & Hc).
  rewrite Hnew in Hnew'. injection Hnew' as <-.
  destruct (built_root _ _ _ _ Hnew Hne) as (nd & Hroot & Hnd & _).
  assert (0 < Z.of_nat (length input)) as Hn
    by (destruct input; [done|simpl; lia]).
  set (s0 := Searcher_new t target k).
  destruct (searchInNode_inv getDistance (items_ t) (nodes_ t) target
              0 (Z.of_nat (length input)) Hc Hn (length (nodes_ t)) s0 nd)
    as (s' & Hrun & Hsearched); [lia|done..| | |].
  { by apply search_inv_new. }
  { intros e He. unfold s0 in He. simpl in He.
    rewrite pq_items_new in He. by apply elem_of_nil in He. }
  destruct (search_entries s0 s' nd Hroot Hrun (heap_ok_new getDistance t target k))
    as (hs & rs & Hsearch & Hhs & Hsorted & Hres).
  by exists s', hs, rs.
Qed.

Lemma result_of_at items target e r :
  entry_at getDistance items target (HeapItem.item e) e →
  result_of items e r → result_at items target r.
Proof.
  intros (_ & Hnn & it & Hit & Hd) (Hitem & Hdist & it' & Hit' & Hindex).
  rewrite Hit in Hit'. injection Hit' as <-.
  exists it. rewrite Hitem, Hdist. done.
Qed.

(** Every result of a query stands for an item of the tree, at a distance
    below [DBL_MAX]; no two results point at the same item; there are no
    more results than the capacity or the items allow, and they come by
    ascending distance. *)
Lemma query_results input seed t target k :
  VpTree_new input seed = Ok t → input ≠ [] → 1 ≤ size_t_of_int k →
  ∃ rs,
    getNearestNeighbors t target k = Ok rs
    ∧ Forall (λ r, result_at (items_ t) target r
                   ∧ (Result.dist r < DBL_MAX)%Q) rs
    ∧ NoDup (Result.item <$> rs)
    ∧ Z.of_nat (length rs) ≤ size_t_of_int k
    ∧ (length rs ≤ length input)%nat
    ∧ StronglySorted Qle (Result.dist <$> rs).
Proof.
  intros Hnew Hne Hk.
  destruct (query_run input seed t target k Hnew Hne Hk)
    as (s' & hs & rs & Hq & ((Hph & Hok & Htau & Hnd) & Hmoved & _)
        & Hhs & Hsorted & Hres).
  destruct (VpTree_new_spec getDistance input seed)
    as (t' & Hnew' & Hperm & Hlen & Hc).
  rewrite Hnew in Hnew'. injection Hnew' as <-.
  destruct Hmoved as ((Htree & Htgt & Hcount) & _).
  unfold heap_ok in Hok. simpl in Htree, Htgt, Hcount.
  rewrite Htree, Htgt in Hok.
  destruct Htau as (_ & Hbound & _).
  rewrite <- Hhs in Hok, Hbound, Hnd.
  rewrite Forall_forall in Hok, Hbound.
  assert (Result.item <$> rs = HeapItem.item <$> hs) as Hitems.
  { symmetry. apply Forall2_fmap_eq.
    eapply Forall2_impl; [exact Hres|]. by intros e r (-> & _). }
  assert (Result.dist <$> rs = HeapItem.dist <$> hs) as Hdists.
  { symmetry. apply Forall2_fmap_eq.
    eapply Forall2_impl; [exact Hres|]. by intros e r (_ & -> & _). }
  assert (length rs = length hs) as Hlenrs
    by (symmetry; by eapply Forall2_length).
  exists rs. split; [done|]. split; [|split; [|split; [|split]]].
  - apply Forall_forall. intros r [i Hr]%list_elem_of_lookup.
    destruct (Forall2_lookup_r _ _ _ _ _ Hres Hr) as (e & He & Her).
    apply list_elem_of_lookup_2 in He.
    split; [by eapply result_of_at; [apply Hok|]|].
    destruct Her as (_ & -> & _). by apply Hbound.
  - by rewrite Hitems.
  - rewrite Hlenrs, Hhs, <- pq_size_items. fold (hsize s').
    change (size_t_of_int k) with (capacity (Searcher_new t target k)).
    unfold phase_ok, filling, filled, capacity, hsize in *.
    rewrite Hcount in Hph. simpl. destruct Hph as [[]|[]]; lia.
  - rewrite <- (length_fmap Result.item), Hitems.
    apply NoDup_bounded_length; [done|].
    intros p (e & -> & He)%list_elem_of_fmap.
    destruct (Hok e He) as (_ & Hnn & it & Hit & _).
    apply lookup_lt_Some in Hit.
    rewrite Hperm, length_makeItems in Hit. lia.
  - rewrite Hdists.
    by apply (StronglySorted_fmap HeapItem.dist nearer Qle).
Qed.
Lemma built_triangle_ok input seed t target :
  VpTree_new input seed = Ok t → metric_among (target :: input) →
  triangle_ok getDistance (items_ t) target.
Proof.
  intros Hnew Hm a x Ha Hx.
  assert (∀ it, it ∈ items_ t → it.1 ∈ target :: input) as Hin.
  { intros it [p Hp]%list_elem_of_lookup.
    destruct (built_item_origin _ _ _ _ _ _ Hnew Hp) as [_ Hx'].
    right. by eapply list_elem_of_lookup_2. }
  assert (target ∈ target :: input) as Ht by left.
  destruct (Hm a.1 x.1 target) as (_ & _ & Ht1); auto.
  destruct (Hm a.1 target x.1) as (_ & _ & Ht2); auto.
  destruct (Hm target x.1 x.1) as (_ & Hsym & _); auto.
  split; [exact Ht1|]. lra.
Qed.

Lemma all_entries_dists items target :
  HeapItem.dist <$> all_entries items target
  = (λ it, getDistance it.1 target) <$> items.
Proof.
  apply list_eq. intros i. unfold all_entries.
  rewrite !list_lookup_fmap, list_lookup_imap. by destruct (items !! i).
Qed.

Lemma all_entries_NoDup items target : NoDup (all_entries items target).
Proof.
  apply (NoDup_fmap_1 HeapItem.item). apply NoDup_alt. intros i j x.
  unfold all_entries. rewrite !list_lookup_fmap, !list_lookup_imap.
  destruct (items !! i), (items !! j); simpl; try done.
  intros [= <-] [= Hij]. lia.
Qed.

Lemma bruteForce_dists input target items :
  items ≡ₚ makeItems input →
  (λ v : T * Z * Q, v.2) <$> bruteForce input target
  ≡ₚ (λ it, getDistance it.1 target) <$> items.
Proof.
  intros Hperm. rewrite bruteForce_perm, (all_candidates_items getDistance), Hperm.
  by rewrite <- list_fmap_compose.
Qed.

(** The distances of the results of a query are, rank by rank, the
    smallest distances from an item to the target, when the distances among
    the items and the target are those of a metric. *)
Lemma nearest_prefix input seed t target k :
  VpTree_new input seed = Ok t → input ≠ [] → 1 ≤ size_t_of_int k →
  metric_among (target :: input) →
  ∃ rs,
    getNearestNeighbors t target k = Ok rs
    ∧ Forall2 (λ r b, Result.dist r == b.2) rs
        (take (length rs) (bruteForce input target)).
Proof.
  intros Hnew Hne Hk Hmetric.
  destruct (query_run input seed t target k Hnew Hne Hk)
    as (s' & hs & rs & Hq & ((Hph & Hok & Htau & Hnd) & Hmoved & Hex)
        & Hhs & Hsorted & Hres).
  specialize (Hex (built_triangle_ok _ _ _ _ Hnew Hmetric)).
  destruct (VpTree_new_spec getDistance input seed)
    as (t' & Hnew' & Hperm & Hlen & Hc).
  rewrite Hnew in Hnew'. injection Hnew' as <-.
  destruct Hmoved as ((Htree & Htgt & Hcount) & _).
  unfold heap_ok in Hok. simpl in Htree, Htgt, Hcount.
  rewrite Htree, Htgt in Hok.
  destruct Htau as (_ & Hbound & _).
  rewrite <- Hhs in Hok, Hbound, Hnd.
  rewrite Forall_forall in Hok, Hbound.
  set (all := all_entries (items_ t) target).
  assert (∀ e, e ∈ hs → e ∈ all) as Hsub.
  { intros e He. destruct (Hok e He) as (_ & Hnn & it & Hit & Hd).
    replace e with (entry_for target (Z.of_nat (Z.to_nat (HeapItem.item e))) it).
    - by apply (elem_of_lookup_imap_2
                  (λ p it, entry_for target (Z.of_nat p) it)).
    - destruct e as [p d]. simpl in *. unfold entry_for. f_equal; [lia|done]. }
  assert (NoDup hs) as Hndhs by (by eapply NoDup_fmap_1).
  destruct (submseteq_Permutation hs all) as [R HR];
    [by apply NoDup_submseteq|].
  pose proof (all_entries_NoDup (items_ t) target) as Hndall.
  fold all in Hndall. rewrite HR in Hndall.
  apply NoDup_app in Hndall as (_ & Hdisj & _).
  assert (∀ h r, h ∈ hs → r ∈ R → nearer h r) as Hsplit.
  { intros h r Hh Hr.
    assert (HeapItem.dist h <= tau_ s')%Q by (by apply Hbound).
    assert (tau_ s' <= HeapItem.dist r)%Q; [|lra].
    assert (r ∈ all) as Hrall by (rewrite HR; apply elem_of_app; by right).
    apply elem_of_lookup_imap_1 in Hrall as (p & it & -> & Hit).
    destruct (Hex p it) as [Hin|Hfar]; [|done| |done].
    - apply lookup_lt_Some in Hit.
      rewrite Hperm, length_makeItems in Hit. lia.
    - exfalso. rewrite <- Hhs in Hin. by apply (Hdisj _ Hin). }
  set (R' := Reference.sort_by
               (λ a b, Qltb (HeapItem.dist a) (HeapItem.dist b)) R).
  assert (R' ≡ₚ R) as HR' by apply (ReferenceFacts.sort_by_perm HeapItem.dist).
  assert (StronglySorted nearer (hs ++ R')) as Hs1.
  { apply StronglySorted_app_2; [|done|].
    - intros h r Hh Hr. apply Hsplit; [done|]. by rewrite <- HR'.
    - apply (ReferenceFacts.sort_by_sorted HeapItem.dist). }
  assert (Forall2 (λ a b : Q, a == b)
            (HeapItem.dist <$> hs ++ R')
            ((λ v : T * Z * Q, v.2) <$> bruteForce input target)) as Hranks.
  { apply (sorted_permutation_keys (λ q : Q, q)).
    - rewrite HR', <- HR. unfold all. rewrite all_entries_dists.
      symmetry. by apply bruteForce_dists.
    - by apply (StronglySorted_fmap HeapItem.dist nearer).
    - apply (StronglySorted_fmap (λ v : T * Z * Q, v.2)
               (λ a b : T * Z * Q, (a.2 <= b.2)%Q)); [done|].
      apply bruteForce_ascending. }
  assert (Result.dist <$> rs = HeapItem.dist <$> hs) as Hdists.
  { symmetry. apply Forall2_fmap_eq.
    eapply Forall2_impl; [exact Hres|]. by intros e r (_ & -> & _). }
  assert (length rs = length hs) as Hlenrs
    by (symmetry; by eapply Forall2_length).
  exists rs. split; [done|].
  apply (Forall2_fmap Result.dist (λ v : T * Z * Q, v.2) (λ a b : Q, a == b)).
  apply (Forall2_take _ _ _ (length rs)) in Hranks.
  rewrite fmap_app, take_app_length' in Hranks by (by rewrite length_fmap).
  by rewrite Hdists, fmap_take.
Qed.
End QueryInvariant.

(** ** Successive queries *)

Section SuccessiveQueries.
Context {T : Type}.
Variable getDistance : T → T → Q.
Context `{!NthElement (T * Z), !UniformRng, !PriorityQueue}.
Implicit Types t : VpTree T.
Implicit Types s : Searcher T.
Implicit Types input : list T.

#[local] Abbreviation VpTree_new := (VpTree_new getDistance).
#[local] Abbreviation getNearestNeighbors := (getNearestNeighbors getDistance).
#[local] Abbreviation getNearestNeighbors_state :=
  (getNearestNeighbors_state getDistance).
#[local] Abbreviation successive_queries := (successive_queries getDistance).
#[local] Abbreviation search := (search getDistance).
#[local] Abbreviation search_state := (search_state getDistance).










End SuccessiveQueries.

(** ** Properties of the queries *)

Section QueryProperties.
Context {T : Type}.
Variable getDistance : T → T → Q.
Context `{!NthElement (T * Z), !UniformRng, !PriorityQueue}.
Implicit Types t : VpTree T.
Implicit Types input : list T.
Implicit Types items : list (T * Z).

#[local] Abbreviation VpTree_new := (VpTree_new getDistance).
#[local] Abbreviation getNearestNeighbors := (getNearestNeighbors getDistance).
#[local] Abbreviation bruteForce := (bruteForce getDistance).
#[local] Abbreviation below_DBL_MAX := (below_DBL_MAX getDistance).
#[local] Abbreviation metric_among := (metric_among getDistance).
#[local] Abbreviation result_at := (result_at getDistance).

Lemma built_indices_NoDup input seed t :
  VpTree_new input seed = Ok t → NoDup ((items_ t).*2).
Proof.
  intros Hnew.
  destruct (VpTree_new_spec getDistance input seed) as (t' & Hnew' & Hperm & _).
  rewrite Hnew in Hnew'. injection Hnew' as <-.
  rewrite Hperm. apply NoDup_alt. intros i j x.
  rewrite !list_lookup_fmap, !makeItems_lookup.
  destruct (input !! i), (input !! j); simpl; try done.
  intros [= <-] [= Hij]. lia.
Qed.

Lemma no_tiesb_correct input target :
  no_tiesb getDistance input target = true → no_ties getDistance input target.
Proof.
  unfold no_tiesb. rewrite forallb_forall. intros Hall i j x y Hi Hj Hd.
  specialize (Hall (i, x)). rewrite forallb_forall in Hall.
  specialize (Hall ltac:(apply list_elem_of_In;
                         by apply (elem_of_lookup_imap_2 pair)) (j, y)
                   ltac:(apply list_elem_of_In;
                         by apply (elem_of_lookup_imap_2 pair))).
  simpl in Hall. apply Qeq_bool_iff in Hd. rewrite Hd in Hall.
  by apply Nat.eqb_eq.
Qed.

Lemma bruteForce_length input target :
  length (bruteForce input target) = length input.
Proof.
  rewrite (bruteForce_perm getDistance). unfold all_candidates.
  by rewrite length_imap.
Qed.

(** X3: on a non-empty tree a query with a count other than zero returns,
    whatever the distance function: no vector is read outside its bounds and
    the empty heap is never popped.  It returns no more results than there
    are items, and no more than a positive count asks for. *)
Theorem query_returns_for_any_distance input (seed : rng) (target : T) (k : Z) :
  input ≠ [] → INT_MIN ≤ k ≤ INT_MAX → k ≠ 0 →
  ∃ t rs,
    VpTree_new input seed = Ok t
    ∧ getNearestNeighbors t target k = Ok rs
    ∧ (length rs ≤ length input)%nat
    ∧ (0 < k → Z.of_nat (length rs) ≤ k).
Proof.
  intros Hne Hk Hk0.
  destruct (VpTree_new_spec getDistance input seed) as (t & Hnew & _).
  destruct (query_results getDistance input seed t target k Hnew Hne)
    as (rs & Hq & _ & _ & Hcap & Hlen & _); [by apply size_t_of_int_pos|].
  exists t, rs. repeat (split; [done|]).
  intros Hpos. rewrite size_t_of_int_nonneg in Hcap by lia. done.
Qed.

(** X4: the results of a query come by ascending distance, whatever the
    distance function. *)
Theorem results_ascend_for_any_distance input (seed : rng) (target : T)
    (k : Z) :
  input ≠ [] → INT_MIN ≤ k ≤ INT_MAX → k ≠ 0 →
  ∃ t rs,
    VpTree_new input seed = Ok t
    ∧ getNearestNeighbors t target k = Ok rs
    ∧ StronglySorted Qle (Result.dist <$> rs).
Proof.
  intros Hne Hk Hk0.
  destruct (VpTree_new_spec getDistance input seed) as (t & Hnew & _).
  destruct (query_results getDistance input seed t target k Hnew Hne)
    as (rs & Hq & _ & _ & _ & _ & Hsorted); [by apply size_t_of_int_pos|].
  by exists t, rs.
Qed.

(** X5: the [dist] field of every result is the distance from the input item
    at the result's [index], which is the item the result points at, to
    the target, and it is below [DBL_MAX]: an item at [DBL_MAX] or
    farther is never returned. *)
Theorem result_dist_is_distance_to_target input (seed : rng) (target : T)
    (k : Z) :
  input ≠ [] → INT_MIN ≤ k ≤ INT_MAX → k ≠ 0 →
  ∃ t rs,
    VpTree_new input seed = Ok t
    ∧ getNearestNeighbors t target k = Ok rs
    ∧ ∀ r, r ∈ rs →
        ∃ x, 0 ≤ Result.index r
             ∧ input !! Z.to_nat (Result.index r) = Some x
             ∧ deref t r = Ok x
             ∧ Result.dist r = getDistance x target
             ∧ (Result.dist r < DBL_MAX)%Q.
Proof.
  intros Hne Hk Hk0.
  destruct (VpTree_new_spec getDistance input seed) as (t & Hnew & _).
  destruct (query_results getDistance input seed t target k Hnew Hne)
    as (rs & Hq & Hat & _); [by apply size_t_of_int_pos|].
  exists t, rs. repeat (split; [done|]). intros r Hr.
  rewrite Forall_forall in Hat.
  destruct (Hat r Hr) as ((it & Hnn & Hit & Hindex & Hdist) & Hmax).
  destruct (built_item_origin getDistance _ _ _ _ _ Hnew Hit) as [Horig Hx].
  exists it.1. rewrite Hindex. repeat (split; [done|]).
  split; [|done]. unfold deref.
  by rewrite (proj2 (vec_at_Ok _ _ _) (conj Hnn Hit)).
Qed.

(** X6: no item is returned twice: the results of a query have pairwise
    different indices, and point at pairwise different items. *)
Theorem results_are_distinct_items input (seed : rng) (target : T) (k : Z) :
  input ≠ [] → INT_MIN ≤ k ≤ INT_MAX → k ≠ 0 →
  ∃ t rs,
    VpTree_new input seed = Ok t
    ∧ getNearestNeighbors t target k = Ok rs
    ∧ NoDup (Result.index <$> rs)
    ∧ NoDup (Result.item <$> rs).
Proof.
  intros Hne Hk Hk0.
  destruct (VpTree_new_spec getDistance input seed) as (t & Hnew & _).
  destruct (query_results getDistance input seed t target k Hnew Hne)
    as (rs & Hq & Hat & Hnd & _); [by apply size_t_of_int_pos|].
  exists t, rs. repeat (split; [done|]). split; [|done].
  rewrite Forall_forall in Hat.
  pose proof (built_indices_NoDup _ _ _ Hnew) as Hidx.
  apply NoDup_fmap_2_strong; [|by eapply NoDup_fmap_1].
  intros r1 r2 Hr1 Hr2 Heq.
  destruct (Hat r1 Hr1) as ((it1 & Hnn1 & Hit1 & Hindex1 & Hdist1) & _).
  destruct (Hat r2 Hr2) as ((it2 & Hnn2 & Hit2 & Hindex2 & Hdist2) & _).
  assert (Z.to_nat (Result.item r1) = Z.to_nat (Result.item r2)) as Hpos.
  { eapply (NoDup_lookup _ _ _ (Result.index r1) Hidx);
      rewrite list_lookup_fmap; [by rewrite Hit1, Hindex1|].
    by rewrite Hit2, Heq, Hindex2. }
  rewrite Hpos, Hit2 in Hit1. injection Hit1 as <-.
  destruct r1, r2. simpl in *. f_equal; [lia|done|congruence].
Qed.

(** X1: the k nearest neighbours: when the distances among the items and the
    target are those of a metric, non-negative and below [DBL_MAX], a query
    with a count [1 <= k <= INT_MAX] on a tree over n >= 1 items returns
    [min(k, n)] results whose distances are, rank by rank, the [min(k, n)]
    smallest distances from an item to the target: those of the first
    entries of the brute-force list. *)
Theorem query_returns_the_k_nearest input (seed : rng) (target : T) (k : Z) :
  input ≠ [] → 1 ≤ k ≤ INT_MAX →
  below_DBL_MAX input target → metric_among (target :: input) →
  ∃ t rs,
    VpTree_new input seed = Ok t
    ∧ getNearestNeighbors t target k = Ok rs
    ∧ Z.of_nat (length rs) = Z.min k (Z.of_nat (length input))
    ∧ Forall2 (λ r b, Result.dist r == b.2) rs
        (take (Z.to_nat k) (bruteForce input target)).
Proof.
  intros Hne Hk Hb Hmetric.
  destruct (VpTree_new_spec getDistance input seed) as (t & Hnew & _).
  assert (size_t_of_int k = k) as Hcap by (apply size_t_of_int_nonneg; lia).
  destruct (nearest_prefix getDistance input seed t target k Hnew Hne)
    as (rs & Hq & Hranks); [lia|done|].
  destruct (query_spec getDistance input seed t target k Hnew Hne Hb)
    as (rs' & views & Hq' & Hlen & _); [lia|].
  rewrite Hq in Hq'. injection Hq' as <-. rewrite Hcap in Hlen.
  exists t, rs. repeat (split; [done|]). split; [lia|].
  destruct (decide (k ≤ Z.of_nat (length input))).
  - by replace (Z.to_nat k) with (length rs) by lia.
  - rewrite take_ge in Hranks by (rewrite bruteForce_length; lia).
    by rewrite take_ge by (rewrite bruteForce_length; lia).
Qed.

(** X2: when no two items are at the same distance from the target, the
    results are the k nearest items themselves: rank by rank, each result
    carries the index, points at the item and has the distance of the entry
    of the brute-force list. *)
Theorem query_returns_the_nearest_items input (seed : rng) (target : T)
    (k : Z) :
  input ≠ [] → 1 ≤ k ≤ INT_MAX →
  below_DBL_MAX input target → metric_among (target :: input) →
  no_ties getDistance input target →
  ∃ t rs,
    VpTree_new input seed = Ok t
    ∧ getNearestNeighbors t target k = Ok rs
    ∧ Forall2 (λ r b, Result.index r = b.1.2
                      ∧ deref t r = Ok b.1.1
                      ∧ Result.dist r = b.2) rs
        (take (Z.to_nat k) (bruteForce input target)).
Proof.
  intros Hne Hk Hb Hmetric Hties.
  destruct (VpTree_new_spec getDistance input seed) as (t & Hnew & _).
  assert (size_t_of_int k = k) as Hcap by (apply size_t_of_int_nonneg; lia).
  destruct (nearest_prefix getDistance input seed t target k Hnew Hne)
    as (rs & Hq & Hranks); [lia|done|].
  destruct (query_spec getDistance input seed t target k Hnew Hne Hb)
    as (rs' & views & Hq' & Hlen & _); [lia|].
  rewrite Hq in Hq'. injection Hq' as <-. rewrite Hcap in Hlen.
  destruct (query_results getDistance input seed t target k Hnew Hne)
    as (rs' & Hq' & Hat & _); [lia|].
  rewrite Hq in Hq'. injection Hq' as <-.
  exists t, rs. repeat (split; [done|]).
  assert (take (Z.to_nat k) (bruteForce input target)
          = take (length rs) (bruteForce input target)) as ->.
  { destruct (decide (k ≤ Z.of_nat (length input)));
      [f_equal; lia|].
    by rewrite !take_ge by (rewrite bruteForce_length; lia). }
  apply Forall2_same_length_lookup_2; [by eapply Forall2_length|].
  intros i r b Hr Hbi.
  pose proof (Forall2_lookup_lr _ _ _ _ _ _ Hranks Hr Hbi) as Hdist.
  rewrite Forall_forall in Hat.
  destruct (Hat r) as ((it & Hnn & Hit & Hindex & Hd) & _);
    [by eapply list_elem_of_lookup_2|].
  destruct (built_item_origin getDistance _ _ _ _ _ Hnew Hit) as [Horig Hx].
  assert (b ∈ all_candidates getDistance input target) as Hball.
  { rewrite <- (bruteForce_perm getDistance).
    apply lookup_take_Some in Hbi as [Hbi _].
    by eapply list_elem_of_lookup_2. }
  apply elem_of_lookup_imap_1 in Hball as (j & x & -> & Hj).
  simpl in Hdist |- *. rewrite Hd in Hdist.
  pose proof (Hties _ _ _ _ Hx Hj Hdist) as Hij.
  rewrite Hij, Hj in Hx. injection Hx as Hx.
  unfold deref. rewrite (proj2 (vec_at_Ok _ _ _) (conj Hnn Hit)). cbn.
  rewrite Hindex, Hd, <- Hx. repeat split. lia.
Qed.

(** X7: the random choice of the vantage points changes no distance of an
    answer: two trees built over the same input from different seeds return,
    for the same query, results with the same distances rank by rank. *)
Theorem seed_changes_no_result_distance input (seed1 seed2 : rng)
    (target : T) (k : Z) :
  input ≠ [] → 1 ≤ k ≤ INT_MAX →
  below_DBL_MAX input target → metric_among (target :: input) →
  ∃ t1 t2 rs1 rs2,
    VpTree_new input seed1 = Ok t1
    ∧ VpTree_new input seed2 = Ok t2
    ∧ getNearestNeighbors t1 target k = Ok rs1
    ∧ getNearestNeighbors t2 target k = Ok rs2
    ∧ Forall2 (λ r1 r2, Result.dist r1 == Result.dist r2) rs1 rs2.
Proof.
  intros Hne Hk Hb Hmetric.
  destruct (VpTree_new_spec getDistance input seed1) as (t1 & Hnew1 & _).
  destruct (VpTree_new_spec getDistance input seed2) as (t2 & Hnew2 & _).
  assert (size_t_of_int k = k) as Hcap by (apply size_t_of_int_nonneg; lia).
  destruct (nearest_prefix getDistance input seed1 t1 target k Hnew1 Hne)
    as (rs1 & Hq1 & Hranks1); [lia|done|].
  destruct (nearest_prefix getDistance input seed2 t2 target k Hnew2 Hne)
    as (rs2 & Hq2 & Hranks2); [lia|done|].
  destruct (query_spec getDistance input seed1 t1 target k Hnew1 Hne Hb)
    as (rs1' & views1 & Hq1' & Hlen1 & _); [lia|].
  destruct (query_spec getDistance input seed2 t2 target k Hnew2 Hne Hb)
    as (rs2' & views2 & Hq2' & Hlen2 & _); [lia|].
  rewrite Hq1 in Hq1'. injection Hq1' as <-.
  rewrite Hq2 in Hq2'. injection Hq2' as <-.
  exists t1, t2, rs1, rs2. repeat (split; [done|]).
  replace (length rs2) with (length rs1) in Hranks2 by lia.
  apply Forall2_flip in Hranks1.
  eapply Forall2_compose; [|exact Hranks1|apply Forall2_flip; exact Hranks2].
  intros b r1 r2 H1 H2. simpl in *. by rewrite H1, H2.
Qed.
End QueryProperties.

(** ** The depth of the recursions *)

Lemma bind_fuel_mono {A B} (m m' : outcome A) (g g' : A → outcome B) :
  m ≫= g ≠ OutOfFuel →
  (m ≠ OutOfFuel → m' = m) →
  (∀ a, m = Ok a → g a ≠ OutOfFuel → g' a = g a) →
  m' ≫= g' = m ≫= g.
Proof.
  intros Hrun Hm Hg. destruct m as [a| |]; [| |done].
  - rewrite Hm by done. cbn in *. by apply Hg.
  - by rewrite Hm.
Qed.

Lemma pow2_succ (d : nat) : 2 ^ Z.of_nat (S d) = 2 * 2 ^ Z.of_nat d.
Proof. rewrite Nat2Z.inj_succ. apply Z.pow_succ_r. lia. Qed.

Lemma pow2_pos (d : nat) : 0 < 2 ^ Z.of_nat d.
Proof. apply Z.pow_pos_nonneg; lia. Qed.

(** The two parts of a range of two items or more, of at most [2 ^ (d + 1)]
    items, have at most [2 ^ d] items each. *)
Lemma median_halves lo hi (d : nat) :
  0 ≤ lo → lo + 2 ≤ hi → hi - lo ≤ 2 ^ Z.of_nat (S d) →
  (hi + lo) ÷ 2 - (lo + 1) ≤ 2 ^ Z.of_nat d
  ∧ hi - (hi + lo) ÷ 2 ≤ 2 ^ Z.of_nat d.
Proof.
  intros Hlo Htwo Hsize. rewrite pow2_succ in Hsize.
  rewrite Z.quot_div_nonneg by lia.
  pose proof (Z.div_mod (hi + lo) 2 ltac:(lia)).
  pose proof (Z.mod_pos_bound (hi + lo) 2 ltac:(lia)). lia.
Qed.

Lemma split_at_halves lo hi (d : nat) :
  0 ≤ lo < hi → hi - lo ≤ 2 ^ Z.of_nat (S d) →
  split_at lo hi - (lo + 1) ≤ 2 ^ Z.of_nat d
  ∧ hi - split_at lo hi ≤ 2 ^ Z.of_nat d.
Proof.
  intros Hlo Hsize. pose proof (pow2_pos d).
  unfold split_at. case_decide; [lia|].
  apply median_halves; [lia..|done].
Qed.

Lemma log2_up_covers (n : nat) :
  Z.of_nat n ≤ 2 ^ Z.of_nat (Z.to_nat (Z.log2_up (Z.of_nat n))).
Proof.
  rewrite Z2Nat.id by apply Z.log2_up_nonneg.
  destruct (decide (Z.of_nat n ≤ 1)) as [Hsmall|Hbig].
  - pose proof (Z.pow_pos_nonneg 2 (Z.log2_up (Z.of_nat n)) ltac:(lia)
                  (Z.log2_up_nonneg _)). lia.
  - apply Z.log2_up_spec. lia.
Qed.

Section BuilderDepth.
Context {T : Type}.
Variable getDistance : T → T → Q.
Context `{!NthElement (T * Z), !UniformRng}.
Implicit Types t : VpTree T.

#[local] Abbreviation makeTree := (makeTree getDistance).

Lemma vec_set_fuel {A} (v : list A) i x : vec_set v i x ≠ OutOfFuel.
Proof. unfold vec_set. apply bind_fuel; [apply vec_at_fuel|done]. Qed.

Lemma selectRoot_fuel t lower upper : selectRoot t lower upper ≠ OutOfFuel.
Proof.
  unfold selectRoot. destruct (uniform_int _ _ _) as [r g].
  apply bind_fuel; [apply vec_at_fuel|]. intros a _.
  apply bind_fuel; [apply vec_at_fuel|]. intros b _.
  apply bind_fuel; [apply vec_set_fuel|]. intros v _.
  apply bind_fuel; [apply vec_set_fuel|]. done.
Qed.

Lemma partitionByDistance_fuel t lower pos upper :
  partitionByDistance getDistance t lower pos upper ≠ OutOfFuel.
Proof.
  unfold partitionByDistance. case_decide; [|done].
  apply bind_fuel; [apply vec_at_fuel|]. done.
Qed.

Lemma update_node_fuel t node f : update_node t node f ≠ OutOfFuel.
Proof.
  unfold update_node. apply bind_fuel; [apply vec_at_fuel|]. intros nd _.
  apply bind_fuel; [apply vec_set_fuel|]. done.
Qed.

(** [makeTree] on a range of at most [2 ^ d] items nests at most [d + 1]
    calls, in any state. *)
Lemma makeTree_depth (d : nat) : ∀ fuel t lower upper,
  0 ≤ lower → upper - lower ≤ 2 ^ Z.of_nat d → (d < fuel)%nat →
  makeTree fuel t lower upper ≠ OutOfFuel.
Proof.
  induction d as [|d IH]; intros fuel t lower upper Hlo Hsize Hfuel;
    (destruct fuel as [|fuel]; [lia|]); rewrite makeTree_unfold;
    (case_decide; [done|]); (case_decide; [done|]).
  { simpl in Hsize. lia. }
  destruct (median_halves lower upper d) as [Hleft Hright]; [lia..|done|].
  destruct (split_at_median lower upper) as [_ Hm]; [lia..|].
  apply bind_fuel; [apply selectRoot_fuel|]. intros t1 _. cbv zeta.
  apply bind_fuel; [apply partitionByDistance_fuel|]. intros t2 _.
  destruct (makeNode t2 lower) as [node t3].
  apply bind_fuel; [apply vec_at_fuel|]. intros vp _.
  apply bind_fuel; [apply vec_at_fuel|]. intros m _.
  apply bind_fuel; [apply update_node_fuel|]. intros t4 _.
  apply bind_fuel; [apply IH; lia|]. intros [l t5] _.
  apply bind_fuel; [apply update_node_fuel|]. intros t6 _.
  apply bind_fuel; [apply IH; lia|]. intros [r t7] _.
  apply bind_fuel; [apply update_node_fuel|]. done.
Qed.

(** More fuel does not change what [makeTree] returns. *)
Lemma makeTree_fuel_mono fuel : ∀ fuel' t lower upper,
  (fuel ≤ fuel')%nat → makeTree fuel t lower upper ≠ OutOfFuel →
  makeTree fuel' t lower upper = makeTree fuel t lower upper.
Proof.
  induction fuel as [|fuel IH]; intros fuel' t lower upper Hle Hrun; [done|].
  destruct fuel' as [|fuel']; [lia|].
  rewrite (makeTree_unfold _ fuel) in Hrun |- *.
  rewrite (makeTree_unfold _ fuel').
  destruct (decide (upper ≤ lower)); [done|].
  destruct (decide (lower + 1 = upper)); [done|].
  apply bind_fuel_mono; [done|done|]. intros t1 _ Hrun1. cbv zeta in *.
  apply bind_fuel_mono; [done|done|]. intros t2 _ Hrun2.
  destruct (makeNode t2 lower) as [node t3].
  apply bind_fuel_mono; [done|done|]. intros vp _ Hrun3.
  apply bind_fuel_mono; [done|done|]. intros m _ Hrun4.
  apply bind_fuel_mono; [done|done|]. intros t4 _ Hrun5.
  apply bind_fuel_mono; [done|apply IH; lia|]. intros [l t5] _ Hrun6.
  apply bind_fuel_mono; [done|done|]. intros t6 _ Hrun7.
  apply bind_fuel_mono; [done|apply IH; lia|]. intros [r t7] _ Hrun8.
  done.
Qed.
End BuilderDepth.

Section SearchDepth.
Context {T : Type}.
Variable getDistance : T → T → Q.
Context `{!UniformRng, !PriorityQueue}.
Implicit Types s : Searcher T.
Implicit Types items : list (T * Z).
Implicit Types nodes : list Node.t.

#[local] Abbreviation searchInNode := (searchInNode getDistance).
#[local] Abbreviation covers := (covers getDistance).

(** The search of the subtree of a range of at most [2 ^ d] items nests at
    most [d + 1] calls of [searchInNode]. *)
Lemma searchInNode_depth items nodes lo hi :
  covers items nodes lo hi → lo < hi →
  ∀ (d fuel : nat) s nd,
    hi - lo ≤ 2 ^ Z.of_nat d → (d < fuel)%nat →
    items_ (tree_ s) = items → nodes_ (tree_ s) = nodes →
    nodes !! Z.to_nat lo = Some nd →
    searchInNode fuel s nd ≠ OutOfFuel.
Proof.
  induction 1 as [lo hi Hle|lo hi nd0 vp Hlo Hnd Hvp Hitem Hleft Hright
                    Hin Hout HcL IHl HcR IHr];
    intros Hlt d fuel s nd Hsize Hfuel Hitems Hnodes Hnd'; [lia|].
  rewrite Hnd in Hnd'. injection Hnd' as <-.
  pose proof (split_at_bounds lo hi Hlo) as Hm.
  assert (∀ a b, (a = lo + 1 ∧ b = split_at lo hi) ∨ (a = split_at lo hi ∧ b = hi) →
            a < b → ∃ d', d = S d' ∧ b - a ≤ 2 ^ Z.of_nat d') as Hhalf.
  { intros a b Hab Hne. destruct d as [|d'].
    - simpl in Hsize. lia.
    - exists d'. split; [done|].
      destruct (split_at_halves lo hi d' Hlo Hsize). lia. }
  set (m := split_at lo hi) in *.
  destruct fuel as [|fuel]; [lia|]. simpl.
  apply bind_fuel; [apply vec_at_fuel|]. intros it _.
  apply bind_fuel; [apply offer_fuel|]. intros s1 Hs1%offer_same_query.
  assert (∀ s0 in_reach, same_query s s0 →
            descend (searchInNode fuel) (Node.left nd0) in_reach s0
            ≠ OutOfFuel) as Hgo_left.
  { intros s0 in_reach (Htree & _). apply descend_fuel.
    rewrite Hleft, Htree, Hnodes. intros nd Hne [_ Hat]%vec_at_Ok.
    destruct (decide (lo + 1 < m)) as [Hlm|Hlm];
      [|by rewrite link_empty in Hne by lia].
    rewrite link_nonempty in Hat by done.
    destruct (Hhalf (lo + 1) m) as (d' & -> & Hd'); [by left|done|].
    apply (IHl Hlm d'); [done|lia|congruence..|done]. }
  assert (∀ s0 in_reach, same_query s s0 →
            descend (searchInNode fuel) (Node.right nd0) in_reach s0
            ≠ OutOfFuel) as Hgo_right.
  { intros s0 in_reach (Htree & _). apply descend_fuel.
    rewrite Hright, Htree, Hnodes. intros nd Hne [_ Hat]%vec_at_Ok.
    destruct (decide (m < hi)) as [Hmh|Hmh];
      [|by rewrite link_empty in Hne by lia].
    rewrite link_nonempty in Hat by done.
    destruct (Hhalf m hi) as (d' & -> & Hd'); [by right|done|].
    apply (IHr Hmh d'); [done|lia|congruence..|done]. }
  destruct (Qltb _ _).
  - apply bind_fuel; [by apply Hgo_left|]. intros s2 Hs2.
    apply Hgo_right. eapply same_query_trans; [exact Hs1|].
    eapply descend_same_query; [apply searchInNode_same_query|exact Hs2].
  - apply bind_fuel; [by apply Hgo_right|]. intros s2 Hs2.
    apply Hgo_left. eapply same_query_trans; [exact Hs1|].
    eapply descend_same_query; [apply searchInNode_same_query|exact Hs2].
Qed.

Lemma descend_fuel_mono
    (searchIn searchIn' : Searcher T → Node.t → outcome (Searcher T))
    child in_reach s :
  (∀ nd, searchIn s nd ≠ OutOfFuel → searchIn' s nd = searchIn s nd) →
  descend searchIn child in_reach s ≠ OutOfFuel →
  descend searchIn' child in_reach s = descend searchIn child in_reach s.
Proof.
  intros Hrec. unfold descend. destruct (_ && _); [|done].
  intros Hrun. apply bind_fuel_mono; [done|done|].
  intros nd _. apply Hrec.
Qed.

(** More fuel does not change what [searchInNode] returns. *)
Lemma searchInNode_fuel_mono fuel : ∀ fuel' s nd,
  (fuel ≤ fuel')%nat → searchInNode fuel s nd ≠ OutOfFuel →
  searchInNode fuel' s nd = searchInNode fuel s nd.
Proof.
  induction fuel as [|fuel IH]; intros fuel' s nd Hle Hrun; [done|].
  destruct fuel' as [|fuel']; [lia|]. simpl in Hrun |- *.
  apply bind_fuel_mono; [done|done|]. intros it _ Hrun1.
  apply bind_fuel_mono; [done|done|]. intros s1 _ Hrun2.
  assert (∀ child in_reach s0,
            descend (searchInNode fuel) child in_reach s0 ≠ OutOfFuel →
            descend (searchInNode fuel') child in_reach s0
            = descend (searchInNode fuel) child in_reach s0) as Hd.
  { intros child in_reach s0. apply descend_fuel_mono.
    intros nd0. apply IH. lia. }
  destruct (Qltb _ _).
  - apply bind_fuel_mono; [done| |]; [by apply Hd|].
    intros s2 _. apply Hd.
  - apply bind_fuel_mono; [done| |]; [by apply Hd|].
    intros s2 _. apply Hd.
Qed.
End SearchDepth.

(** ** Properties of the builder and of the shape of the tree *)

Lemma eq_Permutation {A} (l k : list A) : l = k → l ≡ₚ k.
Proof. by intros ->. Qed.

Section BuildProperties.
Context {T : Type}.
Variable getDistance : T → T → Q.
Context `{!NthElement (T * Z), !UniformRng, !PriorityQueue}.
Implicit Types t : VpTree T.
Implicit Types input : list T.

#[local] Abbreviation VpTree_new := (VpTree_new getDistance).
#[local] Abbreviation makeTree := (makeTree getDistance).
#[local] Abbreviation searchInNode := (searchInNode getDistance).

(** X9: the constructor loses and duplicates nothing: the items of the tree
    are the input items, each paired with its position in the input, in
    some order. *)
Theorem built_tree_holds_the_indexed_input input (seed : rng) :
  ∃ t, VpTree_new input seed = Ok t
       ∧ items_ t ≡ₚ imap (λ i x, (x, Z.of_nat i)) input
       ∧ (items_ t).*1 ≡ₚ input
       ∧ (items_ t).*2 ≡ₚ seqZ 0 (Z.of_nat (length input)).
Proof.
  destruct (VpTree_new_spec getDistance input seed) as (t & Hnew & Hperm & _).
  exists t. split; [done|]. rewrite Hperm, makeItems_imap.
  split; [done|]. split.
  - rewrite fmap_imap. apply eq_Permutation, list_eq. intros i.
    rewrite list_lookup_imap. by destruct (input !! i).
  - rewrite fmap_imap. apply eq_Permutation, list_eq. intros i.
    rewrite list_lookup_imap.
    destruct (input !! i) as [x|] eqn:Hx; simpl.
    + apply lookup_lt_Some in Hx. rewrite lookup_seqZ_lt by lia.
      f_equal; lia.
    + apply lookup_ge_None in Hx. by rewrite lookup_seqZ_ge by lia.
Qed.

(** X10: [makeTree] on a valid range, in any state, stays in its range: it
    permutes the items of the range and leaves the others where they are,
    it appends one node per item of the range and changes no node that
    existed, and it returns the index of the first node it appends, or
    [Leaf] for an empty range. *)
Theorem makeTree_stays_in_its_range (fuel : nat) t (lower upper : Z) :
  0 ≤ lower → upper ≤ Z.of_nat (length (items_ t)) →
  Z.max 0 (upper - lower) < Z.of_nat fuel →
  ∃ node t',
    makeTree fuel t lower upper = Ok (node, t')
    ∧ items_ t' ≡ₚ items_ t
    ∧ (∀ p : nat, ¬ (lower ≤ Z.of_nat p < upper) →
         items_ t' !! p = items_ t !! p)
    ∧ (∃ new, nodes_ t' = nodes_ t ++ new
              ∧ Z.of_nat (length new) = Z.max 0 (upper - lower))
    ∧ node = (if decide (lower < upper) then Z.of_nat (length (nodes_ t))
              else Node.Leaf).
Proof.
  intros Hlo Hup Hfuel.
  destruct (makeTree_spec getDistance fuel t lower upper Hlo Hup Hfuel)
    as (t' & Hmk & [Hperm Hout] & Hnew & _).
  by exists (child_index (Z.of_nat (length (nodes_ t))) lower upper), t'.
Qed.

(** X11: in a built tree every child link is [Leaf] or the index of a later
    node: the left child of node [i], when there is one, is node [i + 1],
    the right child comes after it, and a node without a right child has no
    left child either. *)
Theorem child_links_point_forward input (seed : rng) :
  ∃ t, VpTree_new input seed = Ok t
       ∧ ∀ (i : nat) nd,
           nodes_ t !! i = Some nd →
           (Node.left nd = Node.Leaf ∨ Node.left nd = Z.of_nat i + 1)
           ∧ (Node.right nd = Node.Leaf ∨ Z.of_nat i < Node.right nd)
           ∧ Node.left nd < Z.of_nat (length (nodes_ t))
           ∧ Node.right nd < Z.of_nat (length (nodes_ t))
           ∧ (Node.left nd ≠ Node.Leaf → Node.left nd < Node.right nd).
Proof.
  destruct (VpTree_new_spec getDistance input seed)
    as (t & Hnew & _ & Hlen & Hc).
  exists t. split; [done|]. intros i nd Hnd.
  assert (0 ≤ Z.of_nat i < Z.of_nat (length input)) as Hi
    by (apply lookup_lt_Some in Hnd; lia).
  destruct (covers_descend _ _ _ _ _ _ Hc Hi) as (hi & Hhi & Hc').
  inversion Hc' as [|? ? nd0 vp0 Hlo Hnd0 Hvp0 Hitem Hleft Hright];
    subst; [lia|].
  rewrite Nat2Z.id in Hnd0. rewrite Hnd in Hnd0. injection Hnd0 as <-.
  rewrite Hleft, Hright, Hlen.
  pose proof (split_at_bounds _ _ Hlo) as Hm.
  assert (split_at (Z.of_nat i) hi = hi → Z.of_nat i + 1 = hi) as Hsingle.
  { intros Heq. destruct (decide (Z.of_nat i + 1 = hi)); [done|].
    destruct (split_at_median (Z.of_nat i) hi); lia. }
  unfold link, child_index, Node.Leaf. repeat case_decide; lia.
Qed.

(** X12: the builder's recursion is shallow: room for [⌈log2 n⌉ + 1]
    nested calls of [makeTree] is enough to build the tree the constructor
    returns. *)
Theorem build_recursion_is_logarithmic input (seed : rng) :
  ∃ t node,
    VpTree_new input seed = Ok t
    ∧ makeTree (S (Z.to_nat (Z.log2_up (Z.of_nat (length input)))))
        (mkVpTree (makeItems input) [] seed) 0 (Z.of_nat (length input))
      = Ok (node, t).
Proof.
  set (n := length input). set (d := Z.to_nat (Z.log2_up (Z.of_nat n))).
  set (t0 := mkVpTree (makeItems input) [] seed).
  assert (makeTree (S d) t0 0 (Z.of_nat n) ≠ OutOfFuel) as Hrun.
  { apply (makeTree_depth getDistance d); [lia| |lia].
    rewrite Z.sub_0_r. apply log2_up_covers. }
  assert (d ≤ n)%nat as Hdn.
  { unfold d. pose proof (Z.log2_up_le_lin (Z.of_nat n) ltac:(lia)). lia. }
  pose proof (makeTree_fuel_mono getDistance (S d) (S n) t0 0 (Z.of_nat n)
                ltac:(lia) Hrun) as Hsame.
  destruct (makeTree_spec getDistance (S n) t0 0 (Z.of_nat n))
    as (t & Hmk & _);
    [lia|unfold t0, n; simpl; rewrite length_makeItems; lia|lia|].
  unfold VpTree_new. cbv zeta. cbn [items_].
  rewrite length_makeItems. fold n t0. rewrite Hmk. rewrite Hsame in Hmk.
  by eexists t, _.
Qed.

(** X13: the recursion of the search is shallow too: on a tree over
    n >= 1 items, room for [⌈log2 n⌉ + 1] nested calls of [searchInNode] is
    enough for the search from the root, which then does what the search of
    [getNearestNeighbors] does. *)
Theorem search_recursion_is_logarithmic input (seed : rng) (target : T)
    (k : Z) :
  input ≠ [] →
  ∃ t nd,
    VpTree_new input seed = Ok t
    ∧ root t = Ok nd
    ∧ searchInNode (S (Z.to_nat (Z.log2_up (Z.of_nat (length input)))))
        (Searcher_new t target k) nd ≠ OutOfFuel
    ∧ searchInNode (S (Z.to_nat (Z.log2_up (Z.of_nat (length input)))))
        (Searcher_new t target k) nd
      = searchInNode (length (nodes_ t)) (Searcher_new t target k) nd.
Proof.
  intros Hne.
  destruct (VpTree_new_spec getDistance input seed)
    as (t & Hnew & _ & Hlen & Hc).
  destruct (built_root getDistance _ _ _ Hnew Hne) as (nd & Hroot & Hnd & _).
  assert (0 < Z.of_nat (length input)) as Hn
    by (destruct input; [done|simpl; lia]).
  set (d := Z.to_nat (Z.log2_up (Z.of_nat (length input)))).
  assert (searchInNode (S d) (Searcher_new t target k) nd ≠ OutOfFuel) as Hrun.
  { apply (searchInNode_depth getDistance (items_ t) (nodes_ t)
             0 (Z.of_nat (length input)) Hc Hn d); try done; [|lia].
    rewrite Z.sub_0_r. apply log2_up_covers. }
  exists t, nd. repeat (split; [done|]).
  symmetry. apply searchInNode_fuel_mono; [|done].
  pose proof (Z.log2_up_lt_lin (Z.of_nat (length input)) ltac:(lia)). lia.
Qed.
End BuildProperties.

(** ** The default metric *)

Section Metric.
Context `{!Sqrt}.

#[local] Abbreviation sq_diff := (λ lhs rhs : Q, (lhs - rhs) * (lhs - rhs))%Q.

Lemma std_sqrt_proper x y : x == y → std_sqrt x == std_sqrt y.
Proof.
  intros Hxy. apply Qle_antisym; apply std_sqrt_mono; rewrite Hxy; apply Qle_refl.
Qed.

Lemma transform_defined op v1 : ∀ v2,
  (length v1 ≤ length v2)%nat →
  ∃ r, transform op v1 v2 = Ok r ∧ length r = length v1.
Proof.
  induction v1 as [|x v1 IH]; intros v2 Hlen; [by exists []|].
  destruct v2 as [|y v2]; [simpl in Hlen; lia|].
  destruct (IH v2) as (r & Hr & Hlenr); [simpl in Hlen; lia|].
  exists (op x y :: r). simpl. rewrite Hr. split; [done|]. simpl. lia.
Qed.

Lemma transform_short op v1 : ∀ v2,
  (length v2 < length v1)%nat → transform op v1 v2 = Undefined OutOfBounds.
Proof.
  induction v1 as [|x v1 IH]; intros v2 Hlen; [simpl in Hlen; lia|].
  destruct v2 as [|y v2]; [done|].
  simpl. rewrite IH by (simpl in Hlen; lia). done.
Qed.

Lemma transform_take op v1 : ∀ v2,
  transform op v1 (take (length v1) v2) = transform op v1 v2.
Proof.
  induction v1 as [|x v1 IH]; intros v2; [done|].
  destruct v2 as [|y v2]; [done|]. simpl. by rewrite IH.
Qed.

Lemma transform_sym op v1 : ∀ v2 r,
  (∀ x y, op x y == op y x) →
  transform op v1 v2 = Ok r → length v1 = length v2 →
  ∃ r', transform op v2 v1 = Ok r' ∧ Forall2 Qeq r r'.
Proof.
  induction v1 as [|x v1 IH]; intros v2 r Hop Hr Hlen.
  - destruct v2; [|done]. injection Hr as <-. by exists [].
  - destruct v2 as [|y v2]; [done|]. simpl in Hr.
    apply bind_Ok in Hr as (r0 & Hr0 & [= <-]).
    destruct (IH v2 r0 Hop Hr0) as (r' & Hr' & Heq); [simpl in Hlen; lia|].
    exists (op y x :: r'). simpl. rewrite Hr'. split; [done|].
    by constructor.
Qed.

Lemma transform_self v :
  ∃ r, transform sq_diff v v = Ok r ∧ Forall (λ q, q == 0) r.
Proof.
  induction v as [|x v (r & Hr & Hzero)]; [by exists []|].
  exists (sq_diff x x :: r). simpl. rewrite Hr. split; [done|].
  constructor; [ring|done].
Qed.

Lemma fold_left_Qplus_proper r r' : ∀ a a',
  Forall2 Qeq r r' → a == a' → fold_left Qplus r a == fold_left Qplus r' a'.
Proof.
  intros a a' HF. revert a a'.
  induction HF as [|x y r r' Hxy _ IH]; intros a a' Ha; [done|].
  simpl. apply IH. by rewrite Ha, Hxy.
Qed.

Lemma sum_proper r r' : Forall2 Qeq r r' → vpt.sum r == vpt.sum r'.
Proof. intros HF. by apply fold_left_Qplus_proper. Qed.

Lemma fold_left_Qplus_zeros r : ∀ a,
  Forall (λ q, q == 0) r → a == 0 → fold_left Qplus r a == 0.
Proof.
  intros a HF. revert a.
  induction HF as [|x r Hx _ IH]; intros a Ha; [done|].
  simpl. apply IH. rewrite Ha, Hx. ring.
Qed.

Lemma sum_zeros r : Forall (λ q, q == 0) r → vpt.sum r == 0.
Proof. intros HF. by apply fold_left_Qplus_zeros. Qed.

(** X14: on two vectors of the same size [EuclideanMetric] is defined,
    symmetric and non-negative. *)
Theorem EuclideanMetric_symmetric_on_equal_sizes (v1 v2 : list Q) :
  length v1 = length v2 →
  ∃ d d', EuclideanMetric v1 v2 = Ok d
          ∧ EuclideanMetric v2 v1 = Ok d'
          ∧ d == d' ∧ (0 <= d)%Q.
Proof.
  intros Hlen. unfold EuclideanMetric.
  destruct (transform_defined sq_diff v1 v2) as (r & Hr & _); [lia|].
  destruct (transform_sym sq_diff v1 v2 r) as (r' & Hr' & Heq);
    [intros x y; ring|done..|].
  rewrite Hr, Hr'. cbn. eexists _, _. repeat (split; [done|]).
  split; [|apply std_sqrt_nonneg].
  by apply std_sqrt_proper, sum_proper.
Qed.

(** X15: the distance from a vector to itself is zero. *)
Theorem EuclideanMetric_zero_on_identical (v : list Q) :
  ∃ d, EuclideanMetric v v = Ok d ∧ d == 0.
Proof.
  unfold EuclideanMetric. destruct (transform_self v) as (r & -> & Hzero).
  cbn. eexists. split; [done|].
  rewrite <- std_sqrt_0. by apply std_sqrt_proper, sum_zeros.
Qed.

(** X16: on vectors of different sizes [EuclideanMetric] is not symmetric: with
    the shorter vector first it is the distance to the prefix of the longer
    one (the coordinates beyond the size of the first vector are ignored),
    with the longer vector first it reads the shorter one past its end. *)
Theorem EuclideanMetric_on_different_sizes (v1 v2 : list Q) :
  (length v1 < length v2)%nat →
  (∃ d, EuclideanMetric v1 v2 = Ok d)
  ∧ EuclideanMetric v1 v2 = EuclideanMetric v1 (take (length v1) v2)
  ∧ EuclideanMetric v2 v1 = Undefined OutOfBounds.
Proof.
  intros Hlen. unfold EuclideanMetric. split; [|split].
  - destruct (transform_defined sq_diff v1 v2) as (r & -> & _); [lia|].
    by eexists.
  - by rewrite transform_take.
  - by rewrite transform_short.
Qed.
End Metric.

Module ReferenceMetricFacts.
Import ReferenceMetric.

#[export] Program Instance isqrt_Sqrt : Sqrt := {| std_sqrt := isqrt |}.
Next Obligation. reflexivity. Qed.
Next Obligation.
  intros x. unfold isqrt.
  rewrite <- (Zle_Qle 0). apply Z.sqrt_nonneg.
Qed.
Next Obligation.
  intros x y Hxy. unfold isqrt. rewrite <- Zle_Qle.
  by apply Z.sqrt_le_mono, Qfloor_resp_le.
Qed.
End ReferenceMetricFacts.

(** ** Equality of results *)

Section ResultEqualityProperties.
Context {T : Type}.
Variable getDistance : T → T → Q.
Variable T_eq : T → T → bool.
Context `{!NthElement (T * Z), !UniformRng, !PriorityQueue}.
Implicit Types t : VpTree T.
Implicit Types input : list T.

#[local] Abbreviation VpTree_new := (VpTree_new getDistance).
#[local] Abbreviation getNearestNeighbors := (getNearestNeighbors getDistance).

(** X8: two results for the same target on the same tree, from queries with
    any counts, are equal by [operator==] exactly when they carry the same
    index, as long as [operator==] of [T] holds between an item and
    itself. *)
Theorem results_equal_iff_same_index input (seed : rng) (target : T)
    (k1 k2 : Z) :
  (∀ x, T_eq x x = true) →
  input ≠ [] →
  INT_MIN ≤ k1 ≤ INT_MAX → k1 ≠ 0 → INT_MIN ≤ k2 ≤ INT_MAX → k2 ≠ 0 →
  ∃ t rs1 rs2,
    VpTree_new input seed = Ok t
    ∧ getNearestNeighbors t target k1 = Ok rs1
    ∧ getNearestNeighbors t target k2 = Ok rs2
    ∧ ∀ r1 r2, r1 ∈ rs1 → r2 ∈ rs2 →
        Result_eq T_eq t r1 r2
        = Ok (bool_decide (Result.index r1 = Result.index r2)).
Proof.
  intros Hrefl Hne Hk1 Hk10 Hk2 Hk20.
  destruct (VpTree_new_spec getDistance input seed) as (t & Hnew & _).
  destruct (query_results getDistance input seed t target k1 Hnew Hne)
    as (rs1 & Hq1 & Hat1 & _); [by apply size_t_of_int_pos|].
  destruct (query_results getDistance input seed t target k2 Hnew Hne)
    as (rs2 & Hq2 & Hat2 & _); [by apply size_t_of_int_pos|].
  exists t, rs1, rs2. repeat (split; [done|]). intros r1 r2 Hr1 Hr2.
  rewrite Forall_forall in Hat1, Hat2.
  destruct (Hat1 r1 Hr1) as ((it1 & Hnn1 & Hit1 & Hindex1 & Hdist1) & _).
  destruct (Hat2 r2 Hr2) as ((it2 & Hnn2 & Hit2 & Hindex2 & Hdist2) & _).
  unfold Result_eq, deref.
  rewrite (proj2 (vec_at_Ok _ _ _) (conj Hnn1 Hit1)).
  rewrite (proj2 (vec_at_Ok _ _ _) (conj Hnn2 Hit2)). cbn. f_equal.
  case_bool_decide as Hidx.
  - pose proof (built_indices_NoDup getDistance _ _ _ Hnew) as Hnd.
    assert (Z.to_nat (Result.item r1) = Z.to_nat (Result.item r2)) as Hpos.
    { eapply (NoDup_lookup _ _ _ (Result.index r1) Hnd);
        rewrite list_lookup_fmap; [by rewrite Hit1, Hindex1|].
      by rewrite Hit2, Hidx, Hindex2. }
    rewrite Hpos, Hit2 in Hit1. injection Hit1 as <-.
    rewrite Hrefl, Hdist1, Hdist2. simpl. apply Qeq_bool_iff. reflexivity.
  - by rewrite andb_false_r.
Qed.
End ResultEqualityProperties.

(** * Concrete runs

    The model run with the reference implementations, on integers. *)

Import Reference ReferenceFacts.

(** Evaluate the left-hand side of an equation, in the goal or in [H]. *)
Ltac run :=
  match goal with
  | |- ?lhs = _ => let v := eval vm_compute in lhs in change lhs with v
  end.
Ltac run_in H :=
  match type of H with
  | ?lhs = _ => let v := eval vm_compute in lhs in change lhs with v in H
  end.

Lemma DBL_MAX_nonneg : (0 <= DBL_MAX)%Q.
Proof. discriminate. Qed.

Lemma far_apart_metric : metric_contract far_apart.
Proof.
  pose proof DBL_MAX_nonneg as Hmax. unfold metric_contract, far_apart.
  split; [|split].
  - intros x y. case_decide; [apply Qle_refl|done].
  - intros x y. do 2 case_decide; try lia; reflexivity.
  - intros x y z. revert Hmax. generalize DBL_MAX. intros M HM.
    do 3 case_decide; try lia; lra.
Qed.

(** C1, counterexample: [far_apart] satisfies the metric contract, yet on
    the single item 5 a query for the target 9 with k = n = 1 does not return
    a permutation of all the items: the item is at distance [DBL_MAX], which
    is not below the initial [tau_], and the result is empty. *)
Lemma query_all_misses_item_at_DBL_MAX :
  metric_contract far_apart
  ∧ ¬ ∃ (t : VpTree Z) rs views,
        VpTree_new far_apart [5] 42 = Ok t
        ∧ getNearestNeighbors far_apart t 9 (Z.of_nat (length [5])) = Ok rs
        ∧ Forall2 (resolves (items_ t)) rs views
        ∧ views ≡ₚ bruteForce far_apart [5] 9.
Proof.
  split; [exact far_apart_metric|].
  intros (t & rs & views & Hnew & Hq & Hres & Hperm).
  run_in Hnew. injection Hnew as <-.
  run_in Hq. injection Hq as <-.
  apply Forall2_nil_inv_l in Hres as ->.
  vm_compute in Hperm. by apply Permutation_nil_cons in Hperm.
Qed.

(** C1, amended, at the items 10, 3, 7 and the target 9. *)
Lemma query_all_is_brute_force_witness :
  ∃ (t : VpTree Z) rs views,
    VpTree_new absdiff [10; 3; 7] 42 = Ok t
    ∧ getNearestNeighbors absdiff t 9 (Z.of_nat (length [10; 3; 7])) = Ok rs
    ∧ Forall2 (resolves (items_ t)) rs views
    ∧ views ≡ₚ bruteForce absdiff [10; 3; 7] 9
    ∧ ascending views
    ∧ Forall2 (λ v b, v.2 == b.2) views (bruteForce absdiff [10; 3; 7] 9).
Proof.
  apply (@query_all_is_brute_force Z absdiff sort_NthElement lcg_UniformRng
           list_PriorityQueue [10; 3; 7] 42 9).
  - discriminate.
  - vm_compute. discriminate.
  - apply below_DBL_MAXb_correct. vm_compute. reflexivity.
Defined.

(** C2, counterexample: the same query returns no result, not
    [min(1, 1) = 1] results. *)
Lemma query_count_falls_short_at_DBL_MAX :
  ¬ ∃ (t : VpTree Z) rs,
      VpTree_new far_apart [5] 42 = Ok t
      ∧ getNearestNeighbors far_apart t 9 1 = Ok rs
      ∧ Z.of_nat (length rs) = Z.min 1 (Z.of_nat (length [5])).
Proof.
  intros (t & rs & Hnew & Hq & Hlen).
  run_in Hnew. injection Hnew as <-.
  run_in Hq. injection Hq as <-. discriminate.
Qed.

(** C2, amended, at the items 10, 3, 7, 1, 20, the target 9 and k = 2. *)
Lemma query_returns_min_k_n_sorted_witness :
  ∃ (t : VpTree Z) rs,
    VpTree_new absdiff [10; 3; 7; 1; 20] 42 = Ok t
    ∧ getNearestNeighbors absdiff t 9 2 = Ok rs
    ∧ Z.of_nat (length rs) = Z.min 2 (Z.of_nat (length [10; 3; 7; 1; 20]))
    ∧ StronglySorted Qle (Result.dist <$> rs).
Proof.
  apply (@query_returns_min_k_n_sorted Z absdiff sort_NthElement
           lcg_UniformRng list_PriorityQueue [10; 3; 7; 1; 20] 42 9 2).
  - discriminate.
  - vm_compute. split; discriminate.
  - apply below_DBL_MAXb_correct. vm_compute. reflexivity.
Defined.

(** C6, as the code has it: on the items 10, 3, 7, whatever the seed, a
    query for the target 9 with [neighborsCount = 0] pops the empty heap. *)
Theorem zero_count_query_pops_empty_heap (seed : Z) :
  ∃ t : VpTree Z,
    VpTree_new absdiff [10; 3; 7] seed = Ok t
    ∧ getNearestNeighbors absdiff t 9 0 = Undefined PopEmptyHeap.
Proof.
  apply (@zero_count_pops_empty_heap Z absdiff sort_NthElement lcg_UniformRng
           list_PriorityQueue); [discriminate|].
  apply Forall_forall. repeat constructor.
Qed.

(** C7, counterexample: a query with k = -1 on the items 10, 3, 7 is not
    rejected; it returns three results, each pushed onto the heap and popped
    off it. *)
Lemma negative_count_is_not_rejected :
  ∃ (t : VpTree Z) rs,
    VpTree_new absdiff [10; 3; 7] 42 = Ok t
    ∧ getNearestNeighbors absdiff t 9 (-1) = Ok rs
    ∧ Result.index <$> rs = [0; 2; 1].
Proof.
  eexists _, _.
  split; [run; reflexivity|].
  split; [run; reflexivity|].
  run. reflexivity.
Qed.

(** C7, amended, at the items 10, 3, 7, the target 9 and k = -1. *)
Lemma negative_count_returns_all_items_witness :
  ∃ (t : VpTree Z) rs views,
    VpTree_new absdiff [10; 3; 7] 42 = Ok t
    ∧ getNearestNeighbors absdiff t 9 (-1) = Ok rs
    ∧ length rs = length [10; 3; 7]
    ∧ Forall2 (resolves (items_ t)) rs views
    ∧ views ≡ₚ bruteForce absdiff [10; 3; 7] 9
    ∧ ascending views
    ∧ Forall2 (λ v b, v.2 == b.2) views (bruteForce absdiff [10; 3; 7] 9).
Proof.
  apply (@negative_count_returns_all_items Z absdiff sort_NthElement
           lcg_UniformRng list_PriorityQueue [10; 3; 7] 42 9 (-1)).
  - discriminate.
  - vm_compute. discriminate.
  - vm_compute. split; [discriminate|reflexivity].
  - apply below_DBL_MAXb_correct. vm_compute. reflexivity.
Defined.

(** C8, at the first build step over the items 10, 3, 7, 1, 20. *)
Lemma build_step_partitions_at_median_witness :
  let t := mkVpTree (makeItems [10; 3; 7; 1; 20]) [] 42 in
  let m := (5 + 0) ÷ 2 in
  m = (0 + 5) `div` 2
  ∧ ∃ (t1 t2 t' : VpTree Z) vp mth nd,
      selectRoot t 0 5 = Ok t1
      ∧ partitionByDistance absdiff t1 0 m 5 = Ok t2
      ∧ rearranged (0 + 1) 5 (items_ t1) (items_ t2)
      ∧ items_ t2 !! Z.to_nat 0 = Some vp
      ∧ items_ t2 !! Z.to_nat m = Some mth
      ∧ (∀ (i j : nat) x y,
           0 + 1 ≤ Z.of_nat i < m → m ≤ Z.of_nat j < 5 →
           items_ t2 !! i = Some x → items_ t2 !! j = Some y →
           (absdiff vp.1 x.1 <= absdiff vp.1 y.1)%Q)
      ∧ makeTree absdiff 6 t 0 5 = Ok (Z.of_nat (length (nodes_ t)), t')
      ∧ nodes_ t' !! length (nodes_ t) = Some nd
      ∧ Node.threshold nd = absdiff vp.1 mth.1
      ∧ Node.item nd = 0
      ∧ (∃ fuel' t3 t4 t5 t6,
           6%nat = S fuel'
           ∧ update_node (makeNode t2 0).2 (makeNode t2 0).1
               (Node.with_threshold (absdiff vp.1 mth.1)) = Ok t3
           ∧ makeTree absdiff fuel' t3 (0 + 1) m = Ok (Node.left nd, t4)
           ∧ update_node t4 (Z.of_nat (length (nodes_ t)))
               (Node.with_left (Node.left nd)) = Ok t5
           ∧ makeTree absdiff fuel' t5 m 5 = Ok (Node.right nd, t6)
           ∧ update_node t6 (Z.of_nat (length (nodes_ t)))
               (Node.with_right (Node.right nd)) = Ok t'
           ∧ rearranged (0 + 1) m (items_ t2) (items_ t4)
           ∧ rearranged m 5 (items_ t4) (items_ t'))
      ∧ items_ t' !! Z.to_nat 0 = Some vp
      ∧ (∀ (i : nat) x,
           0 + 1 ≤ Z.of_nat i < m → items_ t' !! i = Some x →
           (absdiff vp.1 x.1 <= Node.threshold nd)%Q)
      ∧ (∀ (j : nat) y,
           m ≤ Z.of_nat j < 5 → items_ t' !! j = Some y →
           (Node.threshold nd <= absdiff vp.1 y.1)%Q).
Proof.
  apply (@build_step_partitions_at_median Z absdiff sort_NthElement
           lcg_UniformRng 6
           (@mkVpTree Z lcg_UniformRng (makeItems [10; 3; 7; 1; 20]) [] 42) 0 5);
    vm_compute; first [reflexivity | discriminate].
Defined.


(** The two calls, run: each returns the items 10 and 7, at the distances
    1 and 2. *)
Lemma successive_queries_run :
  successive_queries absdiff (built absdiff [10; 3; 7] 42) 9 2
  = Ok ([Result.mk 0 0 1; Result.mk 2 2 2], [Result.mk 0 0 1; Result.mk 2 2 2]).
Proof. run. reflexivity. Qed.

(** ** Further concrete runs *)

Import ReferenceMetric ReferenceMetricFacts ReferenceDistances.

Lemma absdiff_metric : metric_contract absdiff.
Proof.
  unfold absdiff. split; [|split].
  - intros x y. rewrite <- (Zle_Qle 0). lia.
  - intros x y. apply inject_Z_injective. lia.
  - intros x y z. rewrite <- inject_Z_plus, <- Zle_Qle. lia.
Qed.

Lemma metric_contract_among {T} (d : T → T → Q) pts :
  metric_contract d → metric_among d pts.
Proof. intros (Hnn & Hsym & Htri) x y z _ _ _. done. Qed.

(** X3, at a query with [lopsided], which is no metric. *)
Lemma query_returns_for_any_distance_witness :
  ∃ (t : VpTree Z) rs,
    VpTree_new lopsided [10; 3; 7] 42 = Ok t
    ∧ getNearestNeighbors lopsided t 9 2 = Ok rs
    ∧ (length rs ≤ length [10; 3; 7])%nat
    ∧ (0 < 2 → Z.of_nat (length rs) ≤ 2).
Proof.
  apply (@query_returns_for_any_distance Z lopsided sort_NthElement
           lcg_UniformRng list_PriorityQueue [10; 3; 7] 42 9 2).
  - discriminate.
  - vm_compute. split; discriminate.
  - discriminate.
Defined.

(** X4, at a query with [lopsided]. *)
Lemma results_ascend_for_any_distance_witness :
  ∃ (t : VpTree Z) rs,
    VpTree_new lopsided [10; 3; 7; 1; 20] 42 = Ok t
    ∧ getNearestNeighbors lopsided t 9 3 = Ok rs
    ∧ StronglySorted Qle (Result.dist <$> rs).
Proof.
  apply (@results_ascend_for_any_distance Z lopsided sort_NthElement
           lcg_UniformRng list_PriorityQueue [10; 3; 7; 1; 20] 42 9 3).
  - discriminate.
  - vm_compute. split; discriminate.
  - discriminate.
Defined.

(** X5, at the two nearest neighbours of 9 among 10, 3, 7, 1, 20. *)
Lemma result_dist_is_distance_to_target_witness :
  ∃ (t : VpTree Z) rs,
    VpTree_new absdiff [10; 3; 7; 1; 20] 42 = Ok t
    ∧ getNearestNeighbors absdiff t 9 2 = Ok rs
    ∧ ∀ r, r ∈ rs →
        ∃ x, 0 ≤ Result.index r
             ∧ [10; 3; 7; 1; 20] !! Z.to_nat (Result.index r) = Some x
             ∧ deref t r = Ok x
             ∧ Result.dist r = absdiff x 9
             ∧ (Result.dist r < DBL_MAX)%Q.
Proof.
  apply (@result_dist_is_distance_to_target Z absdiff sort_NthElement
           lcg_UniformRng list_PriorityQueue [10; 3; 7; 1; 20] 42 9 2).
  - discriminate.
  - vm_compute. split; discriminate.
  - discriminate.
Defined.

(** X6, at an input with equal values: each of them is an item of its
    own, returned once. *)
Lemma results_are_distinct_items_witness :
  ∃ (t : VpTree Z) rs,
    VpTree_new absdiff [7; 3; 7; 7] 42 = Ok t
    ∧ getNearestNeighbors absdiff t 9 3 = Ok rs
    ∧ NoDup (Result.index <$> rs)
    ∧ NoDup (Result.item <$> rs).
Proof.
  apply (@results_are_distinct_items Z absdiff sort_NthElement
           lcg_UniformRng list_PriorityQueue [7; 3; 7; 7] 42 9 3).
  - discriminate.
  - vm_compute. split; discriminate.
  - discriminate.
Defined.

(** X1, at the three nearest neighbours of 9 among seven integers. *)
Lemma query_returns_the_k_nearest_witness :
  ∃ (t : VpTree Z) rs,
    VpTree_new absdiff [10; 3; 7; 1; 20; 12; 8] 42 = Ok t
    ∧ getNearestNeighbors absdiff t 9 3 = Ok rs
    ∧ Z.of_nat (length rs)
      = Z.min 3 (Z.of_nat (length [10; 3; 7; 1; 20; 12; 8]))
    ∧ Forall2 (λ r b, Result.dist r == b.2) rs
        (take (Z.to_nat 3) (bruteForce absdiff [10; 3; 7; 1; 20; 12; 8] 9)).
Proof.
  apply (@query_returns_the_k_nearest Z absdiff sort_NthElement
           lcg_UniformRng list_PriorityQueue [10; 3; 7; 1; 20; 12; 8] 42 9 3).
  - discriminate.
  - vm_compute. split; discriminate.
  - apply below_DBL_MAXb_correct. vm_compute. reflexivity.
  - apply metric_contract_among, absdiff_metric.
Defined.

(** X2, at the three nearest neighbours of 9 among 10, 3, 7, 1, 20, which
    are at the distances 1, 6, 2, 8 and 11. *)
Lemma query_returns_the_nearest_items_witness :
  ∃ (t : VpTree Z) rs,
    VpTree_new absdiff [10; 3; 7; 1; 20] 42 = Ok t
    ∧ getNearestNeighbors absdiff t 9 3 = Ok rs
    ∧ Forall2 (λ r b, Result.index r = b.1.2
                      ∧ deref t r = Ok b.1.1
                      ∧ Result.dist r = b.2) rs
        (take (Z.to_nat 3) (bruteForce absdiff [10; 3; 7; 1; 20] 9)).
Proof.
  apply (@query_returns_the_nearest_items Z absdiff sort_NthElement
           lcg_UniformRng list_PriorityQueue [10; 3; 7; 1; 20] 42 9 3).
  - discriminate.
  - vm_compute. split; discriminate.
  - apply below_DBL_MAXb_correct. vm_compute. reflexivity.
  - apply metric_contract_among, absdiff_metric.
  - apply no_tiesb_correct. vm_compute. reflexivity.
Defined.

(** X7, at the seeds 42 and 5. *)
Lemma seed_changes_no_result_distance_witness :
  ∃ (t1 t2 : VpTree Z) rs1 rs2,
    VpTree_new absdiff [10; 3; 7; 1; 20; 12; 8] 42 = Ok t1
    ∧ VpTree_new absdiff [10; 3; 7; 1; 20; 12; 8] 5 = Ok t2
    ∧ getNearestNeighbors absdiff t1 9 3 = Ok rs1
    ∧ getNearestNeighbors absdiff t2 9 3 = Ok rs2
    ∧ Forall2 (λ r1 r2, Result.dist r1 == Result.dist r2) rs1 rs2.
Proof.
  apply (@seed_changes_no_result_distance Z absdiff sort_NthElement
           lcg_UniformRng list_PriorityQueue [10; 3; 7; 1; 20; 12; 8] 42 5 9 3).
  - discriminate.
  - vm_compute. split; discriminate.
  - apply below_DBL_MAXb_correct. vm_compute. reflexivity.
  - apply metric_contract_among, absdiff_metric.
Defined.

(** X10, at [makeTree] on the positions 1, 2 and 3 of five items. *)
Lemma makeTree_stays_in_its_range_witness :
  let t := mkVpTree (makeItems [10; 3; 7; 1; 20]) [] 42 in
  ∃ node (t' : VpTree Z),
    makeTree absdiff 4 t 1 4 = Ok (node, t')
    ∧ items_ t' ≡ₚ items_ t
    ∧ (∀ p : nat, ¬ (1 ≤ Z.of_nat p < 4) → items_ t' !! p = items_ t !! p)
    ∧ (∃ new, nodes_ t' = nodes_ t ++ new
              ∧ Z.of_nat (length new) = Z.max 0 (4 - 1))
    ∧ node = (if decide (1 < 4) then Z.of_nat (length (nodes_ t))
              else Node.Leaf).
Proof.
  apply (@makeTree_stays_in_its_range Z absdiff sort_NthElement
           lcg_UniformRng 4
           (@mkVpTree Z lcg_UniformRng (makeItems [10; 3; 7; 1; 20]) [] 42) 1 4);
    vm_compute; first [reflexivity | discriminate].
Defined.

(** X13, at a tree over seven items: four nested calls. *)
Lemma search_recursion_is_logarithmic_witness :
  ∃ (t : VpTree Z) nd,
    VpTree_new absdiff [10; 3; 7; 1; 20; 12; 8] 42 = Ok t
    ∧ root t = Ok nd
    ∧ searchInNode absdiff
        (S (Z.to_nat (Z.log2_up (Z.of_nat (length [10; 3; 7; 1; 20; 12; 8])))))
        (Searcher_new t 9 3) nd ≠ OutOfFuel
    ∧ searchInNode absdiff
        (S (Z.to_nat (Z.log2_up (Z.of_nat (length [10; 3; 7; 1; 20; 12; 8])))))
        (Searcher_new t 9 3) nd
      = searchInNode absdiff (length (nodes_ t)) (Searcher_new t 9 3) nd.
Proof.
  apply (@search_recursion_is_logarithmic Z absdiff sort_NthElement
           lcg_UniformRng list_PriorityQueue [10; 3; 7; 1; 20; 12; 8] 42 9 3).
  discriminate.
Defined.

(** X14, at the distance between (0, 0) and (3, 4), both ways. *)
Lemma EuclideanMetric_symmetric_on_equal_sizes_witness :
  ∃ d d', EuclideanMetric [0; 0]%Q [3; 4]%Q = Ok d
          ∧ EuclideanMetric [3; 4]%Q [0; 0]%Q = Ok d'
          ∧ d == d' ∧ (0 <= d)%Q.
Proof.
  apply (@EuclideanMetric_symmetric_on_equal_sizes isqrt_Sqrt
           [0; 0]%Q [3; 4]%Q).
  reflexivity.
Defined.

(** X16, at a point of the line against a point of the plane. *)
Lemma EuclideanMetric_on_different_sizes_witness :
  (∃ d, EuclideanMetric [1]%Q [4; 2]%Q = Ok d)
  ∧ EuclideanMetric [1]%Q [4; 2]%Q
    = EuclideanMetric [1]%Q (take (length [1]%Q) [4; 2]%Q)
  ∧ EuclideanMetric [4; 2]%Q [1]%Q = Undefined OutOfBounds.
Proof.
  apply (@EuclideanMetric_on_different_sizes isqrt_Sqrt [1]%Q [4; 2]%Q).
  vm_compute. lia.
Defined.

(** X8, at the results of two queries for the same target. *)
Lemma results_equal_iff_same_index_witness :
  ∃ (t : VpTree Z) rs1 rs2,
    VpTree_new absdiff [7; 3; 7; 7] 42 = Ok t
    ∧ getNearestNeighbors absdiff t 9 2 = Ok rs1
    ∧ getNearestNeighbors absdiff t 9 4 = Ok rs2
    ∧ ∀ r1 r2, r1 ∈ rs1 → r2 ∈ rs2 →
        Result_eq Z.eqb t r1 r2
        = Ok (bool_decide (Result.index r1 = Result.index r2)).
Proof.
  apply (@results_equal_iff_same_index Z absdiff Z.eqb sort_NthElement
           lcg_UniformRng list_PriorityQueue [7; 3; 7; 7] 42 9 2 4).
  - apply Z.eqb_refl.
  - discriminate.
  - vm_compute. split; discriminate.
  - discriminate.
  - vm_compute. split; discriminate.
  - discriminate.
Defined.
